(** * Risograph pipeline: colour decomposition, halftone screens, compositing

    A shallow embedding of [lib/risograph.ts] and [lib/halftone.ts].

    Numbers.  A JavaScript number is modelled by [num]: a rational, or one of
    the three non-finite values [PInf], [NInf], [NaN].  The operations follow
    IEEE 754 on the non-finite values (a division by zero is not finite,
    [NaN] is contagious, every comparison with [NaN] is false); on the
    rationals they round the exact result with the rounding [fl] of the
    arithmetic at hand, a parameter of the whole program ([Rounding]).  Two
    arithmetics are defined: [binary64], the arithmetic of the platform, in
    which a result is the nearest binary64 number, halves going to the even
    significand and an overflow to an infinity; and [exactArithmetic], in
    which nothing is rounded.  A theorem that says "in every arithmetic"
    holds for any rounding, [binary64] included; a statement that names no
    arithmetic is about the exact one.  The sign of a zero is outside the
    model.

    Typed arrays.  A cell of a [Float32Array] holds the binary32 number
    nearest to the number stored ([fround]); a cell of a [Float64Array] holds
    the number stored; a cell of a [Uint8ClampedArray] holds the clamped
    byte.

    Platform.  [Math.cos], [Math.sin], [Math.sqrt] and [Math.PI] are
    parameters of the halftone functions; [Math.random] is an oracle
    [nat -> Q] read through an explicit draw counter; the canvas raises
    [IndexSizeError] when asked for a buffer without area. *)

From Stdlib Require Import ZArith QArith Qround Qabs Qpower Lia Lqa List Bool.
From stdpp Require Import base list.

(** ** JavaScript numbers *)

Module JS.

Inductive num : Type :=
| Fin (q : Q)
| PInf
| NInf
| NaN.

(** The rounding of the exact result of an arithmetic operation, and of a
    decimal literal, to a number of the platform. *)
Class Rounding : Type := { fl : Q -> num }.

Definition ofZ (z : Z) : num := Fin (inject_Z z).
Definition ofNat (n : nat) : num := ofZ (Z.of_nat n).

(** Sign of a number that is not [NaN]; a zero counts as 0. *)
Definition sgn (x : num) : Z :=
  match x with
  | Fin q => Z.sgn (Qnum q)
  | PInf => 1
  | NInf => -1
  | NaN => 0
  end.

Definition ofSign (s : Z) : num :=
  match s with
  | Z0 => NaN
  | Zpos _ => PInf
  | Zneg _ => NInf
  end.

Definition neg (x : num) : num :=
  match x with
  | Fin q => Fin (- q)
  | PInf => NInf
  | NInf => PInf
  | NaN => NaN
  end.

Section Arithmetic.

Context {R : Rounding}.

Definition add (x y : num) : num :=
  match x, y with
  | Fin a, Fin b => fl (a + b)
  | NaN, _ | _, NaN => NaN
  | PInf, NInf | NInf, PInf => NaN
  | PInf, _ | _, PInf => PInf
  | NInf, _ | _, NInf => NInf
  end.

Definition sub (x y : num) : num := add x (neg y).

Definition mul (x y : num) : num :=
  match x, y with
  | Fin a, Fin b => fl (a * b)
  | NaN, _ | _, NaN => NaN
  | _, _ => ofSign (sgn x * sgn y)
  end.

(** [x / y]: a finite quotient only when the divisor is a non-zero rational
    or infinite. *)
Definition div (x y : num) : num :=
  match x, y with
  | Fin a, Fin b =>
      if (Qnum b =? 0)%Z then ofSign (Z.sgn (Qnum a))
      else fl (a / b)
  | NaN, _ | _, NaN => NaN
  | Fin _, _ => Fin 0
  | _, Fin b => ofSign (sgn x * (if (Qnum b <? 0)%Z then -1 else 1))
  | _, _ => NaN
  end.

(** A decimal literal of the source. *)
Definition lit (q : Q) : num := fl q.

End Arithmetic.

(** [x < y]; false as soon as one side is [NaN]. *)
Definition ltb (x y : num) : bool :=
  match x, y with
  | Fin a, Fin b => negb (Qle_bool b a)
  | NaN, _ | _, NaN => false
  | NInf, NInf => false
  | NInf, _ => true
  | _, PInf => match x with PInf => false | _ => true end
  | _, _ => false
  end.

Definition gtb (x y : num) : bool := ltb y x.
Definition leb (x y : num) : bool :=
  match x, y with
  | Fin a, Fin b => Qle_bool a b
  | NaN, _ | _, NaN => false
  | NInf, _ => true
  | _, PInf => true
  | _, _ => false
  end.
Definition geb (x y : num) : bool := leb y x.

Definition isNaN (x : num) : bool :=
  match x with NaN => true | _ => false end.

(** [Math.max] and [Math.min] of two arguments. *)
Definition max (x y : num) : num :=
  if isNaN x || isNaN y then NaN else if ltb x y then y else x.
Definition min (x y : num) : num :=
  if isNaN x || isNaN y then NaN else if ltb y x then y else x.

(** [Math.floor] and [Math.round] (halves go up). *)
Definition floor (x : num) : num :=
  match x with Fin q => ofZ (Qfloor q) | _ => x end.
Definition round (x : num) : num :=
  match x with Fin q => ofZ (Qfloor (q + (1 # 2))) | _ => x end.

(** Truncation towards zero of a rational. *)
Definition Qtrunc (q : Q) : Z :=
  if (Qnum q <? 0)%Z then Qceiling q else Qfloor q.

(** [x % 1]: what is left of [x] after its integer part, with the sign of
    [x]. *)
Definition mod1 (x : num) : num :=
  match x with
  | Fin q => Fin (Qred (q - inject_Z (Qtrunc q)))
  | _ => NaN
  end.

(** ** 32-bit integers *)

Definition wrap32 (z : Z) : Z := (z mod 4294967296)%Z.

(** ToUint32 and ToInt32 of an integer. *)
Definition toUint32Z (z : Z) : Z := wrap32 z.
Definition toInt32Z (z : Z) : Z :=
  let u := wrap32 z in
  if (u <? 2147483648)%Z then u else (u - 4294967296)%Z.

(** [x | 0]: ToInt32 of a number; the non-finite ones give 0. *)
Definition toInt32 (x : num) : Z :=
  match x with
  | Fin q => toInt32Z (Qtrunc q)
  | _ => 0%Z
  end.

(** [Math.imul], [>>>] and [^] on values already converted to Int32. *)
Definition imul (a b : Z) : Z := toInt32Z (a * b).
Definition ushr (a : Z) (k : Z) : Z := Z.shiftr (toUint32Z a) k.
Definition xor32 (a b : Z) : Z := toInt32Z (Z.lxor a b).

(** ** Typed arrays *)

(** Reading a cell: an index out of range reads [undefined], which behaves as
    [NaN] in arithmetic. *)
Definition rd (a : list num) (i : nat) : num := default NaN (a !! i).

(** Conversion of a number stored in a [Uint8ClampedArray]: [NaN] is 0, the
    value is clamped to 0..255 and rounded to the nearest integer, halves to
    the even one. *)
Definition roundHalfEven (q : Q) : Z :=
  let f := Qfloor q in
  let r := (q - inject_Z f)%Q in
  if Qle_bool r (1 # 2)
  then (if Qle_bool (1 # 2) r then (if Z.even f then f else f + 1)%Z else f)
  else (f + 1)%Z.

Definition toUint8Clamped (x : num) : Z :=
  match x with
  | Fin q =>
      if Qle_bool q 0 then 0%Z
      else if Qle_bool 255 q then 255%Z
      else roundHalfEven q
  | PInf => 255%Z
  | NInf | NaN => 0%Z
  end.

(** ** Binary formats *)

(** For [0 < q], the exponent [e] with [2^e <= q < 2^(e+1)]. *)
Definition ilog2 (q : Q) : Z :=
  let e := (Z.log2 (Qnum q) - Z.log2 (Zpos (Qden q)))%Z in
  if Qle_bool (2 ^ e) q then e else (e - 1)%Z.

(** The number nearest to [q] in the binary format of [prec] significant
    bits whose numbers are multiples of [2^emin] and lie below [2^emax]: the
    halves go to the even significand, and what rounds to [2^emax] or beyond
    is infinite (the sign of a zero is not kept). *)
Definition nearest (prec emin emax : Z) (q : Q) : num :=
  if Qeq_bool q 0 then Fin 0
  else
    let ulp := (2 ^ Z.max (ilog2 (Qabs q) - (prec - 1)) emin)%Q in
    let v := (inject_Z (roundHalfEven (q / ulp)) * ulp)%Q in
    if Qle_bool (2 ^ emax) (Qabs v)
    then (if Qle_bool 0 q then PInf else NInf)
    else Fin (Qred v).

(** [Math.fround], and the conversion of a number stored in a
    [Float32Array]: the nearest binary32 number. *)
Definition fround (x : num) : num :=
  match x with
  | Fin q => nearest 24 (-149) 128 q
  | _ => x
  end.

(** Reading a byte cell as a number. *)
Definition rdByte (a : list Z) (i : nat) : num :=
  match a !! i with Some b => ofZ b | None => NaN end.

End JS.

Import JS.

Declare Scope num_scope.
Delimit Scope num_scope with num.
Bind Scope num_scope with num.
Infix "+" := JS.add : num_scope.
Infix "-" := JS.sub : num_scope.
Infix "*" := JS.mul : num_scope.
Infix "/" := JS.div : num_scope.
Infix "<?" := JS.ltb : num_scope.
Infix ">?" := JS.gtb : num_scope.
Infix "<=?" := JS.leb : num_scope.
Infix ">=?" := JS.geb : num_scope.
Notation "- x" := (JS.neg x) : num_scope.

Arguments JS.add : simpl never.
Arguments JS.sub : simpl never.
Arguments JS.mul : simpl never.
Arguments JS.div : simpl never.
Arguments JS.ltb : simpl never.
Arguments JS.gtb : simpl never.
Arguments JS.leb : simpl never.
Arguments JS.geb : simpl never.
Arguments JS.max : simpl never.
Arguments JS.min : simpl never.

(** ** Loops *)

(** [for (let i = 0; i < n; i++) body], and the same from a lower bound. *)
Definition forRange {S : Type} (n : nat) (body : nat -> S -> S) (s : S) : S :=
  foldl (fun s i => body i s) s (seq 0 n).

Definition forFromTo {S : Type} (lo hi : nat) (body : nat -> S -> S) (s : S)
  : S :=
  foldl (fun s i => body i s) s (seq lo (hi - lo)).

(** [new Float32Array(n)] and [new Float64Array(n)]: [n] cells holding 0. *)
Definition newFloatArray (n : nat) : list num := replicate n (Fin 0).

(** The index denoted by a number used as an array subscript: an integer that
    is not negative; any other subscript reads [undefined]. *)
Definition subscript (x : num) : option nat :=
  match x with
  | Fin q =>
      if Qeq_bool q (inject_Z (Qfloor q)) && (0 <=? Qfloor q)%Z
      then Some (Z.to_nat (Qfloor q)) else None
  | _ => None
  end.

Definition rdAt (a : list num) (x : num) : num :=
  match subscript x with Some i => rd a i | None => NaN end.

(** ** Data *)

Record RGB : Type := mkRGB { r : Z; g : Z; b : Z }.

Inductive HalftoneMode : Type := AM | FM.

Record HalftoneOptions : Type := mkHalftoneOptions {
  dotSize : num;
  angle : num;
  density : option num;
  mode : option HalftoneMode
}.

(** A spot colour.  [color] is the triple that [hexToRgb] of [./color]
    returns for the colour's hex code. *)
Record RisographColor : Type := mkRisographColor {
  name : list Byte.byte;
  color : RGB;
  rc_angle : option num
}.

Record RisographOptions : Type := mkRisographOptions {
  colors : list RisographColor;
  ro_dotSize : num;
  misregistration : num;
  grain : num;
  ro_density : option num;
  inkOpacity : option num;
  paperColor : option RGB;
  halftoneMode : option HalftoneMode;
  noise : option num
}.

(** [ImageData]: row-major RGBA bytes.  The [width] and the [height] of an
    [ImageData] are [unsigned long] attributes: no value of the type has a
    negative size. *)
Record ImageData : Type := mkImageData {
  data : list Z;
  width : nat;
  height : nat
}.

(** How a call of the pipeline completes.  [ConfigurationError] and
    [InvalidInputError] are the two kinds of failure of the specification;
    [processRisograph] has no [throw] statement and validates none of its
    arguments, so it raises neither.  [IndexSizeError] is the exception of
    the canvas, raised by [ctx.createImageData] for a buffer without area. *)
Inductive ErrorKind : Type :=
| ConfigurationError
| InvalidInputError
| IndexSizeError.

Inductive Completion (A : Type) : Type :=
| Normal (a : A)
| Throw (e : ErrorKind).
Arguments Normal {A} a.
Arguments Throw {A} e.

Abbreviation vec3 := (num * num * num)%type.

Section Program.

Context {R : Rounding}.

(** ** Hashes of lattice coordinates *)

(** The mixing steps shared by [scuffHash] and [cellHash], from the Int32
    value [h] on. *)
Definition hashMix (h : Z) : num :=
  let h1 := imul (xor32 h (ushr h 13)) 1274126177 in
  let h2 := xor32 h1 (ushr h1 16) in
  (ofZ (toUint32Z h2) / ofZ 4294967296)%num.

Definition scuffHash (x y seed : num) : num :=
  hashMix (toInt32 (x * ofZ 374761393 + y * ofZ 668265263
                    + seed * ofZ 1013904223)%num).

Definition cellHash (x y : num) : num :=
  hashMix (toInt32 (x * ofZ 374761393 + y * ofZ 668265263)%num).

Definition smoothNoise (x y cellSize seed : num) : num :=
  let gx := floor (x / cellSize) in
  let gy := floor (y / cellSize) in
  let fx := (x / cellSize - gx)%num in
  let fy := (y / cellSize - gy)%num in
  let n00 := scuffHash gx gy seed in
  let n10 := scuffHash (gx + ofZ 1) gy seed in
  let n01 := scuffHash gx (gy + ofZ 1) seed in
  let n11 := scuffHash (gx + ofZ 1) (gy + ofZ 1) seed in
  let sx := (fx * fx * (ofZ 3 - ofZ 2 * fx))%num in
  let sy := (fy * fy * (ofZ 3 - ofZ 2 * fy))%num in
  ((n00 * (ofZ 1 - sx) + n10 * sx) * (ofZ 1 - sy)
   + (n01 * (ofZ 1 - sx) + n11 * sx) * sy)%num.

Definition DEFAULT_ANGLES : list num :=
  map ofZ [15; 75; 0; 45; 30; 60; 90; 105]%Z.

Definition DEFAULT_PAPER : RGB := mkRGB 245 240 232.

(** ** Halftone screens *)

Section Halftone.

(** The platform's [Math.cos], [Math.sin], [Math.sqrt] and [Math.PI]. *)
Variables Math_cos Math_sin Math_sqrt : num -> num.
Variable Math_PI : num.

(** The rotated coordinates of a point. *)
Definition rotate (cos sin x y : num) : num * num :=
  ((x * cos + y * sin)%num, (- x * sin + y * cos)%num).

(** The position of a rotated coordinate relative to the centre of its grid
    cell, in cells (-0.5 to 0.5), and the half-width of the antialiased rim
    of a dot, for a grid of the given pitch. *)
Definition cellOffset (rot pitch : num) : num :=
  let cell := mod1 (rot / pitch) in
  (cell - round cell)%num.

Definition amEdge (pitch : num) : num := (lit (1 # 2) / pitch)%num.

(** The opacity of a dot of radius [radius] at distance [dist] from its
    centre, with a rim of half-width [edge]. *)
Definition amCoverage (dist radius edge : num) : num :=
  if (dist <? radius - edge)%num then ofZ 1
  else if (dist >? radius + edge)%num then ofZ 0
  else (ofZ 1 - (dist - (radius - edge)) / (ofZ 2 * edge))%num.

Definition halftoneAt (x y dens : num) (options : HalftoneOptions) : num :=
  let dotSize := dotSize options in
  let rad := (angle options * Math_PI / ofZ 180)%num in
  let cos := Math_cos rad in
  let sin := Math_sin rad in
  let '(rx, ry) := rotate cos sin x y in
  let cx := cellOffset rx dotSize in
  let cy := cellOffset ry dotSize in
  let dist := Math_sqrt (cx * cx + cy * cy)%num in
  let scale := default (ofZ 1) (density options) in
  let scaled := JS.min (dens * scale)%num (ofZ 1) in
  let radius := (Math_sqrt scaled * lit (1 # 2))%num in
  let edge := amEdge dotSize in
  amCoverage dist radius edge.

(** The three quantities [applyFMHalftone] derives from the dot size. *)
Definition fmCellSize (options : HalftoneOptions) : num := dotSize options.
Definition fmDotRadius (options : HalftoneOptions) : num :=
  (dotSize options * lit (1 # 2))%num.
Definition fmEdge (options : HalftoneOptions) : num :=
  JS.max (lit (1 # 2)) (lit (1 # 2) / dotSize options)%num.

(** One candidate cell [(gx + dx, gy + dy)] of the 3 x 3 neighbourhood:
    the body of the inner loop, from the running maximum to the next. *)
Definition fmCandidate (densityMap : list num) (width height : nat)
    (options : HalftoneOptions) (cos sin rx ry gx gy : num) (dy dx : Z)
    (maxOpacity : num) : num :=
  let scale := default (ofZ 1) (density options) in
  let cellSize := fmCellSize options in
  let dotRadius := fmDotRadius options in
  let edge := fmEdge options in
  let cx := (gx + ofZ dx)%num in
  let cy := (gy + ofZ dy)%num in
  let dotRx := ((cx + lit (1 # 2)) * cellSize)%num in
  let dotRy := ((cy + lit (1 # 2)) * cellSize)%num in
  let distX := (rx - dotRx)%num in
  let distY := (ry - dotRy)%num in
  let dist := Math_sqrt (distX * distX + distY * distY)%num in
  if (dist >? dotRadius + edge)%num then maxOpacity
  else
    let imgX := round (dotRx * cos - dotRy * sin)%num in
    let imgY := round (dotRx * sin + dotRy * cos)%num in
    let d :=
      if (imgX >=? ofZ 0)%num && (imgX <? ofNat width)%num
         && (imgY >=? ofZ 0)%num && (imgY <? ofNat height)%num
      then rdAt densityMap (imgY * ofNat width + imgX)%num
      else ofZ 0 in
    let d := JS.min (d * scale)%num (ofZ 1) in
    let threshold := cellHash cx cy in
    if (d <=? threshold)%num then maxOpacity
    else
      let opacity :=
        if (dist <? dotRadius - edge)%num then ofZ 1
        else (ofZ 1 - (dist - (dotRadius - edge)) / (ofZ 2 * edge))%num in
      JS.max maxOpacity opacity.

(** The value written at pixel [(x, y)]. *)
Definition fmPixel (densityMap : list num) (width height : nat)
    (options : HalftoneOptions) (x y : nat) : num :=
  let rad := (angle options * Math_PI / ofZ 180)%num in
  let cos := Math_cos rad in
  let sin := Math_sin rad in
  let cellSize := fmCellSize options in
  let '(rx, ry) := rotate cos sin (ofNat x) (ofNat y) in
  let gx := floor (rx / cellSize) in
  let gy := floor (ry / cellSize) in
  foldl (fun m dy =>
           foldl (fun m dx =>
                    fmCandidate densityMap width height options
                                cos sin rx ry gx gy dy dx m)
                 m [-1; 0; 1]%Z)
        (ofZ 0) [-1; 0; 1]%Z.

(** [result] is a [Float32Array]: a cell holds the binary32 number nearest to
    the number stored. *)
Definition applyFMHalftone (densityMap : list num) (width height : nat)
    (options : HalftoneOptions) : list num :=
  forRange height (fun y =>
    forRange width (fun x result =>
      <[ y * width + x :=
           fround (fmPixel densityMap width height options x y) ]> result))
    (newFloatArray (width * height)).

(** [{ ...options, dotSize: options.dotSize + 1 }] *)
Definition amOptions (options : HalftoneOptions) : HalftoneOptions :=
  mkHalftoneOptions (dotSize options + ofZ 1)%num (angle options)
                    (density options) (mode options).

Definition applyHalftone (densityMap : list num) (width height : nat)
    (options : HalftoneOptions) : list num :=
  match mode options with
  | Some FM => applyFMHalftone densityMap width height options
  | _ =>
      forRange height (fun y =>
        forRange width (fun x result =>
          let i := y * width + x in
          <[ i := fround (halftoneAt (ofNat x) (ofNat y) (rd densityMap i)
                                     (amOptions options)) ]> result))
        (newFloatArray (width * height))
  end.

End Halftone.

(** ** Colour decomposition *)

Definition dot3 (u v : vec3) : num :=
  (u.1.1 * v.1.1 + u.1.2 * v.1.2 + u.2 * v.2)%num.

(** The absorption vector of an ink: [(paper - ink) / 255], per channel. *)
Definition inkDelta (paper ink : RGB) : vec3 :=
  ((ofZ (r paper) - ofZ (r ink)) / ofZ 255,
   (ofZ (g paper) - ofZ (g ink)) / ofZ 255,
   (ofZ (b paper) - ofZ (b ink)) / ofZ 255)%num.

Definition rdVec (a : list vec3) (i : nat) : vec3 :=
  default (NaN, NaN, NaN) (a !! i).

(** The table of the dot products of every pair of inks, row-major in a flat
    array: cell [i * n + j] and its mirror [j * n + i] are written together,
    for [i <= j]. *)
Definition dotInkInkTable (inkDeltas : list vec3) : list num :=
  let n := length inkDeltas in
  forRange n (fun i =>
    forFromTo i n (fun j tbl =>
      let dot := dot3 (rdVec inkDeltas i) (rdVec inkDeltas j) in
      <[ j * n + i := dot ]> (<[ i * n + j := dot ]> tbl)))
    (newFloatArray (n * n)).

Definition MAX_ITER : nat := 12.

(** [Math.max(0, Math.min(1, v))] *)
Definition clamp01 (v : num) : num := JS.max (ofZ 0) (JS.min (ofZ 1) v).

(** The guarded quotient used for the first guess and for every update. *)
Definition guardedRatio (numerator selfDot : num) : num :=
  if (selfDot >? lit (1 # 10000000000))%num
  then clamp01 (numerator / selfDot)
  else ofZ 0.

(** The target of a pixel: [(paper - pixel) / 255 * alpha], per channel. *)
Definition pixelTarget (data : list Z) (paper : RGB) (off : nat) (alpha : num)
  : vec3 :=
  (((ofZ (r paper) - rdByte data off) / ofZ 255) * alpha,
   ((ofZ (g paper) - rdByte data (off + 1)) / ofZ 255) * alpha,
   ((ofZ (b paper) - rdByte data (off + 2)) / ofZ 255) * alpha)%num.

(** The first guess: every cell of [densities] is overwritten by the plain
    projection on its ink. *)
Definition initDensities (n : nat) (dotInkInk dotInkTarget densities : list num)
  : list num :=
  forRange n (fun i densities =>
    let selfDot := rd dotInkInk (i * n + i) in
    <[ i := guardedRatio (rd dotInkTarget i) selfDot ]> densities)
    densities.

(** The update of coefficient [i] in place, reading the current values of the
    others. *)
Definition updateDensity (n : nat) (dotInkInk dotInkTarget : list num)
    (i : nat) (densities : list num) : list num :=
  let numerator :=
    forRange n (fun j numerator =>
      if decide (j <> i)
      then (numerator - rd densities j * rd dotInkInk (i * n + j))%num
      else numerator)
      (rd dotInkTarget i) in
  let selfDot := rd dotInkInk (i * n + i) in
  <[ i := guardedRatio numerator selfDot ]> densities.

Definition sweep (n : nat) (dotInkInk dotInkTarget densities : list num)
  : list num :=
  forRange n (updateDensity n dotInkInk dotInkTarget) densities.

Definition refine (n : nat) (dotInkInk dotInkTarget densities : list num)
  : list num :=
  forRange MAX_ITER (fun _ => sweep n dotInkInk dotInkTarget) densities.

(** [maps[i][p] = v]; the maps are [Float32Array]s, so the cell holds the
    binary32 number nearest to [v]. *)
Definition setCell (maps : list (list num)) (i p : nat) (v : num)
  : list (list num) :=
  alter (fun m => <[ p := fround v ]> m) i maps.

(** [dotInkTarget]: the dot product of every ink with the target. *)
Definition dotInkTargets (n : nat) (inkDeltas : list vec3) (t : vec3)
  : list num :=
  forRange n (fun i a => <[ i := dot3 (rdVec inkDeltas i) t ]> a)
           (newFloatArray n).

(** The solve of one pixel whose alpha is not below 0.01: the content of
    [densities] once the sweeps are over. *)
Definition solvePixel (data : list Z) (paper : RGB) (n : nat)
    (inkDeltas : list vec3) (dotInkInk : list num) (p : nat)
    (densities : list num) : list num :=
  let off := p * 4 in
  let alpha := (rdByte data (off + 3) / ofZ 255)%num in
  let t := pixelTarget data paper off alpha in
  let dotInkTarget := dotInkTargets n inkDeltas t in
  let densities := initDensities n dotInkInk dotInkTarget densities in
  refine n dotInkInk dotInkTarget densities.

(** The body of the loop over the pixels.  The state is the pair of the maps
    and of the scratch array [densities], which is allocated once and shared
    by all the pixels. *)
Definition decomposePixel (data : list Z) (paper : RGB) (n : nat)
    (inkDeltas : list vec3) (dotInkInk : list num) (p : nat)
    (st : list (list num) * list num) : list (list num) * list num :=
  let '(maps, densities) := st in
  let off := p * 4 in
  let alpha := (rdByte data (off + 3) / ofZ 255)%num in
  if (alpha <? lit (1 # 100))%num
  then (forRange n (fun i maps => setCell maps i p (ofZ 0)) maps, densities)
  else
    let densities :=
      solvePixel data paper n inkDeltas dotInkInk p densities in
    (forRange n (fun i maps => setCell maps i p (rd densities i)) maps,
     densities).

Definition decomposeColors (imageData : ImageData) (inkRgbs : list RGB)
    (paper : RGB) : list (list num) :=
  let n := length inkRgbs in
  let pixelCount := width imageData * height imageData in
  let inkDeltas := map (inkDelta paper) inkRgbs in
  let dotInkInk := dotInkInkTable inkDeltas in
  let maps := map (fun _ => newFloatArray pixelCount) inkRgbs in
  let densities := newFloatArray n in
  (forRange pixelCount
     (decomposePixel (data imageData) paper n inkDeltas dotInkInk)
     (maps, densities)).1.

(** ** Compositing *)

(** The starved-ink mask of one layer, written into [halftoneMap] in place. *)
Definition applyScuff (noise dotSize : num) (ci width height : nat)
    (halftoneMap : list num) : list num :=
  if (noise >? ofZ 0)%num
  then
    let scuffSize := JS.max (dotSize * ofZ 3)%num (ofZ 6) in
    let seed := (ofNat ci * ofZ 7919 + ofZ 31)%num in
    forRange (width * height) (fun i halftoneMap =>
      if (rd halftoneMap i <? lit (4 # 1000))%num then halftoneMap
      else
        let px := ofNat (i mod width) in
        let py := ofZ (toInt32 (ofNat i / ofNat width)%num) in
        let n := smoothNoise px py scuffSize seed in
        if (n <? noise)%num then <[ i := ofZ 0 ]> halftoneMap
        else halftoneMap)
      halftoneMap
  else halftoneMap.

(** [1 - opacity * f * (1 - channel / 255)] *)
Definition transmittance (opacity f : num) (channel : Z) : num :=
  (ofZ 1 - opacity * f * (ofZ 1 - ofZ channel / ofZ 255))%num.

(** The new value of one channel cell: [Math.round(prev * t)], stored in the
    [Uint8ClampedArray]. *)
Definition blendChannel (prev t : num) : Z :=
  toUint8Clamped (round (prev * t)%num).

Section Pipeline.

Variables Math_cos Math_sin Math_sqrt : num -> num.
Variable Math_PI : num.

(** [Math.random]: the value of the [k]-th draw of the render. *)
Variable Math_random : nat -> Q.

(** One registration offset; a draw is made only when [misregistration > 0]. *)
Definition registrationOffset (misregistration : num) (k : nat) : num * nat :=
  if (misregistration >? ofZ 0)%num
  then (round ((Fin (Math_random k) - lit (1 # 2)) * ofZ 2
               * misregistration)%num, S k)
  else (ofZ 0, k).

(** The grain of one pixel; a draw is made only when [grain > 0]. *)
Definition applyGrain (grain opacity : num) (k : nat) : num * nat :=
  if (grain >? ofZ 0)%num
  then (JS.max (ofZ 0)
          (JS.min (ofZ 1)
             (opacity + (Fin (Math_random k) - lit (1 # 2)) * grain)%num),
        S k)
  else (opacity, k).

(** The three writes of one pixel, for an opacity of at least 0.004. *)
Definition depositInk (rgb : RGB) (f opacity : num) (dstOff : nat)
    (out : list Z) : list Z :=
  let prevR := rdByte out dstOff in
  let prevG := rdByte out (dstOff + 1) in
  let prevB := rdByte out (dstOff + 2) in
  let tR := transmittance opacity f (r rgb) in
  let tG := transmittance opacity f (g rgb) in
  let tB := transmittance opacity f (b rgb) in
  <[ dstOff + 2 := blendChannel prevB tB ]>
    (<[ dstOff + 1 := blendChannel prevG tG ]>
       (<[ dstOff := blendChannel prevR tR ]> out)).

(** The opacity that the shifted layer has at pixel [(x, y)]; none where the
    shifted source falls outside the bitmap. *)
Definition shiftedOpacity (halftoneMap : list num) (width height : nat)
    (ox oy : num) (y x : nat) : option num :=
  let srcX := (ofNat x - ox)%num in
  let srcY := (ofNat y - oy)%num in
  if (srcX <? ofZ 0)%num || (srcX >=? ofNat width)%num
     || (srcY <? ofZ 0)%num || (srcY >=? ofNat height)%num
  then None
  else Some (rdAt halftoneMap (srcY * ofNat width + srcX)%num).

(** The body of the loop over [x], inside the loop over [y].  The state is
    the output buffer and the number of draws made so far. *)
Definition compositePixel (rgb : RGB) (f grain : num) (halftoneMap : list num)
    (width height : nat) (ox oy : num) (y x : nat) (st : list Z * nat)
  : list Z * nat :=
  let '(out, k) := st in
  match shiftedOpacity halftoneMap width height ox oy y x with
  | None => (out, k)
  | Some opacity =>
      let '(opacity, k) := applyGrain grain opacity k in
      if (opacity <? lit (4 # 1000))%num then (out, k)
      else (depositInk rgb f opacity ((y * width + x) * 4) out, k)
  end.

Definition compositeLayer (rgb : RGB) (f grain : num) (halftoneMap : list num)
    (width height : nat) (ox oy : num) (st : list Z * nat) : list Z * nat :=
  forRange height (fun y =>
    forRange width (fun x =>
      compositePixel rgb f grain halftoneMap width height ox oy y x))
    st.

(** [ctx.createImageData(width, height)]: the canvas raises [IndexSizeError]
    when the width or the height is 0, and otherwise allocates
    [width * height * 4] bytes holding 0. *)
Definition createImageData (width height : nat) : Completion (list Z) :=
  if (width =? 0) || (height =? 0) then Throw IndexSizeError
  else Normal (replicate (width * height * 4) 0%Z).

(** The loop that fills the output buffer with the paper colour. *)
Definition paintPaper (paper : RGB) (width height : nat) (out : list Z)
  : list Z :=
  forRange (width * height) (fun i out =>
    let off := i * 4 in
    <[ off + 3 := toUint8Clamped (ofZ 255) ]>
      (<[ off + 2 := toUint8Clamped (ofZ (b paper)) ]>
         (<[ off + 1 := toUint8Clamped (ofZ (g paper)) ]>
            (<[ off := toUint8Clamped (ofZ (r paper)) ]> out))))
    out.

(** The output buffer of a bitmap that has an area, once it is filled with
    the paper colour. *)
Definition paperBuffer (paper : RGB) (width height : nat) : list Z :=
  paintPaper paper width height (replicate (width * height * 4) 0%Z).

(** One turn of the loop over the inks. *)
Definition inkLayer (options : RisographOptions) (inkRgbs : list RGB)
    (densityMaps : list (list num)) (width height : nat) (ci : nat)
    (st : list Z * nat) : list Z * nat :=
  let '(out, k) := st in
  let rgb := default (mkRGB 0 0 0) (inkRgbs !! ci) in
  let angle :=
    match colors options !! ci with
    | Some {| rc_angle := Some a |} => a
    | _ => rd DEFAULT_ANGLES (ci mod length DEFAULT_ANGLES)
    end in
  let halftoneMap :=
    applyHalftone Math_cos Math_sin Math_sqrt Math_PI
      (default [] (densityMaps !! ci)) width height
      (mkHalftoneOptions (ro_dotSize options) angle (ro_density options)
                         (halftoneMode options)) in
  let halftoneMap :=
    applyScuff (default (ofZ 0) (noise options)) (ro_dotSize options)
               ci width height halftoneMap in
  let '(ox, k) := registrationOffset (misregistration options) k in
  let '(oy, k) := registrationOffset (misregistration options) k in
  compositeLayer rgb (default (lit (85 # 100)) (inkOpacity options))
                 (grain options) halftoneMap width height ox oy (out, k).

(** The bitmap put on the canvas, and how the call completes: the
    decomposition comes first, the output buffer is asked of the canvas
    after it. *)
Definition processRisograph (sourceData : ImageData)
    (options : RisographOptions) : Completion ImageData :=
  let width := width sourceData in
  let height := height sourceData in
  let paper := default DEFAULT_PAPER (paperColor options) in
  let inkRgbs := map color (colors options) in
  let WHITE := mkRGB 255 255 255 in
  let densityMaps := decomposeColors sourceData inkRgbs WHITE in
  match createImageData width height with
  | Throw e => Throw e
  | Normal out =>
      let out := paintPaper paper width height out in
      let '(out, _) :=
        forRange (length (colors options))
          (inkLayer options inkRgbs densityMaps width height) (out, 0) in
      Normal (mkImageData out width height)
  end.

End Pipeline.

End Program.

(** * Predicates and specifications *)

(** ** Finite numbers, the unit interval, bytes *)

Definition isFin (x : num) : Prop := exists q, x = Fin q.

Definition in01 (x : num) : Prop :=
  exists q, x = Fin q /\ (0 <= q <= 1)%Q.

Definition finVec (v : vec3) : Prop :=
  isFin v.1.1 /\ isFin v.1.2 /\ isFin v.2.

Definition isByte (z : Z) : Prop := (0 <= z <= 255)%Z.

Definition validRGB (c : RGB) : Prop :=
  isByte (r c) /\ isByte (g c) /\ isByte (b c).

(** The integers 0 and 1 as rationals, for [lra]. *)
Ltac qlit :=
  change (inject_Z 0) with 0%Q in *;
  change (inject_Z 1) with 1%Q in *.

(** ** The cells of the density maps *)

(** The straight alpha of pixel [p] is below 0.01. *)
Definition alphaLow {R : Rounding} (data : list Z) (p : nat) : bool :=
  (rdByte data (p * 4 + 3) / ofZ 255 <? lit (1 # 100))%num.

(** What [decomposeColors] stores for ink [i] at pixel [p]. *)
Definition densityCell {R : Rounding} (data : list Z) (paper : RGB)
    (inkRgbs : list RGB) (i p : nat) : num :=
  let n := length inkRgbs in
  let inkDeltas := map (inkDelta paper) inkRgbs in
  fround
    (if alphaLow data p then ofZ 0
     else rd (solvePixel data paper n inkDeltas (dotInkInkTable inkDeltas) p
                (newFloatArray n)) i).

(** ** The solver, in the words of the specification *)

(** The one-ink projection in the words of the specification:
    [clamp(dot(target, absorption) / dot(absorption, absorption), 0, 1)]. *)
Definition projectionSpec {R : Rounding} (target absorption : vec3) : num :=
  clamp01 (dot3 target absorption / dot3 absorption absorption)%num.

Module Spec.

Section Solver.

Context {R : Rounding}.

(** The absorption vectors [a_i] of the inks and the target [t] of the
    pixel. *)
Variable absorption : list vec3.
Variable target : vec3.

(** [G_ij = a_i . a_j] and [b_i = a_i . t]. *)
Definition G (i j : nat) : num :=
  dot3 (rdVec absorption i) (rdVec absorption j).

Definition bvec (i : nat) : num := dot3 (rdVec absorption i) target.

(** [G_ii] is about 0: it does not exceed 1e-10. *)
Definition nearZero (x : num) : bool :=
  negb (x >? lit (1 # 10000000000))%num.

(** [d_i = clamp(b_i / G_ii, 0, 1)], and 0 where [G_ii] is about 0. *)
Definition initial : list num :=
  (fun i => if nearZero (G i i) then ofZ 0
            else clamp01 (bvec i / G i i)%num)
    <$> seq 0 (length absorption).

(** [b_i] less the [d_j * G_ij] of the [j] other than [i], which are taken
    off one after the other in the order of the inks. *)
Definition residual (i : nat) (d : list num) : num :=
  foldl (fun acc j => (acc - rd d j * G i j)%num) (bvec i)
        (filter (fun j => j <> i) (seq 0 (length absorption))).

(** The update of [d_i] as the specification words it:
    [clamp((b_i - sum) / G_ii, 0, 1)]. *)
Definition update (i : nat) (d : list num) : list num :=
  <[ i := clamp01 (residual i d / G i i)%num ]> d.

(** The same update under the guard of the first guess: [d_i] is 0 where
    [G_ii] is about 0. *)
Definition guardedUpdate (i : nat) (d : list num) : list num :=
  <[ i := if nearZero (G i i) then ofZ 0
          else clamp01 (residual i d / G i i)%num ]> d.

(** One Gauss-Seidel sweep of an update: the coefficients in turn, each
    update seeing the ones before it; and twelve sweeps from the first guess,
    whatever they do. *)
Definition sweep (upd : nat -> list num -> list num) (d : list num)
  : list num :=
  foldl (fun d i => upd i d) d (seq 0 (length absorption)).

Definition solve (upd : nat -> list num -> list num) : list num :=
  Nat.iter 12 (sweep upd) initial.

End Solver.

(** ** The FM screen, in the words of the specification *)

Section Screen.

Context {R : Rounding}.

Variable Math_sqrt : num -> num.

(** The size of a cell, the radius of a dot and the half-width of its
    antialiased rim. *)
Variables cell radius edge : num.

(** The rotation of the screen, the density scale and the density map. *)
Variables cos sin scale : num.
Variable densityMap : list num.
Variables width height : nat.

(** The centre, along one axis of the rotated space, of the cells of
    index [c]. *)
Definition dotCentre (c : num) : num := ((c + lit (1 # 2)) * cell)%num.

(** The density under the dot of cell [(cx, cy)]: the centre of the dot is
    mapped back to the image and rounded to a pixel, whose density is read (0
    outside the bitmap), scaled and capped at 1. *)
Definition dotDensity (cx cy : num) : num :=
  let imgX := round (dotCentre cx * cos - dotCentre cy * sin)%num in
  let imgY := round (dotCentre cx * sin + dotCentre cy * cos)%num in
  let d :=
    if (imgX >=? ofZ 0)%num && (imgX <? ofNat width)%num
       && (imgY >=? ofZ 0)%num && (imgY <? ofNat height)%num
    then rdAt densityMap (imgY * ofNat width + imgX)%num
    else ofZ 0 in
  JS.min (d * scale)%num (ofZ 1).

(** The cell hosts a dot when its density exceeds its threshold, the hash of
    its coordinates. *)
Definition dotExists (cx cy : num) : bool :=
  negb (dotDensity cx cy <=? cellHash cx cy)%num.

(** What the dot of cell [(cx, cy)] adds at the point [(rx, ry)] of the
    rotated space: nothing farther than [radius + edge] from its centre or
    when the cell has no dot; 1 nearer than [radius - edge]; the linear ramp
    across the rim between the two. *)
Definition dotContribution (rx ry cx cy : num) : option num :=
  let distX := (rx - dotCentre cx)%num in
  let distY := (ry - dotCentre cy)%num in
  let dist := Math_sqrt (distX * distX + distY * distY)%num in
  if (dist >? radius + edge)%num then None
  else if dotExists cx cy
       then Some (if (dist <? radius - edge)%num then ofZ 1
                  else (ofZ 1 - (dist - (radius - edge)) / (ofZ 2 * edge))%num)
       else None.

(** The home cell of a point and its eight neighbours, row by row. *)
Definition neighbours (gx gy : num) : list (num * num) :=
  concat (map (fun dy =>
                 map (fun dx => ((gx + ofZ dx)%num, (gy + ofZ dy)%num))
                     [-1; 0; 1]%Z)
              [-1; 0; 1]%Z).

(** The opacity at a point: the largest contribution of the nine dots. *)
Definition fmOpacity (rx ry : num) : num :=
  let gx := floor (rx / cell) in
  let gy := floor (ry / cell) in
  foldl (fun m c => match dotContribution rx ry c.1 c.2 with
                    | Some o => JS.max m o
                    | None => m
                    end)
        (ofZ 0) (neighbours gx gy).

End Screen.

End Spec.

(** ** The effect of a layer on the output buffer *)

(** A property of the buffer that the three writes of a pixel keep. *)
Definition keptByDeposit {R : Rounding} (P : list Z -> Prop) : Prop :=
  forall rgb f opacity q out, P out -> P (depositInk rgb f opacity (q * 4) out).

(** [round(prev * (1 - opacity * f * (1 - ink / 255)))], as the byte cell
    keeps it. *)
Definition blendSpec {R : Rounding} (prev : Z) (opacity f : num) (ink : Z)
  : Z :=
  toUint8Clamped
    (round (ofZ prev
            * (ofZ 1 - opacity * f * (ofZ 1 - ofZ ink / ofZ 255)))%num).

(** The three colour cells of pixel [p] are the same in both buffers. *)
Definition sameRGB (before after : list Z) (p : nat) : Prop :=
  after !! (p * 4) = before !! (p * 4)
  /\ after !! (p * 4 + 1) = before !! (p * 4 + 1)
  /\ after !! (p * 4 + 2) = before !! (p * 4 + 2).

(** The three colour cells of pixel [p] went through the blend of the
    formula, for the opacity [opacity] and the ink [rgb]. *)
Definition blended {R : Rounding} (rgb : RGB) (f opacity : num)
    (before after : list Z) (p : nat) : Prop :=
  exists prevR prevG prevB,
    before !! (p * 4) = Some prevR
    /\ before !! (p * 4 + 1) = Some prevG
    /\ before !! (p * 4 + 2) = Some prevB
    /\ after !! (p * 4) = Some (blendSpec prevR opacity f (r rgb))
    /\ after !! (p * 4 + 1) = Some (blendSpec prevG opacity f (g rgb))
    /\ after !! (p * 4 + 2) = Some (blendSpec prevB opacity f (b rgb)).

(** What one layer does to pixel [(x, y)]: nothing where the shifted source
    is outside the bitmap; otherwise, for the opacity that the grain leaves
    at the draw reached by then, nothing below 0.004 and the blend
    otherwise. *)
Definition pixelEffect {R : Rounding} (Math_random : nat -> Q) (rgb : RGB)
    (f grain : num) (halftoneMap : list num) (w h : nat) (ox oy : num)
    (before after : list Z) (y x : nat) : Prop :=
  match shiftedOpacity halftoneMap w h ox oy y x with
  | None => sameRGB before after (y * w + x)
  | Some shifted =>
      exists k,
        let opacity := (applyGrain Math_random grain shifted k).1 in
        if (opacity <? lit (4 # 1000))%num
        then sameRGB before after (y * w + x)
        else blended rgb f opacity before after (y * w + x)
  end.

(** The state of the two loops of a layer once the pixels before number [c],
    in row-major order, are done: [out] is the buffer before the layer. *)
Definition layerInv {R : Rounding} (Math_random : nat -> Q) (rgb : RGB)
    (f grain : num) (halftoneMap : list num) (w h : nat) (ox oy : num)
    (out : list Z) (c : nat) (st : list Z * nat) : Prop :=
  length st.1 = w * h * 4
  /\ (forall p, st.1 !! (p * 4 + 3) = out !! (p * 4 + 3))
  /\ forall x y, x < w -> y < h ->
       (y * w + x < c ->
        pixelEffect Math_random rgb f grain halftoneMap w h ox oy out st.1
                    y x)
       /\ (c <= y * w + x -> sameRGB out st.1 (y * w + x)).

(** ** Sample inputs *)

Module Sample.

Definition white : RGB := mkRGB 255 255 255.
Definition black : RGB := mkRGB 0 0 0.
Definition cyan : RGB := mkRGB 0 255 255.

(** One opaque black pixel. *)
Definition blackPixel : ImageData := mkImageData [0; 0; 0; 255]%Z 1 1.

(** Black, white, half-transparent cyan and fully transparent pixels. *)
Definition fourPixels : ImageData :=
  mkImageData [0; 0; 0; 255; 255; 255; 255; 255;
               0; 255; 255; 128; 10; 20; 30; 0]%Z 2 2.

(** The target of the only pixel of [blackPixel], against white. *)
Definition blackTarget {R : Rounding} : vec3 :=
  pixelTarget (data blackPixel) white 0
              (rdByte (data blackPixel) 3 / ofZ 255)%num.

(** An ink with the explicit screen angle 0. *)
Definition inkAt0 (c : RGB) : RisographColor :=
  mkRisographColor [] c (Some (ofZ 0)).

(** Options with neither misregistration nor grain nor noise, and the
    defaults for the rest. *)
Definition plainOptions (inks : list RisographColor) (dotSize : num)
    (mode : option HalftoneMode) : RisographOptions :=
  mkRisographOptions inks dotSize (ofZ 0) (ofZ 0) None None None mode None.

Definition whitePixel : ImageData := mkImageData [255; 255; 255; 255]%Z 1 1.



End Sample.

(** ** A platform to run the examples on *)

(** Rational stand-ins for [Math.cos], [Math.sin], [Math.sqrt] and
    [Math.PI]: truncated series, exact at 0, for the cosine and the sine; the
    integer square root of the scaled argument, exact on the squares of
    the rationals, for the square root. *)
Module Approx.

Definition PI : num := Fin (355 # 113).

Definition cos (x : num) : num :=
  match x with
  | Fin q => Fin (Qred (1 - q * q / 2 + q * q * q * q / 24))
  | _ => NaN
  end.

Definition sin (x : num) : num :=
  match x with
  | Fin q => Fin (Qred (q - q * q * q / 6 + q * q * q * q * q / 120))
  | _ => NaN
  end.

Definition sqrt (x : num) : num :=
  match x with
  | Fin q =>
      if (Qnum q <? 0)%Z then NaN
      else Fin (Qred (Z.sqrt (Qnum q * Zpos (Qden q) * 1000000000000)
                      # (Qden q * 1000000)))
  | PInf => PInf
  | _ => NaN
  end.

(** [Math.random] stuck at one value. *)
Definition constant (q : Q) : nat -> Q := fun _ => q.

Definition render {R : Rounding} (random : nat -> Q) (sourceData : ImageData)
    (options : RisographOptions) : Completion ImageData :=
  processRisograph cos sin sqrt PI random sourceData options.

End Approx.

(** ** Further predicates *)

(** A finite number of the half-open interval [0, 1). *)
Definition inUnit (x : num) : Prop :=
  exists q, x = Fin q /\ (0 <= q < 1)%Q.

(** A number that is neither negative nor minus infinity: a rational that is
    not negative, plus infinity, or [NaN]. *)
Definition notNegative (x : num) : Prop :=
  match x with
  | Fin q => (0 <= q)%Q
  | NInf => False
  | _ => True
  end.

(** No cell of [after] holds more than the same cell of [before]. *)
Definition noBrighter (before after : list Z) : Prop :=
  length after = length before
  /\ forall i v u, after !! i = Some v -> before !! i = Some u -> (v <= u)%Z.

(** An optional number that is left out, or finite and not negative. *)
Definition absentOrNotNegative (density : option num) : Prop :=
  match density with
  | None => True
  | Some x => exists s, x = Fin s /\ (0 <= s)%Q
  end.

(** The three colour bytes of pixel [p] are those of the colour [c]. *)
Definition pixelHasColor (data : list Z) (p : nat) (c : RGB) : Prop :=
  data !! (p * 4) = Some (r c)
  /\ data !! (p * 4 + 1) = Some (g c)
  /\ data !! (p * 4 + 2) = Some (b c).

(** A number that is at most [bound] when it is finite, and is not plus
    infinity. *)
Definition atMost (bound : Q) (x : num) : Prop :=
  match x with
  | Fin q => (q <= bound)%Q
  | PInf => False
  | _ => True
  end.

(** A buffer of bytes, none above the same cell of [base]. *)
Definition darkened (base cur : list Z) : Prop :=
  Forall isByte cur /\ noBrighter base cur.

(** A pixel that asks for no ink: its alpha is below 0.01, or it has the
    colour of the reference white of the decomposition. *)
Definition blankPixel {R : Rounding} (data : list Z) (p : nat) : Prop :=
  alphaLow data p = true \/ pixelHasColor data p (mkRGB 255 255 255).

(** ** Two arithmetics *)

(** Exact arithmetic: nothing is rounded, the result of an operation is the
    exact rational, kept in lowest terms.  It is the arithmetic of every
    statement below that does not name another. *)
#[global] Instance exactArithmetic : Rounding := {| fl q := Fin (Qred q) |}.

(** The arithmetic of the platform: a result is rounded to the nearest
    binary64 number. *)
Definition binary64 : Rounding := {| fl := nearest 53 (-1074) 1024 |}.

(** The decimal literals of the goal, in exact arithmetic. *)
Ltac exact_lit :=
  try unfold lit; cbn [fl exactArithmetic];
  repeat match goal with
         | |- context [Qred (?n # ?d)] =>
             let v := eval vm_compute in (Qred (n # d)) in
             change (Qred (n # d)) with v
         end.

(** * Properties *)

(** ** Loops *)

Lemma forRange_0 {S : Type} (body : nat -> S -> S) (s : S) :
  forRange 0 body s = s.
Proof. reflexivity. Qed.

Lemma forRange_S {S : Type} (n : nat) (body : nat -> S -> S) (s : S) :
  forRange (Datatypes.S n) body s = body n (forRange n body s).
Proof.
  unfold forRange. rewrite seq_S, foldl_app. reflexivity.
Qed.

(** The invariant rule of a counted loop. *)
Lemma forRange_inv {S : Type} (P : nat -> S -> Prop) (n : nat)
    (body : nat -> S -> S) (s : S) :
  P 0 s ->
  (forall i s, i < n -> P i s -> P (Datatypes.S i) (body i s)) ->
  P n (forRange n body s).
Proof.
  intros H0 Hstep.
  assert (forall k, k <= n -> P k (forRange k body s)) as Hk.
  { induction k as [|k IH]; intros Hle.
    - exact H0.
    - rewrite forRange_S. apply Hstep; [lia | apply IH; lia]. }
  apply Hk. lia.
Qed.

Lemma forRange_ext {S : Type} (n : nat) (f h : nat -> S -> S) (s : S) :
  (forall i s, i < n -> f i s = h i s) ->
  forRange n f s = forRange n h s.
Proof.
  intros Hfh. induction n as [|n IH]; [reflexivity|].
  rewrite !forRange_S, IH by (intros; apply Hfh; lia).
  apply Hfh. lia.
Qed.

Lemma forFromTo_inv {S : Type} (P : nat -> S -> Prop) (lo hi : nat)
    (body : nat -> S -> S) (s : S) :
  lo <= hi ->
  P lo s ->
  (forall i s, lo <= i < hi -> P i s -> P (Datatypes.S i) (body i s)) ->
  P hi (forFromTo lo hi body s).
Proof.
  intros Hle H0 Hstep. unfold forFromTo.
  assert (forall k, lo + k <= hi ->
            P (lo + k) (foldl (fun s i => body i s) s (seq lo k))) as Hk.
  { induction k as [|k IH]; intros Hk.
    - rewrite Nat.add_0_r. exact H0.
    - rewrite seq_S, foldl_app. simpl.
      replace (lo + Datatypes.S k) with (Datatypes.S (lo + k)) by lia.
      apply Hstep; [lia | apply IH; lia]. }
  replace hi with (lo + (hi - lo)) at 1 by lia.
  apply Hk. lia.
Qed.

(** ** Finite numbers and the unit interval *)

Lemma in01_isFin x : in01 x -> isFin x.
Proof. intros (q & -> & _). by exists q. Qed.

Lemma isFin_ofZ z : isFin (ofZ z).
Proof. by eexists. Qed.

Lemma isFin_add x y : isFin x -> isFin y -> isFin (x + y)%num.
Proof. intros [a ->] [c ->]. by eexists. Qed.

Lemma isFin_neg x : isFin x -> isFin (- x)%num.
Proof. intros [a ->]. by eexists. Qed.

Lemma isFin_sub x y : isFin x -> isFin y -> isFin (x - y)%num.
Proof. intros Hx Hy. apply isFin_add; [done | by apply isFin_neg]. Qed.

Lemma isFin_mul x y : isFin x -> isFin y -> isFin (x * y)%num.
Proof. intros [a ->] [c ->]. by eexists. Qed.

Lemma div_Fin a c :
  ~ (c == 0)%Q -> (Fin a / Fin c)%num = Fin (Qred (a / c)).
Proof.
  intros Hc. unfold JS.div.
  destruct (Z.eqb_spec (Qnum c) 0) as [H0|]; [|reflexivity].
  exfalso. apply Hc. unfold Qeq. simpl. lia.
Qed.

Lemma isFin_div_ofZ x z : isFin x -> z <> 0%Z -> isFin (x / ofZ z)%num.
Proof.
  intros [a ->] Hz. unfold ofZ. rewrite div_Fin; [by eexists|].
  unfold Qeq, inject_Z. simpl. lia.
Qed.

Lemma ltb_Fin a c : (Fin a <? Fin c)%num = true <-> (a < c)%Q.
Proof.
  unfold JS.ltb. rewrite negb_true_iff.
  split.
  - intros H. apply Qnot_le_lt. intros Hle.
    apply Qle_bool_iff in Hle. congruence.
  - intros H. destruct (Qle_bool c a) eqn:E; [|reflexivity].
    apply Qle_bool_iff in E. exfalso. eapply Qlt_not_le; eauto.
Qed.

Lemma ltb_Fin_false a c : (Fin a <? Fin c)%num = false <-> (c <= a)%Q.
Proof.
  unfold JS.ltb. rewrite negb_false_iff. apply Qle_bool_iff.
Qed.

Lemma min_Fin a c :
  JS.min (Fin a) (Fin c) = if (Fin c <? Fin a)%num then Fin c else Fin a.
Proof. reflexivity. Qed.

Lemma max_Fin a c :
  JS.max (Fin a) (Fin c) = if (Fin a <? Fin c)%num then Fin c else Fin a.
Proof. reflexivity. Qed.

Lemma clamp01_Fin v : in01 (clamp01 (Fin v)).
Proof.
  unfold clamp01, ofZ. rewrite min_Fin.
  destruct (Fin v <? Fin (inject_Z 1))%num eqn:E1; rewrite max_Fin.
  - apply ltb_Fin in E1.
    destruct (Fin (inject_Z 0) <? Fin v)%num eqn:E2.
    + apply ltb_Fin in E2. exists v. split; [done|]. qlit. lra.
    + exists 0%Q. split; [done|]. lra.
  - exists 1%Q. split; [|lra].
    destruct (Fin (inject_Z 0) <? Fin (inject_Z 1))%num eqn:E2; [done|].
    apply ltb_Fin_false in E2. qlit. lra.
Qed.

Lemma guardedRatio_in01 numerator selfDot :
  isFin numerator -> isFin selfDot -> in01 (guardedRatio numerator selfDot).
Proof.
  intros [a ->] [s ->]. unfold guardedRatio, JS.gtb. exact_lit.
  destruct (Fin (1 # 10000000000) <? Fin s)%num eqn:E.
  - apply ltb_Fin in E. rewrite div_Fin.
    + apply clamp01_Fin.
    + intros H0. rewrite H0 in E. lra.
  - exists 0%Q. split; [done|]. lra.
Qed.

(** ** Arrays *)

Lemma rd_Forall (P : num -> Prop) (a : list num) (i : nat) :
  Forall P a -> i < length a -> P (rd a i).
Proof.
  intros Ha Hi. unfold rd.
  destruct (lookup_lt_is_Some_2 a i Hi) as [x Hx]. rewrite Hx. simpl.
  eapply Forall_lookup_1; eauto.
Qed.

Lemma rd_lookup (a : list num) (i : nat) (x : num) :
  a !! i = Some x -> rd a i = x.
Proof. intros H. unfold rd. by rewrite H. Qed.

Lemma newFloatArray_length n : length (newFloatArray n) = n.
Proof. apply length_replicate. Qed.

Lemma newFloatArray_Forall (P : num -> Prop) n :
  P (Fin 0) -> Forall P (newFloatArray n).
Proof. intros H. apply Forall_replicate. exact H. Qed.

(** A loop that stores into cell [i] at turn [i] keeps the length, keeps every
    property that the stored values have, and leaves the cells from [n] on
    alone. *)
Lemma fill_length (n : nat) (f : nat -> list num -> num) (a : list num) :
  length (forRange n (fun i a => <[ i := f i a ]> a) a) = length a.
Proof.
  apply (forRange_inv (fun _ a' => length a' = length a)); [done|].
  intros i a' _ H. by rewrite length_insert.
Qed.

Lemma fill_Forall (P : num -> Prop) (n : nat) (f : nat -> list num -> num)
    (a : list num) :
  Forall P a ->
  (forall i a', i < n -> length a' = length a -> Forall P a' -> P (f i a')) ->
  Forall P (forRange n (fun i a => <[ i := f i a ]> a) a).
Proof.
  intros Ha Hf.
  apply (forRange_inv
           (fun _ a' => length a' = length a /\ Forall P a')); [done|].
  intros i a' Hi [Hlen HP]. split.
  - by rewrite length_insert.
  - apply Forall_insert; [done|]. by apply Hf.
Qed.

(** When the stored value does not depend on the array, the loop tabulates
    it. *)
Lemma fill_lookup (n : nat) (f : nat -> num) (a : list num) (i : nat) :
  i < n -> n <= length a ->
  forRange n (fun i a => <[ i := f i ]> a) a !! i = Some (f i).
Proof.
  intros Hi Hn.
  assert (forall k, k <= n ->
            forall j, j < k ->
              forRange k (fun i a => <[ i := f i ]> a) a !! j = Some (f j))
    as Hk.
  { induction k as [|k IH]; intros Hk j Hj; [lia|].
    rewrite forRange_S.
    destruct (decide (j = k)) as [->|Hne].
    - apply list_lookup_insert_eq. rewrite fill_length. lia.
    - rewrite list_lookup_insert_ne by done. apply IH; lia. }
  by apply (Hk n).
Qed.

(** A loop that stores into every cell of the array leaves only stored
    values behind. *)
Lemma fill_overwrites (P : num -> Prop) (n : nat) (f : nat -> list num -> num)
    (a : list num) :
  length a = n ->
  (forall i a', i < n -> length a' = n -> P (f i a')) ->
  Forall P (forRange n (fun i a => <[ i := f i a ]> a) a).
Proof.
  intros Hlen Hf.
  assert (forall k, k <= n ->
            let a' := forRange k (fun i a => <[ i := f i a ]> a) a in
            length a' = n /\ Forall P (take k a')) as Hk.
  { induction k as [|k IH]; intros Hk; simpl.
    - split; [done|]. rewrite take_0. constructor.
    - rewrite forRange_S. destruct (IH ltac:(lia)) as [Hl HP].
      split; [by rewrite length_insert|].
      apply Forall_lookup_2. intros j x Hj.
      apply lookup_take_Some in Hj as [Hj Hjk].
      destruct (decide (j = k)) as [->|Hne].
      + rewrite list_lookup_insert_eq in Hj by lia.
        inversion Hj; subst. apply Hf; [lia | done].
      + rewrite list_lookup_insert_ne in Hj by done.
        eapply Forall_lookup_1; [exact HP|].
        apply lookup_take_Some. split; [done | lia]. }
  destruct (Hk n ltac:(lia)) as [Hl HP].
  rewrite firstn_all2 in HP by lia. exact HP.
Qed.

(** ** Colour decomposition: densities are finite and in the unit interval *)

Lemma dot3_isFin u v : finVec u -> finVec v -> isFin (dot3 u v).
Proof.
  intros (?&?&?) (?&?&?). unfold dot3.
  repeat first [apply isFin_add | apply isFin_mul]; assumption.
Qed.

Lemma inkDelta_finVec paper ink : finVec (inkDelta paper ink).
Proof.
  unfold inkDelta, finVec. simpl.
  repeat split; apply isFin_div_ofZ; try lia;
    apply isFin_sub; apply isFin_ofZ.
Qed.

Lemma rdVec_finVec (a : list vec3) (i : nat) :
  Forall finVec a -> i < length a -> finVec (rdVec a i).
Proof.
  intros Ha Hi. unfold rdVec.
  destruct (a !! i) as [x|] eqn:Hx; simpl.
  - eapply Forall_lookup_1; eauto.
  - apply lookup_ge_None in Hx. lia.
Qed.

Lemma dotInkInkTable_shape (inkDeltas : list vec3) :
  Forall finVec inkDeltas ->
  length (dotInkInkTable inkDeltas) = length inkDeltas * length inkDeltas
  /\ Forall isFin (dotInkInkTable inkDeltas).
Proof.
  intros Hd. unfold dotInkInkTable.
  set (n := length inkDeltas).
  apply (forRange_inv
           (fun _ g => length g = n * n /\ Forall isFin g)).
  - split; [apply newFloatArray_length|].
    apply newFloatArray_Forall. by eexists.
  - intros i g0 Hi Hg0.
    destruct (decide (i <= n)) as [Hle|]; [|lia].
    apply (forFromTo_inv
             (fun _ g => length g = n * n /\ Forall isFin g) i n);
      [lia | exact Hg0 |].
    intros j g1 Hj [Hlen HF]. split.
    + by rewrite !length_insert.
    + assert (isFin (dot3 (rdVec inkDeltas i) (rdVec inkDeltas j))).
      { apply dot3_isFin; apply rdVec_finVec; auto; fold n; lia. }
      repeat apply Forall_insert; assumption.
Qed.

Section DecomposePixel.

Variable n : nat.
Variable dotInkInk : list num.

Hypothesis dotInkInk_length : length dotInkInk = n * n.
Hypothesis dotInkInk_fin : Forall isFin dotInkInk.

Lemma dotInkInk_rd i j : i < n -> j < n -> isFin (rd dotInkInk (i * n + j)).
Proof.
  intros Hi Hj. apply rd_Forall; [done|]. rewrite dotInkInk_length. nia.
Qed.

Lemma initDensities_in01 (dotInkTarget densities : list num) :
  length dotInkTarget = n -> Forall isFin dotInkTarget ->
  length densities = n ->
  length (initDensities n dotInkInk dotInkTarget densities) = n
  /\ Forall in01 (initDensities n dotInkInk dotInkTarget densities).
Proof.
  intros Hlt Hft Hd. unfold initDensities. split.
  - by rewrite (fill_length n
                  (fun i _ => guardedRatio (rd dotInkTarget i)
                                           (rd dotInkInk (i * n + i)))).
  - apply (fill_overwrites in01 n
             (fun i _ => guardedRatio (rd dotInkTarget i)
                                      (rd dotInkInk (i * n + i))));
      [done|].
    intros i a' Hi _. apply guardedRatio_in01.
    + apply rd_Forall; [done | lia].
    + by apply dotInkInk_rd.
Qed.

Lemma updateDensity_in01 (dotInkTarget densities : list num) (i : nat) :
  length dotInkTarget = n -> Forall isFin dotInkTarget ->
  i < n -> length densities = n -> Forall in01 densities ->
  length (updateDensity n dotInkInk dotInkTarget i densities) = n
  /\ Forall in01 (updateDensity n dotInkInk dotInkTarget i densities).
Proof.
  intros Hlt Hft Hi Hd HF. unfold updateDensity. split.
  - by rewrite length_insert.
  - apply Forall_insert; [done|].
    apply guardedRatio_in01; [|by apply dotInkInk_rd].
    apply (forRange_inv (fun _ x => isFin x)).
    + apply rd_Forall; [done | lia].
    + intros j x Hj Hx. destruct (decide (j <> i)); [|done].
      apply isFin_sub; [done|]. apply isFin_mul.
      * apply in01_isFin. apply rd_Forall; [done | lia].
      * by apply dotInkInk_rd.
Qed.

Lemma sweep_in01 (dotInkTarget densities : list num) :
  length dotInkTarget = n -> Forall isFin dotInkTarget ->
  length densities = n -> Forall in01 densities ->
  length (sweep n dotInkInk dotInkTarget densities) = n
  /\ Forall in01 (sweep n dotInkInk dotInkTarget densities).
Proof.
  intros Hlt Hft Hd HF. unfold sweep.
  apply (forRange_inv (fun _ d => length d = n /\ Forall in01 d)); [done|].
  intros i d Hi [Hl HFd]. by apply updateDensity_in01.
Qed.

Lemma refine_in01 (dotInkTarget densities : list num) :
  length dotInkTarget = n -> Forall isFin dotInkTarget ->
  length densities = n -> Forall in01 densities ->
  length (refine n dotInkInk dotInkTarget densities) = n
  /\ Forall in01 (refine n dotInkInk dotInkTarget densities).
Proof.
  intros Hlt Hft Hd HF. unfold refine.
  apply (forRange_inv (fun _ d => length d = n /\ Forall in01 d)); [done|].
  intros i d Hi [Hl HFd]. by apply sweep_in01.
Qed.

End DecomposePixel.

(** The loop that stores one value per ink at pixel [p]. *)
Lemma setCells_length (n p : nat) (v : nat -> num) (maps : list (list num)) :
  length (forRange n (fun i maps => setCell maps i p (v i)) maps)
  = length maps.
Proof.
  apply (forRange_inv (fun _ m => length m = length maps)); [done|].
  intros i m _ H. unfold setCell. by rewrite length_alter.
Qed.

Lemma setCells_lookup (n p : nat) (v : nat -> num) (maps : list (list num))
    (i : nat) :
  i < n ->
  forRange n (fun i maps => setCell maps i p (v i)) maps !! i
  = (fun m => <[ p := fround (v i) ]> m) <$> (maps !! i).
Proof.
  intros Hi.
  assert (forall k,
            forall j, j < k ->
              forRange k (fun i maps => setCell maps i p (v i)) maps !! j
              = (fun m => <[ p := fround (v j) ]> m) <$> (maps !! j)) as Hk.
  { induction k as [|k IH]; intros j Hj; [lia|].
    rewrite forRange_S. unfold setCell at 1.
    destruct (decide (j = k)) as [->|Hne].
    - rewrite list_lookup_alter_eq.
      assert (forall k',
                forRange k' (fun i maps => setCell maps i p (v i)) maps !! k
                = if decide (k < k')
                  then (fun m => <[ p := fround (v k) ]> m) <$> (maps !! k)
                  else maps !! k) as Hun.
      { induction k' as [|k' IH']; [by case_decide; try lia|].
        rewrite forRange_S. unfold setCell at 1.
        destruct (decide (k = k')) as [->|Hne].
        - rewrite list_lookup_alter_eq, IH'.
          repeat case_decide; try lia. done.
        - rewrite list_lookup_alter_ne by done. rewrite IH'.
          repeat case_decide; try lia; done. }
      rewrite Hun. case_decide; [lia | done].
    - rewrite list_lookup_alter_ne by done. apply IH. lia. }
  by apply (Hk n).
Qed.

(** A loop that stores [f i] into every cell [i] of an array of [n] cells
    forgets what the array held. *)
Lemma fill_tabulate (n : nat) (f : nat -> num) (a : list num) :
  length a = n ->
  forRange n (fun i a => <[ i := f i ]> a) a = f <$> seq 0 n.
Proof.
  intros Hlen. apply list_eq. intros i.
  destruct (decide (i < n)) as [Hi|Hi].
  - rewrite fill_lookup by lia.
    rewrite list_lookup_fmap, lookup_seq_lt by done. reflexivity.
  - rewrite !(proj2 (lookup_ge_None _ _)); [done | |].
    + rewrite length_fmap, length_seq. lia.
    + rewrite (fill_length n (fun i _ => f i)). lia.
Qed.

Lemma rdByte_isFin (data : list Z) (i : nat) :
  i < length data -> isFin (rdByte data i).
Proof.
  intros Hi. unfold rdByte.
  destruct (data !! i) eqn:E; [apply isFin_ofZ|].
  apply lookup_ge_None in E. lia.
Qed.

Lemma pixelTarget_finVec data paper p :
  p * 4 + 3 < length data ->
  finVec (pixelTarget data paper (p * 4)
            (rdByte data (p * 4 + 3) / ofZ 255)%num).
Proof.
  intros Hp.
  assert (isFin (rdByte data (p * 4 + 3) / ofZ 255)%num) as Ha.
  { apply isFin_div_ofZ; [|lia]. apply rdByte_isFin. lia. }
  unfold pixelTarget, finVec. simpl.
  repeat split; apply isFin_mul; try done;
    (apply isFin_div_ofZ; [|lia]); apply isFin_sub;
    try apply isFin_ofZ; apply rdByte_isFin; lia.
Qed.

Lemma dotInkTargets_shape (n : nat) (inkDeltas : list vec3) (t : vec3) :
  length inkDeltas = n -> Forall finVec inkDeltas -> finVec t ->
  length (dotInkTargets n inkDeltas t) = n
  /\ Forall isFin (dotInkTargets n inkDeltas t).
Proof.
  intros Hn Hf Ht. unfold dotInkTargets. split.
  - rewrite (fill_length n (fun i _ => dot3 (rdVec inkDeltas i) t)).
    apply newFloatArray_length.
  - apply (fill_Forall isFin n (fun i _ => dot3 (rdVec inkDeltas i) t)).
    + apply newFloatArray_Forall. by eexists.
    + intros i a' Hi _ _. apply dot3_isFin; [|done].
      apply rdVec_finVec; [done | lia].
Qed.

(** ** Binary32 cells *)

Lemma roundHalfEven_bounds (x : Q) :
  (Qfloor x <= roundHalfEven x <= Qfloor x + 1)%Z
  /\ ((x == inject_Z (Qfloor x))%Q -> roundHalfEven x = Qfloor x).
Proof.
  unfold roundHalfEven. split.
  - repeat match goal with |- context [if ?c then _ else _] => destruct c end;
      lia.
  - intros Hx.
    assert (x - inject_Z (Qfloor x) == 0)%Q as H0 by (rewrite <- Hx; ring).
    destruct (Qle_bool (x - inject_Z (Qfloor x)) (1 # 2)) eqn:E1.
    + destruct (Qle_bool (1 # 2) (x - inject_Z (Qfloor x))) eqn:E2; [|done].
      apply Qle_bool_iff in E2. rewrite H0 in E2. lra.
    + assert (Qle_bool (x - inject_Z (Qfloor x)) (1 # 2) = true);
        [|congruence].
      apply Qle_bool_iff. rewrite H0. lra.
Qed.

Lemma roundHalfEven_range (x : Q) (N : Z) :
  (0 <= x <= inject_Z N)%Q -> (0 <= roundHalfEven x <= N)%Z.
Proof.
  intros [H0 H1]. destruct (roundHalfEven_bounds x) as [[Hlo Hhi] Hint].
  assert (0 <= Qfloor x)%Z.
  { change 0%Z with (Qfloor 0). by apply Qfloor_resp_le. }
  assert (Qfloor x <= N)%Z.
  { rewrite <- (Qfloor_Z N). by apply Qfloor_resp_le. }
  split; [lia|].
  destruct (decide (Qfloor x = N)) as [E|NE]; [|lia].
  rewrite Hint; [lia|].
  apply Qle_antisym; [|apply Qfloor_le]. by rewrite E.
Qed.

Lemma ilog2_le_0 (q : Q) : (0 < q <= 1)%Q -> (ilog2 q <= 0)%Z.
Proof.
  intros [H0 H1]. unfold ilog2.
  assert (0 < Qnum q <= Zpos (Qden q))%Z as [Hn Hd].
  { unfold Qlt, Qle in *. simpl in *. lia. }
  pose proof (Z.log2_le_mono _ _ Hd).
  destruct (Qle_bool _ _); lia.
Qed.

Lemma Qpower_neg_inv (k : Z) :
  (k <= 0)%Z -> (2 ^ k * inject_Z (2 ^ (- k)) == 1)%Q.
Proof.
  intros Hk. rewrite Zpower_Qpower by lia.
  change (inject_Z 2) with 2%Q.
  rewrite <- Qpower_plus by discriminate.
  by replace (k + - k)%Z with 0%Z by lia.
Qed.

Lemma Qabs_nonneg_eq (q : Q) : (0 <= q)%Q -> Qabs q = q.
Proof.
  destruct q as [n d]. unfold Qle, Qabs. simpl. intros H.
  f_equal. apply Z.abs_eq. lia.
Qed.

(** Rounding to a binary format keeps a number of [0, 1] in [0, 1]: 0 and 1
    are numbers of the format, and the number nearest to [q] is not beyond
    them. *)
Lemma nearest_in01 (prec emin emax : Z) (q : Q) :
  (1 <= prec)%Z -> (emin <= 0)%Z -> (1 <= emax)%Z ->
  (0 <= q <= 1)%Q -> in01 (nearest prec emin emax q).
Proof.
  intros Hprec Hemin Hemax [H0 H1]. unfold nearest.
  destruct (Qeq_bool q 0) eqn:Ez; [exists 0%Q; split; [done | lra]|].
  assert (0 < q)%Q as Hpos.
  { apply Qeq_bool_neq in Ez. lra. }
  rewrite (Qabs_nonneg_eq q) by lra.
  set (k := Z.max (ilog2 q - (prec - 1)) emin).
  assert (k <= 0)%Z as Hk.
  { pose proof (ilog2_le_0 q (conj Hpos H1)). unfold k. lia. }
  set (N := (2 ^ (- k))%Z).
  assert (0 < N)%Z as HN by (apply Z.pow_pos_nonneg; lia).
  pose proof (Qpower_neg_inv k Hk) as Hinv. fold N in Hinv.
  assert (0 < 2 ^ k)%Q as Hulp by (apply Qpower_0_lt; reflexivity).
  assert (0 < inject_Z N)%Q as HNq.
  { change 0%Q with (inject_Z 0). by rewrite <- Zlt_Qlt. }
  assert (q / 2 ^ k == q * inject_Z N)%Q as Hdiv.
  { apply Qmult_inj_r with (z := (2 ^ k)%Q); [lra|].
    rewrite Qmult_comm, Qmult_div_r by lra.
    rewrite <- Qmult_assoc, (Qmult_comm (inject_Z N)), Hinv. ring. }
  set (m := roundHalfEven (q / 2 ^ k)).
  assert (0 <= m <= N)%Z as Hm.
  { apply roundHalfEven_range. rewrite Hdiv. split; nra. }
  assert (0 <= inject_Z m <= inject_Z N)%Q as Hmq.
  { change 0%Q with (inject_Z 0). rewrite <- !Zle_Qle. lia. }
  assert (0 <= inject_Z m * 2 ^ k <= 1)%Q as Hv.
  { split; [nra|]. rewrite <- Hinv. nra. }
  rewrite (Qabs_nonneg_eq (inject_Z m * 2 ^ k)) by lra.
  destruct (Qle_bool (2 ^ emax) (inject_Z m * 2 ^ k)) eqn:Eo.
  - exfalso. apply Qle_bool_iff in Eo.
    assert (2 <= 2 ^ emax)%Q; [|lra].
    change 2%Q with (2 ^ 1)%Q at 1.
    replace emax with (1 + (emax - 1))%Z by lia.
    rewrite Qpower_plus by discriminate.
    assert (1 <= 2 ^ (emax - 1))%Q; [|change (2 ^ 1)%Q with 2%Q; nra].
    apply Qpower_1_le; [lra | lia].
  - eexists. split; [reflexivity|]. by rewrite Qred_correct.
Qed.

Lemma fround_in01 (x : num) : in01 x -> in01 (fround x).
Proof.
  intros (q & -> & Hq). apply nearest_in01; try lia. exact Hq.
Qed.

Lemma fround_0 : fround (Fin 0) = Fin 0.
Proof. reflexivity. Qed.

Lemma fround_1 : fround (Fin 1) = Fin 1.
Proof. vm_compute. reflexivity. Qed.

Lemma fround_half : fround (Fin (1 # 2)) = Fin (1 # 2).
Proof. vm_compute. reflexivity. Qed.

(** ** The structure of the decomposition, in every arithmetic *)

Section DecompositionStructure.

Context {R : Rounding}.

(** The scratch array is wholly overwritten by the first guess, so a solve
    does not depend on what the previous pixel left in it. *)
Lemma solvePixel_scratch data paper n inkDeltas dotInkInk p d d' :
  length d = n -> length d' = n ->
  solvePixel data paper n inkDeltas dotInkInk p d
  = solvePixel data paper n inkDeltas dotInkInk p d'.
Proof.
  intros Hd Hd'. unfold solvePixel, initDensities.
  set (T := dotInkTargets n inkDeltas _).
  rewrite (fill_tabulate n
             (fun i => guardedRatio (rd T i) (rd dotInkInk (i * n + i))) d)
    by done.
  rewrite (fill_tabulate n
             (fun i => guardedRatio (rd T i) (rd dotInkInk (i * n + i))) d')
    by done.
  reflexivity.
Qed.

Lemma solvePixel_length data paper n inkDeltas dotInkInk p d :
  length d = n ->
  length (solvePixel data paper n inkDeltas dotInkInk p d) = n.
Proof.
  intros Hd. unfold solvePixel, refine.
  apply (forRange_inv (fun _ d' => length d' = n)).
  - unfold initDensities.
    by rewrite (fill_length n
                  (fun i _ => guardedRatio
                                (rd (dotInkTargets n inkDeltas _) i)
                                (rd dotInkInk (i * n + i)))).
  - intros _ d1 _ Hd1. unfold sweep.
    apply (forRange_inv (fun _ d' => length d' = n)); [done|].
    intros i d2 _ Hd2. unfold updateDensity. by rewrite length_insert.
Qed.

(** ** The cells of the density maps *)

Lemma decomposeColors_cell (imageData : ImageData) (inkRgbs : list RGB)
    (paper : RGB) :
  length (data imageData) = width imageData * height imageData * 4 ->
  length (decomposeColors imageData inkRgbs paper) = length inkRgbs /\
  forall i p,
    i < length inkRgbs -> p < width imageData * height imageData ->
    exists m,
      decomposeColors imageData inkRgbs paper !! i = Some m
      /\ length m = width imageData * height imageData
      /\ m !! p = Some (densityCell (data imageData) paper inkRgbs i p).
Proof.
  intros Hdata. unfold decomposeColors.
  set (n := length inkRgbs).
  set (pc := width imageData * height imageData) in *.
  set (deltas := map (inkDelta paper) inkRgbs).
  assert (length deltas = n) as Hdl by (unfold deltas; apply length_map).
  set (G := dotInkInkTable deltas) in *.
  set (Inv := fun (k : nat) (st : list (list num) * list num) =>
                length st.2 = n /\ length st.1 = n /\
                forall i m, st.1 !! i = Some m ->
                  length m = pc /\
                  forall p, p < k ->
                    m !! p
                    = Some (densityCell (data imageData) paper inkRgbs i p)).
  assert (Inv pc (forRange pc
                    (decomposePixel (data imageData) paper n deltas G)
                    (map (fun _ => newFloatArray pc) inkRgbs,
                     newFloatArray n))) as HI.
  { apply forRange_inv.
    - unfold Inv. simpl. split; [apply newFloatArray_length|].
      split; [apply length_map|].
      intros i m Hm.
      change (map ?f ?l) with (f <$> l) in Hm.
      apply list_lookup_fmap_Some in Hm as (? & -> & _).
      split; [apply newFloatArray_length | intros; lia].
    - intros k [maps dens] Hk (Hd & Hml & Hcells). simpl in Hd, Hml, Hcells.
      assert (exists v dens',
                decomposePixel (data imageData) paper n deltas G k
                               (maps, dens)
                = (forRange n (fun i maps => setCell maps i k (v i)) maps,
                   dens')
                /\ length dens' = n
                /\ forall i, fround (v i)
                             = densityCell (data imageData) paper inkRgbs
                                           i k)
        as (v & dens' & -> & Hd' & Hv).
      { unfold decomposePixel, densityCell. fold (alphaLow (data imageData) k).
        fold n deltas G.
        destruct (alphaLow (data imageData) k).
        - by exists (fun _ => ofZ 0), dens.
        - eexists (fun i => rd _ i), _. split; [reflexivity|]. split.
          + by apply solvePixel_length.
          + intros i. do 2 f_equal. apply solvePixel_scratch; [done|].
            apply newFloatArray_length. }
      unfold Inv. simpl. split; [done|].
      split; [by rewrite setCells_length|].
      intros i m' Hm'.
      assert (i < n) as Hi.
      { apply lookup_lt_Some in Hm'. by rewrite setCells_length, Hml in Hm'. }
      rewrite setCells_lookup in Hm' by done.
      apply fmap_Some in Hm' as (m & Hm & ->).
      destruct (Hcells i m Hm) as [Hlen Hold].
      split; [by rewrite length_insert|].
      intros p Hp. destruct (decide (p = k)) as [->|Hne].
      + rewrite <- Hv. apply list_lookup_insert_eq. lia.
      + rewrite list_lookup_insert_ne by done. apply Hold. lia. }
  destruct HI as (_ & Hml & Hcells). split; [exact Hml|].
  intros i p Hi Hp.
  destruct (lookup_lt_is_Some_2 _ i ltac:(rewrite Hml; exact Hi)) as [m Hm].
  destruct (Hcells i m Hm) as [Hlen Hc].
  exists m. split; [exact Hm|]. split; [exact Hlen|]. by apply Hc.
Qed.

Lemma Qmult_comm_eq (a c : Q) : (a * c)%Q = (c * a)%Q.
Proof.
  unfold Qmult. f_equal; [apply Z.mul_comm | apply Pos.mul_comm].
Qed.

Lemma mul_comm (x y : num) : (x * y)%num = (y * x)%num.
Proof.
  destruct x as [a| | |], y as [c| | |]; unfold JS.mul; simpl;
    try reflexivity.
  - by rewrite Qmult_comm_eq.
  - by rewrite Z.mul_comm.
  - by rewrite Z.mul_comm.
  - by rewrite Z.mul_comm.
  - by rewrite Z.mul_comm.
Qed.

Lemma dot3_comm (u v : vec3) : dot3 u v = dot3 v u.
Proof.
  unfold dot3.
  by rewrite (mul_comm u.1.1), (mul_comm u.1.2), (mul_comm u.2).
Qed.

Lemma flat_index_inj (n i j i' j' : nat) :
  j < n -> j' < n -> i * n + j = i' * n + j' -> i = i' /\ j = j'.
Proof.
  intros Hj Hj' H.
  assert (i = i') as ->.
  { destruct (Nat.lt_trichotomy i i') as [Hlt|[Heq|Hlt]]; [|done|].
    - assert ((i + 1) * n <= i' * n) by (apply Nat.mul_le_mono_r; lia). lia.
    - assert ((i' + 1) * n <= i * n) by (apply Nat.mul_le_mono_r; lia). lia. }
  split; [done | lia].
Qed.

(** The table of dot products is the Gram matrix. *)
Lemma dotInkInkTable_lookup (inkDeltas : list vec3) (i j : nat) :
  i < length inkDeltas -> j < length inkDeltas ->
  dotInkInkTable inkDeltas !! (i * length inkDeltas + j)
  = Some (dot3 (rdVec inkDeltas i) (rdVec inkDeltas j)).
Proof.
  intros Hi Hj. unfold dotInkInkTable.
  set (n := length inkDeltas) in *.
  set (gram := fun i j => dot3 (rdVec inkDeltas i) (rdVec inkDeltas j)).
  set (Inv := fun (known : nat -> nat -> Prop) (tbl : list num) =>
                length tbl = n * n /\
                forall i j, i < n -> j < n -> known i j ->
                  tbl !! (i * n + j) = Some (gram i j)).
  assert (Inv (fun i j => i < n \/ j < n)
              (forRange n (fun i =>
                 forFromTo i n (fun j tbl =>
                   <[ j * n + i := gram i j ]>
                     (<[ i * n + j := gram i j ]> tbl)))
                 (newFloatArray (n * n)))) as [_ HI].
  { apply (forRange_inv (fun i0 => Inv (fun i j => i < i0 \/ j < i0))).
    - split; [apply newFloatArray_length | intros; lia].
    - intros i0 tbl0 Hi0 HI0.
      assert (Inv (fun i j => (i < i0 \/ j < i0)
                              \/ (i = i0 /\ i0 <= j < n)
                              \/ (j = i0 /\ i0 <= i < n))
                  (forFromTo i0 n (fun j tbl =>
                     <[ j * n + i0 := gram i0 j ]>
                       (<[ i0 * n + j := gram i0 j ]> tbl)) tbl0))
        as [Hlen Hcells].
      { apply (forFromTo_inv
                 (fun j0 => Inv (fun i j => (i < i0 \/ j < i0)
                                            \/ (i = i0 /\ i0 <= j < j0)
                                            \/ (j = i0 /\ i0 <= i < j0))));
          [lia | |].
        - destruct HI0 as [Hlen Hcells]. split; [done|].
          intros i' j' Hi' Hj' [H|[H|H]]; [by apply Hcells | lia | lia].
        - intros j0 tbl [Hj0 Hj0n] [Hlen Hcells]. split.
          + by rewrite !length_insert.
          + intros i' j' Hi' Hj' Hknown.
            destruct (decide (i' * n + j' = j0 * n + i0)) as [E|NE].
            * rewrite E. rewrite list_lookup_insert_eq
                by (rewrite length_insert, Hlen; nia).
              apply flat_index_inj in E as [-> ->]; [|lia|lia].
              unfold gram. by rewrite dot3_comm.
            * rewrite list_lookup_insert_ne by done.
              destruct (decide (i' * n + j' = i0 * n + j0)) as [E|NE'].
              -- rewrite E. rewrite list_lookup_insert_eq
                   by (rewrite Hlen; nia).
                 by apply flat_index_inj in E as [-> ->]; [|lia|lia].
              -- rewrite list_lookup_insert_ne by done.
                 apply Hcells; [done | done |].
                 destruct Hknown as [H|[[-> H]|[-> H]]]; [by left | |].
                 ++ right. left. split; [done|].
                    destruct (decide (j' = j0)) as [->|]; [done | lia].
                 ++ right. right. split; [done|].
                    destruct (decide (i' = j0)) as [->|]; [done | lia]. }
      split; [done|].
      intros i' j' Hi' Hj' Hknown. apply Hcells; [done | done |].
      destruct Hknown as [H|H].
      + destruct (decide (i' < i0)); [by left; left|].
        destruct (decide (j' < i0)); [by left; right|].
        right. left. split; lia.
      + destruct (decide (j' < i0)); [by left; right|].
        destruct (decide (i' < i0)); [by left; left|].
        right. right. split; lia. }
  apply HI; [done | done | by left].
Qed.

Lemma dotInkInkTable_rd (inkDeltas : list vec3) (i j : nat) :
  i < length inkDeltas -> j < length inkDeltas ->
  rd (dotInkInkTable inkDeltas) (i * length inkDeltas + j)
  = dot3 (rdVec inkDeltas i) (rdVec inkDeltas j).
Proof.
  intros Hi Hj. apply rd_lookup. by apply dotInkInkTable_lookup.
Qed.

End DecompositionStructure.

(** ** Colour decomposition: the densities stored *)

Lemma solvePixel_in01 data paper n inkDeltas dotInkInk p d :
  length inkDeltas = n -> Forall finVec inkDeltas ->
  length dotInkInk = n * n -> Forall isFin dotInkInk ->
  p * 4 + 3 < length data -> length d = n ->
  length (solvePixel data paper n inkDeltas dotInkInk p d) = n
  /\ Forall in01 (solvePixel data paper n inkDeltas dotInkInk p d).
Proof.
  intros Hn Hfin Hgl Hgf Hp Hd. unfold solvePixel.
  set (T := dotInkTargets n inkDeltas _).
  destruct (dotInkTargets_shape n inkDeltas
              (pixelTarget data paper (p * 4)
                 (rdByte data (p * 4 + 3) / ofZ 255)%num) Hn Hfin
              (pixelTarget_finVec data paper p Hp)) as [Htl Htf].
  fold T in Htl, Htf.
  destruct (initDensities_in01 n dotInkInk Hgl Hgf T d Htl Htf Hd)
    as [Hil Hif].
  exact (refine_in01 n dotInkInk Hgl Hgf T _ Htl Htf Hil Hif).
Qed.

Lemma densityCell_in01 (data : list Z) (paper : RGB) (inkRgbs : list RGB)
    (i p : nat) :
  p * 4 + 3 < length data -> i < length inkRgbs ->
  in01 (densityCell data paper inkRgbs i p).
Proof.
  intros Hp Hi. unfold densityCell. apply fround_in01.
  destruct (alphaLow data p).
  - exists 0%Q. split; [done | lra].
  - set (deltas := map (inkDelta paper) inkRgbs).
    assert (length deltas = length inkRgbs) as Hdl
        by (unfold deltas; apply length_map).
    assert (Forall finVec deltas) as Hdf.
    { unfold deltas. apply Forall_map, Forall_forall. intros ? _.
      apply inkDelta_finVec. }
    destruct (dotInkInkTable_shape deltas Hdf) as [Hgl Hgf].
    rewrite Hdl in Hgl.
    destruct (solvePixel_in01 data paper (length inkRgbs) deltas
                (dotInkInkTable deltas) p (newFloatArray (length inkRgbs))
                Hdl Hdf Hgl Hgf Hp (newFloatArray_length _)) as [Hl HF].
    apply rd_Forall; [exact HF | lia].
Qed.

(** ** C1 *)

(** C1.  On a bitmap that has its four bytes per pixel, colour decomposition
    yields one map per ink, and in it, for every pixel, a density that is a
    finite number of the interval [0, 1] (never [NaN], never infinite),
    whatever the ink colours; where the straight alpha of the pixel is below
    0.01 the density is exactly 0 for every ink. *)
Theorem decomposeColors_density_range (imageData : ImageData)
    (inkRgbs : list RGB) (paper : RGB) :
  length (data imageData) = width imageData * height imageData * 4 ->
  length (decomposeColors imageData inkRgbs paper) = length inkRgbs /\
  forall i p,
    i < length inkRgbs -> p < width imageData * height imageData ->
    exists m q,
      decomposeColors imageData inkRgbs paper !! i = Some m
      /\ m !! p = Some (Fin q)
      /\ (0 <= q <= 1)%Q
      /\ (alphaLow (data imageData) p = true -> Fin q = Fin 0).
Proof.
  intros Hdata.
  destruct (decomposeColors_cell imageData inkRgbs paper Hdata) as [Hl Hc].
  split; [exact Hl|]. intros i p Hi Hp.
  destruct (Hc i p Hi Hp) as (m & Hm & _ & Hmp).
  destruct (densityCell_in01 (data imageData) paper inkRgbs i p
              ltac:(lia) Hi) as (q & Hq & Hrange).
  exists m, q. rewrite Hmp, Hq. repeat split; try done; try lra.
  intros Hlow. rewrite <- Hq. unfold densityCell. by rewrite Hlow.
Qed.

Lemma forRange_const {S : Type} (k : nat) (F : S -> S) (s : S) :
  F s = s -> forRange k (fun _ => F) s = s.
Proof.
  intros HF. induction k as [|k IH]; [done|].
  by rewrite forRange_S, IH.
Qed.

Lemma forRange_iter {S : Type} (k : nat) (F : S -> S) (s : S) :
  forRange k (fun _ => F) s = Nat.iter k F s.
Proof.
  induction k as [|k IH]; [done|]. by rewrite forRange_S, IH.
Qed.
Lemma iter_ext {S : Type} (k : nat) (F H : S -> S) (s : S) :
  (forall x, F x = H x) -> Nat.iter k F s = Nat.iter k H s.
Proof.
  intros HFH. induction k as [|k IH]; [done|].
  by rewrite !Nat.iter_succ, IH, HFH.
Qed.

(** ** C5: a single ink *)

Section SingleInk.

Context {R : Rounding}.

Lemma solvePixel_single data paper (a : vec3) p (d : list num) :
  length d = 1 ->
  solvePixel data paper 1 [a] (dotInkInkTable [a]) p d
  = [guardedRatio
       (dot3 a (pixelTarget data paper (p * 4)
                  (rdByte data (p * 4 + 3) / ofZ 255)%num))
       (dot3 a a)].
Proof.
  intros Hd. destruct d as [|x [|? ?]]; try discriminate.
  unfold solvePixel, refine. apply forRange_const. reflexivity.
Qed.

(** C5, as the code has it.  In every arithmetic, with exactly one ink, the
    solve of a pixel whose alpha is not below 0.01 leaves in the scratch
    array the projection
    [clamp(dot(target, absorption) / dot(absorption, absorption), 0, 1)]
    when [dot(absorption, absorption) > 1e-10], and 0 otherwise (an ink
    equal to the reference white): the twelve sweeps change nothing.  The
    cell of the density map, a [Float32Array], holds the binary32 number
    nearest to it. *)
Theorem single_ink_projection (imageData : ImageData) (ink paper : RGB)
    (p : nat) :
  length (data imageData) = width imageData * height imageData * 4 ->
  p < width imageData * height imageData ->
  alphaLow (data imageData) p = false ->
  let a := inkDelta paper ink in
  let t := pixelTarget (data imageData) paper (p * 4)
             (rdByte (data imageData) (p * 4 + 3) / ofZ 255)%num in
  let d := if (dot3 a a >? lit (1 # 10000000000))%num
           then projectionSpec t a
           else ofZ 0 in
  solvePixel (data imageData) paper 1 [a] (dotInkInkTable [a]) p
             (newFloatArray 1) = [d]
  /\ exists m,
       decomposeColors imageData [ink] paper = [m]
       /\ m !! p = Some (fround d).
Proof.
  intros Hdata Hp Hlow a t d.
  assert (solvePixel (data imageData) paper 1 [a] (dotInkInkTable [a]) p
                     (newFloatArray 1) = [d]) as Hsolve.
  { rewrite solvePixel_single by reflexivity.
    fold t. unfold d, guardedRatio, projectionSpec.
    by rewrite (dot3_comm t a). }
  split; [exact Hsolve|].
  destruct (decomposeColors_cell imageData [ink] paper Hdata) as [Hl Hc].
  destruct (Hc 0 p ltac:(simpl; lia) Hp) as (m & Hm & _ & Hmp).
  exists m. split.
  - destruct (decomposeColors imageData [ink] paper) as [|m' [|? ?]];
      try discriminate.
    simpl in Hm. congruence.
  - rewrite Hmp. f_equal. unfold densityCell. rewrite Hlow.
    change (length [ink]) with 1.
    change (map (inkDelta paper) [ink]) with [a].
    by rewrite Hsolve.
Qed.

End SingleInk.

(** ** C2: the solver, in the words of the specification *)

Section Refinement.

Context {R : Rounding}.

Variable absorption : list vec3.
Variable target : vec3.

Local Abbreviation n := (length absorption).
Local Abbreviation tbl := (dotInkInkTable absorption).
Local Abbreviation T := (dotInkTargets (length absorption) absorption target).
Local Abbreviation guarded := (Spec.guardedUpdate absorption target).

Lemma T_tabulate : T = Spec.bvec absorption target <$> seq 0 n.
Proof.
  unfold dotInkTargets.
  apply (fill_tabulate n (fun i => dot3 (rdVec absorption i) target)).
  apply newFloatArray_length.
Qed.

Lemma T_rd i : i < n -> rd T i = Spec.bvec absorption target i.
Proof.
  intros Hi. apply rd_lookup. rewrite T_tabulate.
  by rewrite list_lookup_fmap, lookup_seq_lt.
Qed.

Lemma guardedRatio_spec x g :
  guardedRatio x g
  = if Spec.nearZero g then ofZ 0 else clamp01 (x / g)%num.
Proof.
  unfold guardedRatio, Spec.nearZero. by destruct (g >? _)%num.
Qed.

Lemma initDensities_spec (d : list num) :
  length d = n ->
  initDensities n tbl T d = Spec.initial absorption target.
Proof.
  intros Hd. unfold initDensities, Spec.initial.
  rewrite (fill_tabulate n
             (fun i => guardedRatio (rd T i) (rd tbl (i * n + i)))) by done.
  apply list_eq. intros i. rewrite !list_lookup_fmap.
  destruct (seq 0 n !! i) as [k|] eqn:Hk; [|done]. simpl.
  apply lookup_seq in Hk as [-> Hi]. simpl.
  by rewrite guardedRatio_spec, T_rd, dotInkInkTable_rd.
Qed.

(** The running subtraction of the loop over [j] is the residual. *)
Lemma residual_spec (i : nat) (d : list num) :
  i < n ->
  forRange n (fun j numerator =>
                if decide (j <> i)
                then (numerator - rd d j * rd tbl (i * n + j))%num
                else numerator)
           (rd T i)
  = Spec.residual absorption target i d.
Proof.
  intros Hi. rewrite T_rd by done. unfold Spec.residual.
  assert (forall k, k <= n ->
            forRange k (fun j numerator =>
                          if decide (j <> i)
                          then (numerator - rd d j * rd tbl (i * n + j))%num
                          else numerator)
                     (Spec.bvec absorption target i)
            = foldl (fun acc j =>
                       (acc - rd d j * Spec.G absorption i j)%num)
                    (Spec.bvec absorption target i)
                    (filter (fun j => j <> i) (seq 0 k))) as Hk.
  { induction k as [|k IH]; intros Hk; [done|].
    rewrite forRange_S, IH by lia.
    rewrite seq_S, filter_app, foldl_app. simpl.
    destruct (decide (k <> i)) as [Hne|Heq].
    - rewrite filter_cons_True, filter_nil by done. simpl.
      by rewrite dotInkInkTable_rd by lia.
    - by rewrite filter_cons_False, filter_nil by done. }
  by apply Hk.
Qed.

Lemma updateDensity_spec (i : nat) (d : list num) :
  i < n -> updateDensity n tbl T i d = guarded i d.
Proof.
  intros Hi. unfold updateDensity, Spec.guardedUpdate.
  rewrite residual_spec by done.
  by rewrite guardedRatio_spec, dotInkInkTable_rd.
Qed.

Lemma sweep_spec (d : list num) :
  sweep n tbl T d = Spec.sweep absorption guarded d.
Proof.
  unfold sweep.
  change (Spec.sweep absorption guarded d) with (forRange n guarded d).
  apply forRange_ext. intros i d' Hi. by apply updateDensity_spec.
Qed.

Lemma refine_spec (d : list num) :
  refine n tbl T d = Nat.iter 12 (Spec.sweep absorption guarded) d.
Proof.
  unfold refine. rewrite forRange_iter. unfold MAX_ITER.
  apply iter_ext. apply sweep_spec.
Qed.

End Refinement.

Section GaussSeidel.

Context {R : Rounding}.

Lemma solvePixel_spec (data : list Z) (paper : RGB) (inkDeltas : list vec3)
    (p : nat) (d : list num) :
  length d = length inkDeltas ->
  let t := pixelTarget data paper (p * 4)
             (rdByte data (p * 4 + 3) / ofZ 255)%num in
  solvePixel data paper (length inkDeltas) inkDeltas
             (dotInkInkTable inkDeltas) p d
  = Spec.solve inkDeltas t (Spec.guardedUpdate inkDeltas t).
Proof.
  intros Hd t. unfold solvePixel, Spec.solve. fold t.
  by rewrite refine_spec, initDensities_spec.
Qed.

(** C2, as the code has it.  In every arithmetic: the table of dot products,
    built once before the loop over the pixels, is the symmetric Gram matrix
    [G_ij = a_i . a_j] of the absorption vectors [a_i = (white - ink_i) / 255].
    For every pixel whose alpha is not below 0.01 the solve leaves in the
    scratch array: the first guess [d_i = clamp(b_i / G_ii, 0, 1)] with
    [b_i = a_i . t], [d_i] being 0 where [G_ii] is about 0; followed by
    exactly twelve Gauss-Seidel sweeps of
    [d_i = clamp((b_i - sum over j <> i of d_j G_ij) / G_ii, 0, 1)], under
    the same guard, the products being taken off [b_i] in the order of the
    inks and each update seeing the coefficients updated before it; nothing
    tests for convergence.  The density stored for ink [i] is the binary32
    number nearest to coefficient [i]. *)
Theorem decomposeColors_gauss_seidel (imageData : ImageData)
    (inkRgbs : list RGB) (white : RGB) :
  length (data imageData) = width imageData * height imageData * 4 ->
  let a := map (inkDelta white) inkRgbs in
  (forall i j, i < length inkRgbs -> j < length inkRgbs ->
     dotInkInkTable a !! (i * length inkRgbs + j) = Some (Spec.G a i j)
     /\ Spec.G a i j = Spec.G a j i)
  /\
  forall p,
    p < width imageData * height imageData ->
    alphaLow (data imageData) p = false ->
    let t := pixelTarget (data imageData) white (p * 4)
               (rdByte (data imageData) (p * 4 + 3) / ofZ 255)%num in
    solvePixel (data imageData) white (length inkRgbs) a (dotInkInkTable a)
               p (newFloatArray (length inkRgbs))
    = Spec.solve a t (Spec.guardedUpdate a t)
    /\ forall i, i < length inkRgbs ->
         exists m,
           decomposeColors imageData inkRgbs white !! i = Some m
           /\ m !! p
              = Some (fround (rd (Spec.solve a t (Spec.guardedUpdate a t))
                                 i)).
Proof.
  intros Hdata a.
  assert (length a = length inkRgbs) as Hal by apply length_map.
  split.
  - intros i j Hi Hj. split.
    + rewrite <- Hal. apply dotInkInkTable_lookup; lia.
    + apply dot3_comm.
  - intros p Hp Hlow t.
    assert (solvePixel (data imageData) white (length inkRgbs) a
                       (dotInkInkTable a) p (newFloatArray (length inkRgbs))
            = Spec.solve a t (Spec.guardedUpdate a t)) as Hsolve.
    { rewrite <- Hal. apply solvePixel_spec. apply newFloatArray_length. }
    split; [exact Hsolve|]. intros i Hi.
    destruct (decomposeColors_cell imageData inkRgbs white Hdata) as [_ Hc].
    destruct (Hc i p Hi Hp) as (m & Hm & _ & Hmp).
    exists m. split; [exact Hm|]. rewrite Hmp. f_equal.
    unfold densityCell. rewrite Hlow. fold a. by rewrite Hsolve.
Qed.

End GaussSeidel.

(** ** The decomposition on sample inputs *)

Lemma decomposeColors_density_range_witness :
  length (data Sample.fourPixels)
  = width Sample.fourPixels * height Sample.fourPixels * 4
  /\ length (decomposeColors Sample.fourPixels
               [Sample.cyan; Sample.cyan; Sample.white] Sample.white) = 3.
Proof.
  split; [reflexivity|].
  apply (decomposeColors_density_range Sample.fourPixels
           [Sample.cyan; Sample.cyan; Sample.white] Sample.white).
  reflexivity.
Defined.

(** With the white ink alone the density of a black pixel is 0, while the
    projection formula divides 0 by 0. *)
Lemma single_white_ink_not_projection :
  alphaLow (data Sample.blackPixel) 0 = false
  /\ decomposeColors Sample.blackPixel [Sample.white] Sample.white
     = [[Fin 0]]
  /\ projectionSpec Sample.blackTarget (inkDelta Sample.white Sample.white)
     = NaN
  /\ decomposeColors Sample.blackPixel [Sample.white] Sample.white
     <> [[projectionSpec Sample.blackTarget
            (inkDelta Sample.white Sample.white)]].
Proof.
  assert (decomposeColors Sample.blackPixel [Sample.white] Sample.white
          = [[Fin 0]]) as Hcode by (vm_compute; reflexivity).
  assert (projectionSpec Sample.blackTarget
            (inkDelta Sample.white Sample.white) = NaN) as Hspec
      by (vm_compute; reflexivity).
  split; [vm_compute; reflexivity|].
  split; [exact Hcode|]. split; [exact Hspec|].
  rewrite Hcode, Hspec. discriminate.
Qed.

Lemma single_ink_projection_witness :
  exists m,
    decomposeColors (R := binary64) Sample.fourPixels [Sample.cyan]
                    Sample.white = [m]
    /\ m !! 2 = Some (Fin (8421505 # 16777216)).
Proof.
  destruct (single_ink_projection (R := binary64) Sample.fourPixels
              Sample.cyan Sample.white 2)
    as (_ & m & Hm & Hmp);
    [reflexivity | simpl; lia | vm_compute; reflexivity |].
  exists m. split; [exact Hm|]. rewrite Hmp. vm_compute. reflexivity.
Defined.

(** With a white ink beside a black one, in binary64: the code stores 0 and 1
    for a black pixel, while the update without the guard divides 0 by 0 for
    the white ink in the first sweep and leaves [NaN] everywhere. *)
Lemma unguarded_update_divides_by_zero :
  alphaLow (R := binary64) (data Sample.blackPixel) 0 = false
  /\ decomposeColors (R := binary64) Sample.blackPixel
                     [Sample.white; Sample.black] Sample.white
     = [[Fin 0]; [Fin 1]]
  /\ Spec.solve (R := binary64)
       (map (inkDelta (R := binary64) Sample.white)
            [Sample.white; Sample.black])
       (Sample.blackTarget (R := binary64))
       (Spec.update (R := binary64)
          (map (inkDelta (R := binary64) Sample.white)
               [Sample.white; Sample.black])
          (Sample.blackTarget (R := binary64)))
     = [NaN; NaN]
  /\ decomposeColors (R := binary64) Sample.blackPixel
                     [Sample.white; Sample.black] Sample.white
     <> (fun d => [fround d])
          <$> Spec.solve (R := binary64)
                (map (inkDelta (R := binary64) Sample.white)
                     [Sample.white; Sample.black])
                (Sample.blackTarget (R := binary64))
                (Spec.update (R := binary64)
                   (map (inkDelta (R := binary64) Sample.white)
                        [Sample.white; Sample.black])
                   (Sample.blackTarget (R := binary64))).
Proof.
  split; [vm_compute; reflexivity|].
  split; [vm_compute; reflexivity|].
  split; [vm_compute; reflexivity|].
  vm_compute. discriminate.
Qed.

Lemma decomposeColors_gauss_seidel_witness :
  exists m,
    decomposeColors (R := binary64) Sample.fourPixels
                    [Sample.cyan; Sample.black] Sample.white !! 1 = Some m
    /\ m !! 0 = Some (Fin 1).
Proof.
  destruct (decomposeColors_gauss_seidel (R := binary64) Sample.fourPixels
              [Sample.cyan; Sample.black] Sample.white) as [_ H];
    [reflexivity|].
  destruct (H 0) as [_ Hcell]; [simpl; lia | vm_compute; reflexivity |].
  destruct (Hcell 1) as (m & Hm & Hmp); [simpl; lia|].
  exists m. split; [exact Hm|]. rewrite Hmp. vm_compute. reflexivity.
Defined.

(** ** C4: the pitch of the two screens *)

(** Two nested loops that store [f x y] into cell [y * w + x]. *)
Lemma fill2D_shape (w h : nat) (f : nat -> nat -> num) (a : list num) :
  length a = w * h ->
  length (forRange h (fun y =>
            forRange w (fun x result => <[ y * w + x := f x y ]> result)) a)
  = w * h
  /\ forall x y, x < w -> y < h ->
       forRange h (fun y =>
         forRange w (fun x result => <[ y * w + x := f x y ]> result)) a
         !! (y * w + x) = Some (f x y).
Proof.
  intros Hlen.
  set (Inv := fun (known : nat -> nat -> Prop) (res : list num) =>
                length res = w * h /\
                forall x y, x < w -> y < h -> known x y ->
                  res !! (y * w + x) = Some (f x y)).
  assert (Inv (fun _ y => y < h)
              (forRange h (fun y =>
                 forRange w (fun x result => <[ y * w + x := f x y ]> result))
                 a)) as [Hl Hc].
  { apply (forRange_inv (fun y0 => Inv (fun _ y => y < y0))).
    - split; [done | intros; lia].
    - intros y0 res0 Hy0 [Hl0 Hc0].
      assert (Inv (fun x y => y < y0 \/ (y = y0 /\ x < w))
                  (forRange w (fun x result =>
                                 <[ y0 * w + x := f x y0 ]> result) res0))
        as [Hl1 Hc1].
      { apply (forRange_inv
                 (fun x0 => Inv (fun x y => y < y0 \/ (y = y0 /\ x < x0)))).
        - split; [done|]. intros x y Hx Hy [H|H]; [by apply Hc0 | lia].
        - intros x0 res Hx0 [Hl1 Hc1]. split; [by rewrite length_insert|].
          intros x y Hx Hy Hknown.
          destruct (decide (y * w + x = y0 * w + x0)) as [E|NE].
          + rewrite E. rewrite list_lookup_insert_eq by (rewrite Hl1; nia).
            by apply flat_index_inj in E as [-> ->]; [|lia|lia].
          + rewrite list_lookup_insert_ne by done.
            apply Hc1; [done | done |].
            destruct Hknown as [H|[-> H]]; [by left|].
            right. split; [done|].
            destruct (decide (x = x0)) as [->|]; [done | lia]. }
      split; [done|]. intros x y Hx Hy Hknown. apply Hc1; [done | done |].
      destruct (decide (y < y0)); [by left | right; lia]. }
  split; [done|]. intros x y Hx Hy. by apply Hc.
Qed.

Section HalftonePitch.

Context {R : Rounding}.

Variables Math_cos Math_sin Math_sqrt : num -> num.
Variable Math_PI : num.

Local Abbreviation apply_halftone :=
  (applyHalftone Math_cos Math_sin Math_sqrt Math_PI).
Local Abbreviation halftone_at :=
  (halftoneAt Math_cos Math_sin Math_sqrt Math_PI).

(** One turn of the loops over [dy] and [dx] adds the contribution of the dot
    of one cell, for cells of the size [dotSize] and dots of the radius
    [dotSize * 0.5]. *)
Lemma fmCandidate_spec (densityMap : list num) (w h : nat)
    (options : HalftoneOptions) (cos sin rx ry gx gy : num) (dy dx : Z)
    (m : num) :
  fmCandidate Math_sqrt densityMap w h options cos sin rx ry gx gy dy dx m
  = match Spec.dotContribution Math_sqrt (dotSize options)
            (dotSize options * lit (1 # 2))%num (fmEdge options) cos sin
            (default (ofZ 1) (density options)) densityMap w h rx ry
            (gx + ofZ dx)%num (gy + ofZ dy)%num with
    | Some o => JS.max m o
    | None => m
    end.
Proof.
  unfold fmCandidate, Spec.dotContribution, Spec.dotExists, Spec.dotDensity,
    Spec.dotCentre, fmCellSize, fmDotRadius.
  destruct (_ >? _)%num; [reflexivity|].
  destruct (_ <=? _)%num; reflexivity.
Qed.

Lemma fmPixel_spec (densityMap : list num) (w h : nat)
    (options : HalftoneOptions) (x y : nat) :
  let rad := (angle options * Math_PI / ofZ 180)%num in
  let cos := Math_cos rad in
  let sin := Math_sin rad in
  let rot := rotate cos sin (ofNat x) (ofNat y) in
  fmPixel Math_cos Math_sin Math_sqrt Math_PI densityMap w h options x y
  = Spec.fmOpacity Math_sqrt (dotSize options)
      (dotSize options * lit (1 # 2))%num (fmEdge options) cos sin
      (default (ofZ 1) (density options)) densityMap w h rot.1 rot.2.
Proof.
  unfold fmPixel, Spec.fmOpacity, Spec.neighbours, rotate, fmCellSize.
  cbn [fst snd foldl map concat app].
  by rewrite !fmCandidate_spec.
Qed.

(** C4.  In every arithmetic, from the same configuration of dot pitch [p]:
    without the FM mode the opacity of every pixel is the AM dot for the
    pitch [p + 1], which locates the cell in both rotated directions and
    sets the width of the antialiased rim; in FM mode the opacity of every
    pixel is the largest contribution of the dots of the nine cells around
    it, for cells of size [p] exactly and dots of the fixed radius
    [p * 0.5].  Either way the cell of the map, a [Float32Array], holds the
    binary32 number nearest to it. *)
Theorem halftone_effective_pitch (densityMap : list num) (w h : nat)
    (options : HalftoneOptions) (x y : nat) :
  x < w -> y < h ->
  let p := dotSize options in
  let rad := (angle options * Math_PI / ofZ 180)%num in
  let cos := Math_cos rad in
  let sin := Math_sin rad in
  let scale := default (ofZ 1) (density options) in
  let rot := rotate cos sin (ofNat x) (ofNat y) in
  (mode options <> Some FM ->
   let cx := cellOffset rot.1 (p + ofZ 1)%num in
   let cy := cellOffset rot.2 (p + ofZ 1)%num in
   let scaled := JS.min (rd densityMap (y * w + x) * scale)%num (ofZ 1) in
   apply_halftone densityMap w h options !! (y * w + x)
   = Some (fround (amCoverage (Math_sqrt (cx * cx + cy * cy)%num)
                              (Math_sqrt scaled * lit (1 # 2))%num
                              (amEdge (p + ofZ 1)%num))))
  /\
  (mode options = Some FM ->
   apply_halftone densityMap w h options !! (y * w + x)
   = Some (fround (Spec.fmOpacity Math_sqrt p (p * lit (1 # 2))%num
                     (fmEdge options) cos sin scale densityMap w h
                     rot.1 rot.2))).
Proof.
  intros Hx Hy p rad cos sin scale rot. split.
  - intros Hmode. unfold applyHalftone.
    assert (forall a, match mode options with
                      | Some FM => a
                      | _ => forRange h (fun y =>
                               forRange w (fun x result =>
                                 <[ y * w + x :=
                                      fround
                                        (halftone_at (ofNat x) (ofNat y)
                                           (rd densityMap (y * w + x))
                                           (amOptions options)) ]> result))
                               (newFloatArray (w * h))
                      end !! (y * w + x)
                      = Some (fround
                                (halftone_at (ofNat x) (ofNat y)
                                   (rd densityMap (y * w + x))
                                   (amOptions options)))) as Ham.
    { intros a.
      destruct (fill2D_shape w h
                  (fun x y => fround
                                (halftone_at (ofNat x) (ofNat y)
                                   (rd densityMap (y * w + x))
                                   (amOptions options)))
                  (newFloatArray (w * h)) (newFloatArray_length _))
        as [_ Hc].
      destruct (mode options) as [[|]|]; try congruence; by apply Hc. }
    cbv zeta. rewrite Ham. reflexivity.
  - intros Hmode. unfold applyHalftone. rewrite Hmode.
    unfold applyFMHalftone.
    rewrite (proj2 (fill2D_shape w h
               (fun x y => fround
                             (fmPixel Math_cos Math_sin Math_sqrt Math_PI
                                      densityMap w h options x y))
               (newFloatArray (w * h)) (newFloatArray_length _)) x y Hx Hy).
    by rewrite fmPixel_spec.
Qed.

End HalftonePitch.

(** ** Bytes *)

Lemma Qle_bool_inject (x y : Z) :
  Qle_bool (inject_Z x) (inject_Z y) = (x <=? y)%Z.
Proof.
  destruct (Z.leb_spec x y) as [H|H].
  - apply Qle_bool_iff. by rewrite <- Zle_Qle.
  - destruct (Qle_bool (inject_Z x) (inject_Z y)) eqn:E; [|done].
    apply Qle_bool_iff in E. rewrite <- Zle_Qle in E. lia.
Qed.

Lemma roundHalfEven_Z (z : Z) : roundHalfEven (inject_Z z) = z.
Proof.
  unfold roundHalfEven. rewrite Qfloor_Z.
  assert ((inject_Z z - inject_Z z == 0)%Q) as H0 by ring.
  assert (Qle_bool (inject_Z z - inject_Z z) (1 # 2) = true) as ->.
  { apply Qle_bool_iff. rewrite H0. lra. }
  assert (Qle_bool (1 # 2) (inject_Z z - inject_Z z) = false) as ->.
  { destruct (Qle_bool (1 # 2) (inject_Z z - inject_Z z)) eqn:E; [|done].
    apply Qle_bool_iff in E. rewrite H0 in E. lra. }
  reflexivity.
Qed.

(** Storing an integer of 0..255 in a [Uint8ClampedArray] keeps it. *)
Lemma toUint8Clamped_byte (z : Z) : isByte z -> toUint8Clamped (ofZ z) = z.
Proof.
  intros [Hlo Hhi]. unfold toUint8Clamped, ofZ.
  change 0%Q with (inject_Z 0). change 255%Q with (inject_Z 255).
  rewrite !Qle_bool_inject.
  destruct (Z.leb_spec z 0); [lia|].
  destruct (Z.leb_spec 255 z); [lia|].
  apply roundHalfEven_Z.
Qed.

Lemma toUint8Clamped_isByte (x : num) : isByte (toUint8Clamped x).
Proof.
  unfold isByte, toUint8Clamped. destruct x as [q| | |]; try lia.
  destruct (Qle_bool q 0) eqn:E0; [lia|].
  destruct (Qle_bool 255 q) eqn:E1; [lia|].
  assert (0 < q)%Q as Hq0.
  { apply Qnot_le_lt. intros H. apply Qle_bool_iff in H. congruence. }
  assert (q < 255)%Q as Hq1.
  { apply Qnot_le_lt. intros H. apply Qle_bool_iff in H. congruence. }
  assert (0 <= Qfloor q)%Z as Hf0.
  { change 0%Z with (Qfloor 0). apply Qfloor_resp_le. lra. }
  assert (Qfloor q <= 254)%Z as Hf1.
  { assert (Qfloor q < 255)%Z; [|lia].
    rewrite Zlt_Qlt. eapply Qle_lt_trans; [apply Qfloor_le | exact Hq1]. }
  unfold roundHalfEven.
  repeat match goal with |- context [if ?c then _ else _] => destruct c end;
    lia.
Qed.

(** ** The paper *)

Lemma paperBuffer_shape (paper : RGB) (w h : nat) :
  length (paperBuffer paper w h) = w * h * 4
  /\ forall p, p < w * h ->
       paperBuffer paper w h !! (p * 4)
       = Some (toUint8Clamped (ofZ (r paper)))
       /\ paperBuffer paper w h !! (p * 4 + 1)
          = Some (toUint8Clamped (ofZ (g paper)))
       /\ paperBuffer paper w h !! (p * 4 + 2)
          = Some (toUint8Clamped (ofZ (b paper)))
       /\ paperBuffer paper w h !! (p * 4 + 3) = Some 255%Z.
Proof.
  unfold paperBuffer, paintPaper.
  apply (forRange_inv
           (fun i out =>
              length out = w * h * 4
              /\ forall p, p < i ->
                   out !! (p * 4) = Some (toUint8Clamped (ofZ (r paper)))
                   /\ out !! (p * 4 + 1)
                      = Some (toUint8Clamped (ofZ (g paper)))
                   /\ out !! (p * 4 + 2)
                      = Some (toUint8Clamped (ofZ (b paper)))
                   /\ out !! (p * 4 + 3) = Some 255%Z)).
  - split; [apply length_replicate | intros; lia].
  - intros i out Hi [Hlen Hcells]. split; [by rewrite !length_insert|].
    intros p Hp. destruct (decide (p = i)) as [->|Hne].
    + repeat split.
      * rewrite !list_lookup_insert_ne by lia.
        apply list_lookup_insert_eq. lia.
      * rewrite !list_lookup_insert_ne by lia.
        apply list_lookup_insert_eq. rewrite !length_insert. lia.
      * rewrite !list_lookup_insert_ne by lia.
        apply list_lookup_insert_eq. rewrite !length_insert. lia.
      * apply list_lookup_insert_eq. rewrite !length_insert. lia.
    + destruct (Hcells p ltac:(lia)) as (H0 & H1 & H2 & H3).
      rewrite !list_lookup_insert_ne by lia. done.
Qed.

(** The canvas allocates the buffer of a bitmap that has an area, and only
    of such a bitmap. *)
Lemma createImageData_area (w h : nat) :
  0 < w -> 0 < h ->
  createImageData w h = Normal (replicate (w * h * 4) 0%Z).
Proof.
  intros Hw Hh. unfold createImageData.
  destruct w; [lia|]. destruct h; [lia|]. reflexivity.
Qed.


(** ** What every layer keeps of the output buffer *)

Section PipelineFacts.

Context {R : Rounding}.

Variables Math_cos Math_sin Math_sqrt : num -> num.
Variable Math_PI : num.
Variable Math_random : nat -> Q.

Local Abbreviation composite_pixel := (compositePixel Math_random).
Local Abbreviation composite_layer := (compositeLayer Math_random).
Local Abbreviation ink_layer :=
  (inkLayer Math_cos Math_sin Math_sqrt Math_PI Math_random).
Local Abbreviation process_risograph :=
  (processRisograph Math_cos Math_sin Math_sqrt Math_PI Math_random).

Lemma keptByDeposit_length (len : nat) :
  keptByDeposit (fun out => length out = len).
Proof.
  intros rgb f o q out H. unfold depositInk. by rewrite !length_insert.
Qed.

Lemma keptByDeposit_alpha (p : nat) (v : option Z) :
  keptByDeposit (fun out => out !! (p * 4 + 3) = v).
Proof.
  intros rgb f o q out H. unfold depositInk.
  rewrite !list_lookup_insert_ne by lia. exact H.
Qed.

Lemma keptByDeposit_bytes : keptByDeposit (Forall isByte).
Proof.
  intros rgb f o q out H. unfold depositInk, blendChannel.
  repeat apply Forall_insert; try done; apply toUint8Clamped_isByte.
Qed.

Lemma compositePixel_keeps (P : list Z -> Prop) rgb f grain hm w h ox oy y x
    (st : list Z * nat) :
  keptByDeposit P -> P st.1 ->
  P (composite_pixel rgb f grain hm w h ox oy y x st).1.
Proof.
  intros HP Hst. destruct st as [out k]. unfold compositePixel.
  destruct (shiftedOpacity hm w h ox oy y x) as [o|]; [|done].
  destruct (applyGrain Math_random grain o k) as [o' k'].
  destruct (o' <? _)%num; [done|]. simpl. by apply HP.
Qed.

Lemma compositeLayer_keeps (P : list Z -> Prop) rgb f grain hm w h ox oy
    (st : list Z * nat) :
  keptByDeposit P -> P st.1 ->
  P (composite_layer rgb f grain hm w h ox oy st).1.
Proof.
  intros HP Hst. unfold compositeLayer.
  apply (forRange_inv (fun _ st => P st.1)); [done|].
  intros y st' _ Hst'.
  apply (forRange_inv (fun _ st => P st.1)); [done|].
  intros x st'' _ Hst''. by apply compositePixel_keeps.
Qed.

Lemma inkLayer_keeps (P : list Z -> Prop) options inkRgbs densityMaps w h ci
    (st : list Z * nat) :
  keptByDeposit P -> P st.1 ->
  P (ink_layer options inkRgbs densityMaps w h ci st).1.
Proof.
  intros HP Hst. destruct st as [out k]. unfold inkLayer.
  destruct (registrationOffset Math_random (misregistration options) k)
    as [ox k1].
  destruct (registrationOffset Math_random (misregistration options) k1)
    as [oy k2].
  by apply compositeLayer_keeps.
Qed.

(** The layers of a render, from the paper buffer on. *)
Lemma processRisograph_layers (sourceData : ImageData)
    (options : RisographOptions) :
  0 < width sourceData -> 0 < height sourceData ->
  process_risograph sourceData options
  = Normal
      (mkImageData
         (forRange (length (colors options))
            (ink_layer options (map color (colors options))
               (decomposeColors sourceData (map color (colors options))
                                (mkRGB 255 255 255))
               (width sourceData) (height sourceData))
            (paperBuffer (default DEFAULT_PAPER (paperColor options))
                         (width sourceData) (height sourceData), 0)).1
         (width sourceData) (height sourceData)).
Proof.
  intros Hw Hh. unfold processRisograph.
  rewrite createImageData_area by done.
  fold (paperBuffer (default DEFAULT_PAPER (paperColor options))
                    (width sourceData) (height sourceData)).
  by destruct (forRange _ _ _).
Qed.

(** On a bitmap that has an area the call completes normally, whatever the
    options; the buffer it returns keeps every property of the paper that
    the writes of a pixel keep. *)
Lemma processRisograph_completes (sourceData : ImageData)
    (options : RisographOptions) :
  0 < width sourceData -> 0 < height sourceData ->
  exists out,
    process_risograph sourceData options
    = Normal (mkImageData out (width sourceData) (height sourceData))
    /\ forall P, keptByDeposit P ->
         P (paperBuffer (default DEFAULT_PAPER (paperColor options))
                        (width sourceData) (height sourceData)) ->
         P out.
Proof.
  intros Hw Hh. rewrite processRisograph_layers by done.
  eexists. split; [reflexivity|]. intros P HP H0.
  apply (forRange_inv (fun _ st => P st.1)); [done|].
  intros ci st _ Hst. by apply inkLayer_keeps.
Qed.


End PipelineFacts.

(** ** A pitch of zero *)

Section ZeroPitch.

Context {R : Rounding}.

(** A quotient by 0 is not finite, and the remainder of a number that is not
    finite is [NaN]. *)
Lemma mod1_div_zero (x : num) : mod1 (x / Fin 0)%num = NaN.
Proof.
  destruct x as [a| | |]; unfold JS.div; simpl; try reflexivity.
  by destruct (Z.sgn (Qnum a)).
Qed.

Lemma cellOffset_zero_pitch (rot : num) : cellOffset rot (Fin 0) = NaN.
Proof. unfold cellOffset. by rewrite mod1_div_zero. Qed.

Lemma sub_NaN_l (y : num) : (NaN - y)%num = NaN.
Proof. reflexivity. Qed.

Lemma sub_NaN_r (x : num) : (x - NaN)%num = NaN.
Proof. by destruct x. Qed.

Lemma div_NaN_l (y : num) : (NaN / y)%num = NaN.
Proof. reflexivity. Qed.

Lemma amCoverage_NaN (radius edge : num) : amCoverage NaN radius edge = NaN.
Proof.
  unfold amCoverage, JS.gtb.
  assert (forall y, (NaN <? y)%num = false) as -> by (by intros [| | |]).
  assert (forall y, (y <? NaN)%num = false) as -> by (by intros [| | |]).
  by rewrite sub_NaN_l, div_NaN_l, sub_NaN_r.
Qed.

Variables Math_cos Math_sin Math_sqrt : num -> num.
Variable Math_PI : num.

Lemma halftoneAt_zero_pitch (x y d : num) (options : HalftoneOptions) :
  dotSize options = Fin 0 ->
  Math_sqrt NaN = NaN ->
  halftoneAt Math_cos Math_sin Math_sqrt Math_PI x y d options = NaN.
Proof.
  intros Hp Hsqrt. unfold halftoneAt, rotate. rewrite Hp.
  rewrite !cellOffset_zero_pitch.
  change (NaN * NaN + NaN * NaN)%num with NaN.
  rewrite Hsqrt. apply amCoverage_NaN.
Qed.

(** Without the FM mode, a dot size whose successor is 0 gives an opacity map
    of [NaN]. *)
Lemma applyHalftone_zero_pitch (densityMap : list num) (w h : nat)
    (options : HalftoneOptions) (i : nat) :
  mode options <> Some FM ->
  (dotSize options + ofZ 1)%num = Fin 0 ->
  Math_sqrt NaN = NaN ->
  i < w * h ->
  applyHalftone Math_cos Math_sin Math_sqrt Math_PI densityMap w h options
    !! i = Some NaN.
Proof.
  intros Hmode Hp Hsqrt Hi. unfold applyHalftone.
  assert (forRange h (fun y =>
            forRange w (fun x result =>
              <[ y * w + x :=
                   fround
                     (halftoneAt Math_cos Math_sin Math_sqrt Math_PI
                                 (ofNat x) (ofNat y)
                                 (rd densityMap (y * w + x))
                                 (amOptions options)) ]> result))
            (newFloatArray (w * h)) !! i = Some NaN) as Ham.
  { destruct (fill2D_shape w h
                (fun x y => fround
                              (halftoneAt Math_cos Math_sin Math_sqrt Math_PI
                                          (ofNat x) (ofNat y)
                                          (rd densityMap (y * w + x))
                                          (amOptions options)))
                (newFloatArray (w * h)) (newFloatArray_length _))
      as [_ Hc].
    assert (0 < w) as Hw by (destruct w; lia).
    assert (i = i / w * w + i mod w) as Ei.
    { rewrite (Nat.div_mod_eq i w) at 1. lia. }
    assert (i mod w < w) as Hx by (apply Nat.mod_upper_bound; lia).
    assert (i / w < h) as Hy.
    { apply Nat.Div0.div_lt_upper_bound. lia. }
    rewrite Ei, Hc by done.
    by rewrite halftoneAt_zero_pitch. }
  destruct (mode options) as [[|]|]; [exact Ham | congruence | exact Ham].
Qed.

End ZeroPitch.


Section PipelineClaims.

Context {R : Rounding}.

Variables Math_cos Math_sin Math_sqrt : num -> num.
Variable Math_PI : num.

Local Abbreviation process_risograph :=
  (processRisograph Math_cos Math_sin Math_sqrt Math_PI).

(** ** C6 *)

(** C6.  With an empty ink list the call raises nothing, whatever the input
    bitmap and the rest of the configuration: it returns a bitmap of the
    dimensions of the input in which every pixel is the configured paper
    colour with alpha 255.  The bitmap has an area, as every [ImageData] of
    the platform has. *)
Theorem empty_ink_list_gives_paper (Math_random : nat -> Q)
    (sourceData : ImageData) (options : RisographOptions) :
  colors options = [] ->
  let paper := default DEFAULT_PAPER (paperColor options) in
  let w := width sourceData in
  let h := height sourceData in
  0 < w -> 0 < h ->
  validRGB paper ->
  exists out,
    process_risograph Math_random sourceData options
    = Normal (mkImageData out w h)
    /\ length out = w * h * 4
    /\ forall p, p < w * h ->
         out !! (p * 4) = Some (r paper)
         /\ out !! (p * 4 + 1) = Some (g paper)
         /\ out !! (p * 4 + 2) = Some (b paper)
         /\ out !! (p * 4 + 3) = Some 255%Z.
Proof.
  intros Hinks paper w h Hw Hh (Hr & Hg & Hb).
  exists (paperBuffer paper w h). split.
  - rewrite processRisograph_layers by done. by rewrite Hinks.
  - destruct (paperBuffer_shape paper w h) as [Hlen Hcells].
    split; [exact Hlen|]. intros p Hp.
    destruct (Hcells p Hp) as (H0 & H1 & H2 & H3).
    rewrite toUint8Clamped_byte in H0, H1, H2 by done. done.
Qed.

(** ** C7 and C8: nothing is validated *)

(** C7, as the code has it.  In every arithmetic, a dot pitch that is not
    positive is not rejected: whatever the dot size, on a bitmap that has an
    area the call completes normally, with a bitmap of the dimensions of the
    input, four bytes per pixel and alpha 255; the pitch is carried as it is
    into the halftone screens.  There the division by zero does take place:
    without the FM mode, when the dot size is such that the AM pitch
    [dotSize + 1] is 0, the opacity map of every ink holds [NaN] at every
    pixel, on a platform whose square root of [NaN] is [NaN]. *)
Theorem nonpositive_dot_pitch_is_not_rejected (Math_random : nat -> Q)
    (sourceData : ImageData) (options : RisographOptions) :
  let w := width sourceData in
  let h := height sourceData in
  0 < w -> 0 < h ->
  (exists out,
     process_risograph Math_random sourceData options
     = Normal (mkImageData out w h)
     /\ length out = w * h * 4
     /\ forall p, p < w * h -> out !! (p * 4 + 3) = Some 255%Z)
  /\ (halftoneMode options <> Some FM ->
      (ro_dotSize options + ofZ 1)%num = Fin 0 ->
      Math_sqrt NaN = NaN ->
      forall (densityMap : list num) (angle : num) (i : nat),
        i < w * h ->
        applyHalftone Math_cos Math_sin Math_sqrt Math_PI densityMap w h
          (mkHalftoneOptions (ro_dotSize options) angle (ro_density options)
                             (halftoneMode options)) !! i
        = Some NaN).
Proof.
  intros w h Hw Hh. split.
  - destruct (processRisograph_completes Math_cos Math_sin Math_sqrt Math_PI
                Math_random sourceData options Hw Hh)
      as (out & Hout & Hkeep).
    destruct (paperBuffer_shape (default DEFAULT_PAPER (paperColor options))
                w h) as [Hlen Hcells].
    exists out. split; [exact Hout|]. split.
    + apply (Hkeep (fun out => length out = w * h * 4));
        [apply keptByDeposit_length | exact Hlen].
    + intros p Hp.
      apply (Hkeep (fun out => out !! (p * 4 + 3) = Some 255%Z));
        [apply keptByDeposit_alpha | by apply Hcells].
  - intros Hmode Hp Hsqrt densityMap angle i Hi.
    by apply applyHalftone_zero_pitch.
Qed.


(** ** C10: without grain and misregistration, no draw is made *)

Lemma registrationOffset_zero (Math_random : nat -> Q) (k : nat) :
  registrationOffset Math_random (ofZ 0) k = (ofZ 0, k).
Proof. reflexivity. Qed.

Lemma applyGrain_zero (Math_random : nat -> Q) (opacity : num) (k : nat) :
  applyGrain Math_random (ofZ 0) opacity k = (opacity, k).
Proof. reflexivity. Qed.

Lemma compositeLayer_no_grain (random1 random2 : nat -> Q) rgb f hm w h
    ox oy (st : list Z * nat) :
  compositeLayer random1 rgb f (ofZ 0) hm w h ox oy st
  = compositeLayer random2 rgb f (ofZ 0) hm w h ox oy st.
Proof.
  unfold compositeLayer. apply forRange_ext. intros y st' _.
  apply forRange_ext. intros x [out k] _. unfold compositePixel.
  destruct (shiftedOpacity hm w h ox oy y x) as [o|]; [|done].
  by rewrite !applyGrain_zero.
Qed.

(** C10.  With grain 0 and misregistration 0 the bitmap returned is a
    function of the input bitmap, the inks and the configuration alone: two
    renders that differ only in what [Math.random] would draw return the
    same bytes.  What is left of the pseudo-randomness, [cellHash] and
    [scuffHash], is a function of its integer arguments. *)
Theorem render_is_deterministic (random1 random2 : nat -> Q)
    (sourceData : ImageData) (options : RisographOptions) :
  grain options = ofZ 0 ->
  misregistration options = ofZ 0 ->
  process_risograph random1 sourceData options
  = process_risograph random2 sourceData options.
Proof.
  intros Hgrain Hmis. unfold processRisograph.
  destruct (createImageData _ _) as [out|e]; [|reflexivity].
  erewrite forRange_ext; [reflexivity|].
  intros ci [cur k] _. unfold inkLayer.
  rewrite Hgrain, Hmis, !registrationOffset_zero.
  apply compositeLayer_no_grain.
Qed.

End PipelineClaims.

(** ** Arithmetic on finite numbers *)

Lemma add_Fin a c : (Fin a + Fin c)%num = Fin (Qred (a + c)).
Proof. reflexivity. Qed.

Lemma sub_Fin a c : (Fin a - Fin c)%num = Fin (Qred (a + - c)).
Proof. reflexivity. Qed.

Lemma mul_Fin a c : (Fin a * Fin c)%num = Fin (Qred (a * c)).
Proof. reflexivity. Qed.

Lemma div_255 a : (Fin a / ofZ 255)%num = Fin (Qred (a / 255)).
Proof. reflexivity. Qed.

(** ** C9: the grain *)




(** ** C3: one layer on the output buffer *)

Lemma leb_Fin a c : (Fin a <=? Fin c)%num = Qle_bool a c.
Proof. reflexivity. Qed.

Lemma subscript_integer (q : Q) (z : Z) :
  (q == inject_Z z)%Q -> (0 <= z)%Z -> subscript (Fin q) = Some (Z.to_nat z).
Proof.
  intros Hq Hz. unfold subscript.
  assert (Qfloor q = z) as -> by (rewrite (Qfloor_comp _ _ Hq); apply Qfloor_Z).
  rewrite (proj2 (Qeq_bool_iff _ _) Hq).
  by rewrite (proj2 (Z.leb_le 0 z) Hz).
Qed.

Lemma rdByte_lookup (out : list Z) (i : nat) (z : Z) :
  out !! i = Some z -> rdByte out i = ofZ z.
Proof. intros H. unfold rdByte. by rewrite H. Qed.

Lemma depositInk_cells {R : Rounding} (rgb : RGB) (f o : num) (p : nat)
    (out : list Z) :
  p * 4 + 2 < length out ->
  depositInk rgb f o (p * 4) out !! (p * 4)
  = Some (blendChannel (rdByte out (p * 4)) (transmittance o f (r rgb)))
  /\ depositInk rgb f o (p * 4) out !! (p * 4 + 1)
     = Some (blendChannel (rdByte out (p * 4 + 1))
                          (transmittance o f (g rgb)))
  /\ depositInk rgb f o (p * 4) out !! (p * 4 + 2)
     = Some (blendChannel (rdByte out (p * 4 + 2))
                          (transmittance o f (b rgb)))
  /\ forall i, i <> p * 4 -> i <> p * 4 + 1 -> i <> p * 4 + 2 ->
       depositInk rgb f o (p * 4) out !! i = out !! i.
Proof.
  intros Hlen. unfold depositInk. repeat split.
  - rewrite !list_lookup_insert_ne by lia.
    apply list_lookup_insert_eq. lia.
  - rewrite list_lookup_insert_ne by lia.
    apply list_lookup_insert_eq. rewrite length_insert. lia.
  - apply list_lookup_insert_eq. rewrite !length_insert. lia.
  - intros i H0 H1 H2. by rewrite !list_lookup_insert_ne by lia.
Qed.

Section Layer.

Context {R : Rounding}.

Variable Math_random : nat -> Q.
Variable rgb : RGB.
Variables f grain : num.
Variable halftoneMap : list num.
Variables w h : nat.
Variables ox oy : num.
Variable out : list Z.

Hypothesis out_length : length out = w * h * 4.

Local Abbreviation effect :=
  (pixelEffect Math_random rgb f grain halftoneMap w h ox oy out).
Local Abbreviation step :=
  (compositePixel Math_random rgb f grain halftoneMap w h ox oy).
Local Abbreviation inv :=
  (layerInv Math_random rgb f grain halftoneMap w h ox oy out).

(** One turn of the inner loop, on a buffer in which the pixel still has its
    colour of before the layer. *)
Lemma compositePixel_effect (cur : list Z) (k : nat) (y x : nat) :
  x < w -> y < h ->
  length cur = w * h * 4 ->
  sameRGB out cur (y * w + x) ->
  effect (step y x (cur, k)).1 y x
  /\ forall i, i <> (y * w + x) * 4 -> i <> (y * w + x) * 4 + 1 ->
       i <> (y * w + x) * 4 + 2 ->
       (step y x (cur, k)).1 !! i = cur !! i.
Proof.
  intros Hx Hy Hlen Hsame.
  unfold pixelEffect, compositePixel.
  destruct (shiftedOpacity halftoneMap w h ox oy y x) as [shifted|];
    [|done].
  destruct (applyGrain Math_random grain shifted k) as [o k'] eqn:Eg.
  destruct (o <? lit (4 # 1000))%num eqn:Elow; simpl.
  - split; [|done]. exists k. rewrite Eg. simpl. by rewrite Elow.
  - assert (y * w + x < w * h) as Hp by nia.
    destruct (depositInk_cells rgb f o (y * w + x) cur ltac:(lia))
      as (H0 & H1 & H2 & Hother).
    split; [|exact Hother].
    exists k. rewrite Eg. simpl. rewrite Elow.
    destruct Hsame as (S0 & S1 & S2).
    destruct (lookup_lt_is_Some_2 out ((y * w + x) * 4) ltac:(lia))
      as [pr Hpr].
    destruct (lookup_lt_is_Some_2 out ((y * w + x) * 4 + 1) ltac:(lia))
      as [pg Hpg].
    destruct (lookup_lt_is_Some_2 out ((y * w + x) * 4 + 2) ltac:(lia))
      as [pb Hpb].
    exists pr, pg, pb. repeat split; try done.
    + by rewrite H0, (rdByte_lookup cur _ pr) by congruence.
    + by rewrite H1, (rdByte_lookup cur _ pg) by congruence.
    + by rewrite H2, (rdByte_lookup cur _ pb) by congruence.
Qed.

(** The effect on a pixel only reads the three colour cells of the pixel. *)
Lemma sameRGB_frame (after after' : list Z) (p : nat) :
  sameRGB after after' p -> sameRGB out after p -> sameRGB out after' p.
Proof.
  intros (A0 & A1 & A2) (B0 & B1 & B2). unfold sameRGB.
  by rewrite A0, A1, A2.
Qed.

Lemma effect_frame (after after' : list Z) (y x : nat) :
  sameRGB after after' (y * w + x) -> effect after y x -> effect after' y x.
Proof.
  intros Hsame. unfold pixelEffect.
  destruct (shiftedOpacity halftoneMap w h ox oy y x) as [shifted|];
    [|by apply sameRGB_frame].
  intros (k & Heff). exists k. cbv zeta in *.
  destruct (_ <? lit (4 # 1000))%num; [by eapply sameRGB_frame|].
  destruct Heff as (pr & pg & pb & ? & ? & ? & ? & ? & ?).
  destruct Hsame as (A0 & A1 & A2).
  exists pr, pg, pb. rewrite A0, A1, A2. done.
Qed.

Lemma layerInv_step (st : list Z * nat) (y x : nat) :
  x < w -> y < h ->
  inv (y * w + x) st -> inv (y * w + x + 1) (step y x st).
Proof.
  intros Hx Hy (Hlen & Halpha & Hpix). destruct st as [cur k].
  simpl in Hlen, Halpha, Hpix.
  destruct (compositePixel_effect cur k y x Hx Hy Hlen
              (proj2 (Hpix x y Hx Hy) ltac:(lia))) as [Heff Hother].
  split; [|split].
  - apply (compositePixel_keeps Math_random
             (fun o => length o = w * h * 4));
      [apply keptByDeposit_length | done].
  - intros p. rewrite Hother by lia. apply Halpha.
  - intros x' y' Hx' Hy'.
    destruct (decide (y' * w + x' = y * w + x)) as [E|NE].
    + apply flat_index_inj in E as [-> ->]; [|done|done].
      split; [done | lia].
    + assert (sameRGB cur (step y x (cur, k)).1 (y' * w + x')) as Hsame.
      { unfold sameRGB. by rewrite !Hother by lia. }
      destruct (Hpix x' y' Hx' Hy') as [Hdone Htodo]. split.
      * intros Hlt. eapply effect_frame; [exact Hsame|].
        apply Hdone. lia.
      * intros Hge. eapply sameRGB_frame; [exact Hsame|].
        apply Htodo. lia.
Qed.

Lemma compositeLayer_inv (k : nat) :
  inv (h * w)
    (compositeLayer Math_random rgb f grain halftoneMap w h ox oy (out, k)).
Proof.
  unfold compositeLayer.
  apply (forRange_inv (fun y st => inv (y * w) st)).
  - split; [done|]. split; [done|].
    intros x y Hx Hy. split; [lia | done].
  - intros y st Hy Hinv.
    replace (S y * w) with (y * w + w) by lia.
    apply (forRange_inv (fun x st => inv (y * w + x) st)).
    + by rewrite Nat.add_0_r.
    + intros x st' Hx Hinv'.
      replace (y * w + S x) with (y * w + x + 1) by lia.
      by apply layerInv_step.
Qed.

End Layer.

(** C3.  In every arithmetic, while one ink layer is composited on a buffer
    of four bytes per pixel: every pixel whose defected, shifted and grained
    opacity is not below 0.004 has each of its three colour cells replaced by
    [round(previous * (1 - opacity * inkOpacity * (1 - inkChannel / 255)))],
    computed in that arithmetic from the cell of before the layer and stored
    as a byte; a pixel whose opacity is below 0.004, or whose shifted source
    is outside the bitmap, keeps its three colour cells; no alpha cell is
    written, and the bitmap returned by a render has alpha 255 at every
    pixel. *)
Theorem composite_layer_blend {R : Rounding}
    (Math_cos Math_sin Math_sqrt : num -> num)
    (Math_PI : num) (Math_random : nat -> Q) (rgb : RGB) (f grain : num)
    (halftoneMap : list num) (w h : nat) (ox oy : num) (out : list Z)
    (k : nat) :
  length out = w * h * 4 ->
  let out' :=
    (compositeLayer Math_random rgb f grain halftoneMap w h ox oy
                    (out, k)).1 in
  (length out' = w * h * 4
   /\ forall x y, x < w -> y < h ->
        out' !! ((y * w + x) * 4 + 3) = out !! ((y * w + x) * 4 + 3)
        /\ pixelEffect Math_random rgb f grain halftoneMap w h ox oy
                       out out' y x)
  /\ forall sourceData options,
       0 < width sourceData -> 0 < height sourceData ->
       exists rendered,
         processRisograph Math_cos Math_sin Math_sqrt Math_PI Math_random
                          sourceData options
         = Normal (mkImageData rendered (width sourceData)
                               (height sourceData))
         /\ forall p, p < width sourceData * height sourceData ->
              rendered !! (p * 4 + 3) = Some 255%Z.
Proof.
  intros Hol out'. split.
  - destruct (compositeLayer_inv Math_random rgb f grain halftoneMap w h
                ox oy out Hol k)
      as (Hlen & Halpha & Hpix).
    split; [exact Hlen|]. intros x y Hx Hy. split; [apply Halpha|].
    apply (Hpix x y Hx Hy). nia.
  - intros sourceData options Hw Hh.
    destruct (processRisograph_completes Math_cos Math_sin Math_sqrt Math_PI
                Math_random sourceData options Hw Hh)
      as (rendered & Hr & Hkeep).
    exists rendered. split; [exact Hr|]. intros p Hp.
    apply (Hkeep (fun o => o !! (p * 4 + 3) = Some 255%Z));
      [apply keptByDeposit_alpha|].
    by apply paperBuffer_shape.
Qed.

(** ** The claims on sample inputs *)

(** In binary64, a layer of opacity 1 of the ink (10, 40, 42), at the ink
    opacity 0.5, takes a white pixel to (132, 147, 148). *)
Lemma composite_layer_blend_witness :
  let out' :=
    (compositeLayer (R := binary64) (Approx.constant 0) (mkRGB 10 40 42)
                    (Fin (1 # 2)) (ofZ 0) [Fin 1] 1 1 (ofZ 0) (ofZ 0)
                    ([255; 255; 255; 255]%Z, 0)).1 in
  out' = [132; 147; 148; 255]%Z
  /\ out' !! 3 = Some 255%Z
  /\ pixelEffect (R := binary64) (Approx.constant 0) (mkRGB 10 40 42)
                 (Fin (1 # 2)) (ofZ 0) [Fin 1] 1 1 (ofZ 0) (ofZ 0)
                 [255; 255; 255; 255]%Z out' 0 0.
Proof.
  split; [vm_compute; reflexivity|].
  destruct (composite_layer_blend (R := binary64) Approx.cos Approx.sin
              Approx.sqrt Approx.PI (Approx.constant 0) (mkRGB 10 40 42)
              (Fin (1 # 2)) (ofZ 0) [Fin 1] 1 1 (ofZ 0) (ofZ 0)
              [255; 255; 255; 255]%Z 0) as [[_ H] _]; [reflexivity|].
  apply (H 0 0); lia.
Defined.

(** From the same options, dot pitch 9 at the angle 0, over a 6 x 6 density
    map of ones, in binary64: at pixel (3, 4) the FM screen gives 1, the
    pixel lying well inside the dot of radius 4.5 of its cell of size 9, and
    the AM screen gives 1/2, the pixel lying on the rim of the dot of its
    cell of size 10. *)
Lemma halftone_effective_pitch_witness :
  applyHalftone (R := binary64) Approx.cos Approx.sin Approx.sqrt Approx.PI
                (replicate 36 (Fin 1)) 6 6
                (mkHalftoneOptions (ofZ 9) (ofZ 0) None (Some FM)) !! 27
  = Some (Fin 1)
  /\ applyHalftone (R := binary64) Approx.cos Approx.sin Approx.sqrt
                   Approx.PI (replicate 36 (Fin 1)) 6 6
                   (mkHalftoneOptions (ofZ 9) (ofZ 0) None None) !! 27
     = Some (Fin (1 # 2)).
Proof.
  split.
  - destruct (halftone_effective_pitch (R := binary64) Approx.cos Approx.sin
                Approx.sqrt Approx.PI (replicate 36 (Fin 1)) 6 6
                (mkHalftoneOptions (ofZ 9) (ofZ 0) None (Some FM)) 3 4)
      as [_ H]; [lia | lia |].
    etransitivity; [exact (H eq_refl) | vm_compute; reflexivity].
  - destruct (halftone_effective_pitch (R := binary64) Approx.cos Approx.sin
                Approx.sqrt Approx.PI (replicate 36 (Fin 1)) 6 6
                (mkHalftoneOptions (ofZ 9) (ofZ 0) None None) 3 4)
      as [H _]; [lia | lia |].
    etransitivity; [exact (H ltac:(discriminate)) | vm_compute; reflexivity].
Defined.

Lemma empty_ink_list_gives_paper_witness :
  exists out,
    Approx.render (R := binary64) (Approx.constant 0) Sample.fourPixels
                  (Sample.plainOptions [] (ofZ 4) None)
    = Normal (mkImageData out 2 2)
    /\ out !! 0 = Some 245%Z.
Proof.
  destruct (empty_ink_list_gives_paper (R := binary64) Approx.cos Approx.sin
              Approx.sqrt Approx.PI (Approx.constant 0) Sample.fourPixels
              (Sample.plainOptions [] (ofZ 4) None))
    as (out & Hout & _ & Hcells).
  - reflexivity.
  - simpl. lia.
  - simpl. lia.
  - unfold validRGB, isByte. simpl. lia.
  - exists out. split; [exact Hout|].
    destruct (Hcells 0) as [H0 _]; [simpl; lia | exact H0].
Defined.

(** In binary64, a pitch of -1 is not rejected: the AM screen divides by the
    pitch 0, the opacity is [NaN] and the pixel turns black. *)
Lemma negative_dot_pitch_renders :
  (ro_dotSize (Sample.plainOptions [Sample.inkAt0 Sample.cyan] (ofZ (-1)) None)
   <=? ofZ 0)%num = true
  /\ Approx.render (R := binary64) (Approx.constant 0) Sample.whitePixel
       (Sample.plainOptions [Sample.inkAt0 Sample.cyan] (ofZ (-1)) None)
     = Normal (mkImageData [0; 0; 0; 255]%Z 1 1)
  /\ Approx.render (R := binary64) (Approx.constant 0) Sample.whitePixel
       (Sample.plainOptions [Sample.inkAt0 Sample.cyan] (ofZ (-1)) None)
     <> Throw ConfigurationError
  /\ amEdge (R := binary64) (add (R := binary64) (ofZ (-1)) (ofZ 1)) = PInf
  /\ halftoneAt (R := binary64) Approx.cos Approx.sin Approx.sqrt Approx.PI
                (ofZ 0) (ofZ 0) (Fin 0)
                (amOptions (R := binary64)
                           (mkHalftoneOptions (ofZ (-1)) (ofZ 0) None None))
     = NaN.
Proof.
  assert (Approx.render (R := binary64) (Approx.constant 0) Sample.whitePixel
            (Sample.plainOptions [Sample.inkAt0 Sample.cyan] (ofZ (-1)) None)
          = Normal (mkImageData [0; 0; 0; 255]%Z 1 1)) as Hrender
      by (vm_compute; reflexivity).
  split; [vm_compute; reflexivity|].
  split; [exact Hrender|].
  split; [rewrite Hrender; discriminate|].
  split; vm_compute; reflexivity.
Qed.

Lemma nonpositive_dot_pitch_is_not_rejected_witness :
  (exists out,
     Approx.render (R := binary64) (Approx.constant 0) Sample.whitePixel
       (Sample.plainOptions [Sample.inkAt0 Sample.cyan] (ofZ (-1)) None)
     = Normal (mkImageData out 1 1)
     /\ length out = 4)
  /\ applyHalftone (R := binary64) Approx.cos Approx.sin Approx.sqrt
       Approx.PI [Fin 0] 1 1
       (mkHalftoneOptions (ofZ (-1)) (ofZ 0) None None) !! 0
     = Some NaN.
Proof.
  destruct (nonpositive_dot_pitch_is_not_rejected (R := binary64) Approx.cos
              Approx.sin Approx.sqrt Approx.PI (Approx.constant 0)
              Sample.whitePixel
              (Sample.plainOptions [Sample.inkAt0 Sample.cyan] (ofZ (-1))
                                   None))
    as [(out & Hout & Hlen & _) Hmap]; [simpl; lia | simpl; lia |].
  split.
  - exists out. split; [exact Hout | exact Hlen].
  - apply (Hmap ltac:(discriminate) ltac:(vm_compute; reflexivity) eq_refl
             [Fin 0] (ofZ 0) 0).
    simpl. lia.
Defined.





Lemma render_is_deterministic_witness :
  Approx.render (Approx.constant (9 # 10)) Sample.fourPixels
                (Sample.plainOptions [Sample.inkAt0 Sample.cyan; Sample.inkAt0 Sample.black]
                              (ofZ 4) None)
  = Approx.render (Approx.constant (1 # 10)) Sample.fourPixels
                  (Sample.plainOptions [Sample.inkAt0 Sample.cyan; Sample.inkAt0 Sample.black]
                                (ofZ 4) None).
Proof.
  apply (render_is_deterministic Approx.cos Approx.sin Approx.sqrt Approx.PI
           (Approx.constant (9 # 10)) (Approx.constant (1 # 10))
           Sample.fourPixels
           (Sample.plainOptions [Sample.inkAt0 Sample.cyan; Sample.inkAt0 Sample.black]
                         (ofZ 4) None));
    reflexivity.
Defined.

(** * Further properties of the code *)

(** ** The hashes *)

Lemma wrap32_range (z : Z) : (0 <= wrap32 z < 4294967296)%Z.
Proof. unfold wrap32. apply Z.mod_pos_bound. lia. Qed.

Lemma hashMix_inUnit (h : Z) : inUnit (hashMix h).
Proof.
  unfold hashMix, toUint32Z.
  set (u := wrap32 _). pose proof (wrap32_range
    (xor32 (imul (xor32 h (ushr h 13)) 1274126177)
           (ushr (imul (xor32 h (ushr h 13)) 1274126177) 16))) as Hu.
  fold u in Hu. unfold ofZ. rewrite div_Fin by (unfold inject_Z, Qeq; simpl; lia).
  eexists. split; [reflexivity|]. rewrite Qred_correct.
  assert (0 <= inject_Z u)%Q as H0.
  { change 0%Q with (inject_Z 0). rewrite <- Zle_Qle. lia. }
  assert (inject_Z u < inject_Z 4294967296)%Q as H1.
  { rewrite <- Zlt_Qlt. lia. }
  assert (0 < inject_Z 4294967296)%Q as Hpos by reflexivity.
  split.
  - apply Qle_shift_div_l; [exact Hpos|]. lra.
  - apply Qlt_shift_div_r; [exact Hpos|]. lra.
Qed.

(** Both hashes are finite numbers of [0, 1), whatever numbers they are
    given, the non-finite ones included. *)
Theorem hashes_in_unit_interval (x y seed : num) :
  inUnit (cellHash x y) /\ inUnit (scuffHash x y seed).
Proof. split; apply hashMix_inUnit. Qed.

(** ** The scuff noise *)

Lemma smoothstep_range (f : Q) :
  (0 <= f < 1)%Q -> (0 <= f * f * (3 - 2 * f) <= 1)%Q.
Proof.
  intros [H0 H1]. split.
  - assert (0 <= f * f)%Q by nra. nra.
  - assert (0 <= (1 - f) * (1 - f) * (1 + 2 * f))%Q as H.
    { assert (0 <= (1 - f) * (1 - f))%Q by nra. nra. }
    nra.
Qed.

Lemma mix_range (s a c : Q) :
  (0 <= s <= 1)%Q -> (0 <= a < 1)%Q -> (0 <= c < 1)%Q ->
  (0 <= a * (1 - s) + c * s < 1)%Q.
Proof.
  intros Hs Ha Hc. split; [nra|].
  destruct (Qlt_le_dec s (1 # 2)); nra.
Qed.

Lemma fraction_range (u : Q) : (0 <= u - inject_Z (Qfloor u) < 1)%Q.
Proof.
  pose proof (Qfloor_le u). pose proof (Qlt_floor u).
  rewrite inject_Z_plus in *. change (inject_Z 1) with 1%Q in *. lra.
Qed.

(** The smooth noise of a finite position on cells of a finite size other
    than 0 is a finite number of [0, 1), for every seed: the interpolation
    stays between the four hashes it mixes. *)
Theorem smoothNoise_in_unit_interval (x y cellSize : Q) (seed : num) :
  ~ (cellSize == 0)%Q ->
  inUnit (smoothNoise (Fin x) (Fin y) (Fin cellSize) seed).
Proof.
  intros Hc. unfold smoothNoise, scuffHash.
  repeat match goal with
         | |- context [hashMix ?h] =>
             let q := fresh "n" in
             destruct (hashMix_inUnit h) as (q & -> & ?)
         end.
  rewrite !div_Fin by done.
  set (u := Qred (x / cellSize)). set (v := Qred (y / cellSize)).
  unfold floor, ofZ.
  repeat first [rewrite sub_Fin | rewrite mul_Fin | rewrite add_Fin].
  eexists. split; [reflexivity|]. repeat rewrite Qred_correct.
  pose proof (fraction_range u) as Hfx. pose proof (fraction_range v) as Hfy.
  unfold Qminus in Hfx, Hfy.
  set (fx := (u + - inject_Z (Qfloor u))%Q) in *.
  set (fy := (v + - inject_Z (Qfloor v))%Q) in *.
  change (inject_Z 1) with 1%Q. change (inject_Z 2) with 2%Q.
  change (inject_Z 3) with 3%Q.
  pose proof (smoothstep_range fx Hfx) as Hsx.
  pose proof (smoothstep_range fy Hfy) as Hsy.
  unfold Qminus in Hsx, Hsy.
  set (sx := (fx * fx * (3 + - (2 * fx)))%Q) in *.
  set (sy := (fy * fy * (3 + - (2 * fy)))%Q) in *.
  pose proof (mix_range sx n n0 Hsx ltac:(done) ltac:(done)) as Ha.
  pose proof (mix_range sx n1 n2 Hsx ltac:(done) ltac:(done)) as Hb.
  unfold Qminus in Ha, Hb.
  set (A := (n * (1 + - sx) + n0 * sx)%Q) in *.
  set (B := (n1 * (1 + - sx) + n2 * sx)%Q) in *.
  exact (mix_range sy A B Hsy Ha Hb).
Qed.

(** ** The starved-ink mask *)

Lemma applyScuff_cells (noise dotSize : num) (ci w h : nat)
    (halftoneMap : list num) :
  length (applyScuff noise dotSize ci w h halftoneMap) = length halftoneMap
  /\ ((noise >? ofZ 0)%num = false ->
      applyScuff noise dotSize ci w h halftoneMap = halftoneMap)
  /\ forall i,
       applyScuff noise dotSize ci w h halftoneMap !! i = halftoneMap !! i
       \/ (applyScuff noise dotSize ci w h halftoneMap !! i = Some (ofZ 0)
           /\ (noise >? ofZ 0)%num = true
           /\ exists v, halftoneMap !! i = Some v
                        /\ (v <? lit (4 # 1000))%num = false).
Proof.
  unfold applyScuff. destruct (noise >? ofZ 0)%num eqn:Enoise;
    [|split; [done | split; [done | by left]]].
  set (body := fun (i : nat) (hm : list num) => _).
  assert (length (forRange (w * h) body halftoneMap) = length halftoneMap
          /\ forall i,
               (w * h <= i ->
                forRange (w * h) body halftoneMap !! i = halftoneMap !! i)
               /\ (forRange (w * h) body halftoneMap !! i = halftoneMap !! i
                   \/ (forRange (w * h) body halftoneMap !! i = Some (ofZ 0)
                       /\ exists v, halftoneMap !! i = Some v
                            /\ (v <? lit (4 # 1000))%num = false)))
    as [Hlen Hcells].
  { apply (forRange_inv
             (fun k cur =>
                length cur = length halftoneMap
                /\ forall i,
                     (k <= i -> cur !! i = halftoneMap !! i)
                     /\ (cur !! i = halftoneMap !! i
                         \/ (cur !! i = Some (ofZ 0)
                             /\ exists v, halftoneMap !! i = Some v
                                  /\ (v <? lit (4 # 1000))%num = false)))).
    - split; [done|]. intros i. split; [done | by left].
    - intros k cur Hk [Hlen Hcells]. unfold body.
      assert (rd cur k = rd halftoneMap k) as Hrd.
      { unfold rd. by rewrite (proj1 (Hcells k) ltac:(lia)). }
      rewrite Hrd.
      destruct (rd halftoneMap k <? lit (4 # 1000))%num eqn:Elow.
      { split; [done|]. intros i. destruct (Hcells i) as [Hge Hor].
        split; [intros; apply Hge; lia | done]. }
      destruct (smoothNoise _ _ _ _ <? noise)%num.
      2:{ split; [done|]. intros i. destruct (Hcells i) as [Hge Hor].
          split; [intros; apply Hge; lia | done]. }
      split; [by rewrite length_insert|].
      intros i. destruct (Hcells i) as [Hge Hor].
      destruct (decide (i = k)) as [->|Hne].
      + split; [lia|].
        destruct (halftoneMap !! k) as [v|] eqn:Ev.
        * right. split.
          -- apply list_lookup_insert_eq. rewrite Hlen.
             by apply lookup_lt_Some in Ev.
          -- exists v. split; [done|].
             unfold rd in Elow. by rewrite Ev in Elow.
        * left. rewrite list_insert_ge; [by apply Hge|].
          rewrite Hlen. by apply lookup_ge_None.
      + rewrite list_lookup_insert_ne by done.
        split; [intros; apply Hge; lia | done]. }
  split; [done|]. split; [done|]. intros i.
  destruct (Hcells i) as [_ [H|[H0 Hv]]]; [by left | right; done].
Qed.

(** The mask only erases: it keeps the length of the map, and every cell is
    what it was or, for a cell of at least 0.004 under a positive noise
    threshold, 0; with a threshold that is not positive the map is
    untouched. *)
Theorem applyScuff_only_erases (noise dotSize : num) (ci w h : nat)
    (halftoneMap : list num) :
  length (applyScuff noise dotSize ci w h halftoneMap) = length halftoneMap
  /\ ((noise >? ofZ 0)%num = false ->
      applyScuff noise dotSize ci w h halftoneMap = halftoneMap)
  /\ forall i,
       applyScuff noise dotSize ci w h halftoneMap !! i = halftoneMap !! i
       \/ (applyScuff noise dotSize ci w h halftoneMap !! i = Some (ofZ 0)
           /\ (noise >? ofZ 0)%num = true
           /\ exists v, halftoneMap !! i = Some v
                        /\ (v <? lit (4 # 1000))%num = false).
Proof. apply applyScuff_cells. Qed.

(** ** The antialiased dot *)

Lemma amCoverage_value (d r e : Q) :
  (0 < e)%Q ->
  exists v,
    amCoverage (Fin d) (Fin r) (Fin e) = Fin v
    /\ Qred v = v
    /\ ((d < r - e)%Q -> (v == 1)%Q)
    /\ ((r + e < d)%Q -> (v == 0)%Q)
    /\ ((r - e <= d <= r + e)%Q -> (v == 1 - (d - (r - e)) / (2 * e))%Q).
Proof.
  intros He. unfold amCoverage, JS.gtb. rewrite sub_Fin, add_Fin.
  destruct (Fin d <? Fin (Qred (r + - e)))%num eqn:E1.
  { apply ltb_Fin in E1. rewrite Qred_correct in E1.
    exists 1%Q. split; [done|]. split; [done|]. split; [done|].
    split; [intros; lra | intros; lra]. }
  apply ltb_Fin_false in E1. rewrite Qred_correct in E1.
  destruct (Fin (Qred (r + e)) <? Fin d)%num eqn:E2.
  { apply ltb_Fin in E2. rewrite Qred_correct in E2.
    exists 0%Q. split; [done|]. split; [done|].
    split; [intros; lra|]. split; [done | intros; lra]. }
  apply ltb_Fin_false in E2. rewrite Qred_correct in E2.
  unfold ofZ. rewrite sub_Fin, mul_Fin.
  rewrite div_Fin.
  2:{ rewrite Qred_correct. change (inject_Z 2) with 2%Q. intros H0. lra. }
  rewrite sub_Fin. eexists. split; [reflexivity|].
  split; [apply Qcanon.Qred_involutive|].
  split; [intros; lra|]. split; [intros; lra|]. intros _.
  repeat rewrite Qred_correct.
  change (inject_Z 1) with 1%Q. change (inject_Z 2) with 2%Q.
  unfold Qminus. reflexivity.
Qed.

(** ** The opacity maps *)

Lemma absentOrNotNegative_default density :
  absentOrNotNegative density ->
  exists s, default (ofZ 1) density = Fin s /\ (0 <= s)%Q.
Proof.
  destruct density as [x|]; simpl.
  - done.
  - intros _. exists 1%Q. split; [done | lra].
Qed.

Section ScreenAngle.

Variables Math_cos Math_sin : num -> num.
Variable Math_PI : num.

Hypothesis cos_finite : forall q, isFin (Math_cos (Fin q)).
Hypothesis sin_finite : forall q, isFin (Math_sin (Fin q)).
Hypothesis PI_finite : isFin Math_PI.

Lemma screen_angle_finite (a : Q) :
  isFin (Math_cos (Fin a * Math_PI / ofZ 180)%num)
  /\ isFin (Math_sin (Fin a * Math_PI / ofZ 180)%num).
Proof.
  assert (isFin (Fin a * Math_PI / ofZ 180)%num) as [rad ->].
  { apply isFin_div_ofZ; [|lia]. apply isFin_mul; [by eexists | done]. }
  split; [apply cos_finite | apply sin_finite].
Qed.

End ScreenAngle.

(** ** Zero density under the two screens *)

Lemma Qred_zero (q : Q) : (q == 0)%Q -> Fin (Qred q) = Fin 0.
Proof. intros H. by rewrite (Qred_complete q 0 H). Qed.

Lemma mul_zero_l (c : Q) : (Fin 0 * Fin c)%num = Fin 0.
Proof. rewrite mul_Fin. apply Qred_zero. ring. Qed.

Lemma div_zero_l (p : Q) : ~ (p == 0)%Q -> (Fin 0 / Fin p)%num = Fin 0.
Proof.
  intros Hp. rewrite div_Fin by done. apply Qred_zero.
  unfold Qdiv. ring.
Qed.

Lemma rotate_origin (c s : Q) :
  rotate (Fin c) (Fin s) (ofNat 0) (ofNat 0) = (Fin 0, Fin 0).
Proof.
  unfold rotate.
  change (ofNat 0) with (Fin 0). change (- Fin 0)%num with (Fin 0).
  by rewrite !mul_zero_l.
Qed.

Lemma cellOffset_zero (p : Q) :
  ~ (p == 0)%Q -> cellOffset (Fin 0) (Fin p) = Fin 0.
Proof. intros Hp. unfold cellOffset. by rewrite div_zero_l. Qed.

Section ZeroDensity.

Variables Math_cos Math_sin Math_sqrt : num -> num.
Variable Math_PI : num.

Lemma halftoneAt_origin (p a : Q) (options : HalftoneOptions) :
  (forall q, isFin (Math_cos (Fin q))) ->
  (forall q, isFin (Math_sin (Fin q))) ->
  isFin Math_PI ->
  Math_sqrt (Fin 0) = Fin 0 ->
  dotSize options = Fin p -> (0 < p)%Q ->
  angle options = Fin a ->
  absentOrNotNegative (density options) ->
  halftoneAt Math_cos Math_sin Math_sqrt Math_PI (ofNat 0) (ofNat 0) (Fin 0)
             options = Fin (1 # 2).
Proof.
  intros Hcos Hsin HPI Hsqrt Hp Hpos Ha Hscale. unfold halftoneAt.
  rewrite Hp, Ha.
  destruct (screen_angle_finite Math_cos Math_sin Math_PI Hcos Hsin HPI a)
    as [[c ->] [s ->]].
  rewrite rotate_origin.
  assert (~ (p == 0)%Q) as Hp0 by (intros H0; rewrite H0 in Hpos; lra).
  rewrite cellOffset_zero by done.
  change (Fin 0 * Fin 0 + Fin 0 * Fin 0)%num with (Fin 0). rewrite Hsqrt.
  destruct (absentOrNotNegative_default _ Hscale) as (sc & -> & _).
  rewrite mul_zero_l. change (JS.min (Fin 0) (ofZ 1)) with (Fin 0).
  rewrite Hsqrt. change (Fin 0 * lit (1 # 2))%num with (Fin 0).
  unfold amEdge. exact_lit. rewrite div_Fin by done.
  set (e := Qred ((1 # 2) / p)).
  assert (0 < e)%Q as He.
  { unfold e. rewrite Qred_correct. apply Qlt_shift_div_l; lra. }
  destruct (amCoverage_value 0 0 e He) as (v & -> & Hcan & _ & _ & Hrim).
  rewrite <- Hcan. f_equal.
  rewrite (Qred_complete v (1 # 2)); [reflexivity|].
  rewrite Hrim by lra. field. lra.
Qed.

End ZeroDensity.

Lemma round_in_bounds (x : num) (n : nat) :
  (round x >=? ofZ 0)%num && (round x <? ofNat n)%num = true ->
  exists z, round x = ofZ z /\ (0 <= z < Z.of_nat n)%Z.
Proof.
  destruct x as [q| | |]; unfold round.
  - set (z := Qfloor (q + (1 # 2))). intros H.
    apply andb_true_iff in H as [H0 H1].
    exists z. split; [done|]. unfold JS.geb, ofZ, ofNat in *.
    rewrite leb_Fin, Qle_bool_inject in H0. apply Z.leb_le in H0.
    apply ltb_Fin in H1. rewrite <- Zlt_Qlt in H1. lia.
  - intros H. apply andb_true_iff in H as [_ H]. discriminate H.
  - intros H. apply andb_true_iff in H as [H _]. discriminate H.
  - intros H. apply andb_true_iff in H as [H _]. discriminate H.
Qed.

Lemma rdAt_cell (a : list num) (w h : nat) (zx zy : Z) (v : num) :
  length a = w * h -> Forall (fun x => x = v) a ->
  (0 <= zx < Z.of_nat w)%Z -> (0 <= zy < Z.of_nat h)%Z ->
  rdAt a (ofZ zy * ofNat w + ofZ zx)%num = v.
Proof.
  intros Hlen Hall Hx Hy. unfold ofNat, ofZ. rewrite mul_Fin, add_Fin.
  unfold rdAt.
  rewrite (subscript_integer _ (zy * Z.of_nat w + zx)%Z); [| |nia].
  - unfold rd.
    destruct (a !! Z.to_nat (zy * Z.of_nat w + zx)) as [x|] eqn:Ex.
    + simpl. eapply (Forall_lookup_1 _ _ _ _ Hall Ex).
    + apply lookup_ge_None in Ex. nia.
  - rewrite !Qred_correct. by rewrite inject_Z_plus, inject_Z_mult.
Qed.

(** Over a density map of zeros no candidate cell holds a dot. *)
Lemma fmCandidate_no_dot (Math_sqrt : num -> num) (densityMap : list num)
    (w h : nat) (options : HalftoneOptions) (c s rx ry gx gy : num)
    (dy dx : Z) (m : num) :
  absentOrNotNegative (density options) ->
  length densityMap = w * h ->
  Forall (fun v => v = Fin 0) densityMap ->
  fmCandidate Math_sqrt densityMap w h options c s rx ry gx gy dy dx m = m.
Proof.
  intros Hscale Hlen Hzero. unfold fmCandidate.
  destruct (_ >? _)%num; [done|].
  set (imgX := round _). set (imgY := round _).
  assert ((if (imgX >=? ofZ 0)%num && (imgX <? ofNat w)%num
              && (imgY >=? ofZ 0)%num && (imgY <? ofNat h)%num
           then rdAt densityMap (imgY * ofNat w + imgX)%num
           else ofZ 0) = Fin 0) as ->.
  { destruct ((imgX >=? ofZ 0)%num && (imgX <? ofNat w)%num
              && (imgY >=? ofZ 0)%num && (imgY <? ofNat h)%num) eqn:E;
      [|done].
    rewrite <- andb_assoc in E. apply andb_true_iff in E as [Ex Ey].
    unfold imgX, imgY in *.
    destruct (round_in_bounds _ _ Ex) as (zx & -> & Hzx).
    destruct (round_in_bounds _ _ Ey) as (zy & -> & Hzy).
    by apply (rdAt_cell densityMap w h). }
  destruct (absentOrNotNegative_default _ Hscale) as (sc & -> & _).
  rewrite mul_zero_l. change (JS.min (Fin 0) (ofZ 1)) with (Fin 0).
  unfold cellHash.
  destruct (hashMix_inUnit
              (toInt32 ((gx + ofZ dx) * ofZ 374761393
                        + (gy + ofZ dy) * ofZ 668265263)%num))
    as (q & -> & Hq).
  rewrite leb_Fin. rewrite (proj2 (Qle_bool_iff 0 q)) by lra. done.
Qed.

Section ZeroDensityMaps.

Variables Math_cos Math_sin Math_sqrt : num -> num.
Variable Math_PI : num.

Lemma applyFMHalftone_zero (densityMap : list num) (w h : nat)
    (options : HalftoneOptions) :
  absentOrNotNegative (density options) ->
  length densityMap = w * h ->
  Forall (fun v => v = Fin 0) densityMap ->
  applyFMHalftone Math_cos Math_sin Math_sqrt Math_PI densityMap w h options
  = newFloatArray (w * h).
Proof.
  intros Hscale Hlen Hzero. unfold applyFMHalftone.
  apply (forRange_inv (fun _ res => res = newFloatArray (w * h))); [done|].
  intros y res _ ->.
  apply (forRange_inv (fun _ res => res = newFloatArray (w * h))); [done|].
  intros x res _ ->.
  assert (fmPixel Math_cos Math_sin Math_sqrt Math_PI densityMap w h options
                  x y = Fin 0) as ->.
  { unfold fmPixel. destruct (rotate _ _ _ _) as [rx ry]. simpl.
    by rewrite !(fmCandidate_no_dot Math_sqrt densityMap w h options). }
  apply insert_replicate.
Qed.

(** In FM mode a density map of zeros gives an opacity map of zeros,
    whatever the pitch, the angle and the platform's functions. *)
Theorem fm_zero_density_has_no_dot (densityMap : list num) (w h : nat)
    (options : HalftoneOptions) :
  mode options = Some FM ->
  absentOrNotNegative (density options) ->
  length densityMap = w * h ->
  Forall (fun v => v = Fin 0) densityMap ->
  applyHalftone Math_cos Math_sin Math_sqrt Math_PI densityMap w h options
  = replicate (w * h) (Fin 0).
Proof.
  intros Hmode Hscale Hlen Hzero. unfold applyHalftone. rewrite Hmode.
  by apply applyFMHalftone_zero.
Qed.

(** In AM mode the first pixel of the opacity map is 1/2 where its density
    is 0: the pixel is the centre of a cell, and the antialiased rim of a dot
    of radius 0 covers it by half. *)
Theorem am_zero_density_covers_origin (densityMap : list num) (w h : nat)
    (p a : Q) (options : HalftoneOptions) :
  (forall q, isFin (Math_cos (Fin q))) ->
  (forall q, isFin (Math_sin (Fin q))) ->
  isFin Math_PI ->
  Math_sqrt (Fin 0) = Fin 0 ->
  mode options <> Some FM ->
  dotSize options = Fin p -> (-1 < p)%Q ->
  angle options = Fin a ->
  absentOrNotNegative (density options) ->
  0 < w -> 0 < h ->
  densityMap !! 0 = Some (Fin 0) ->
  applyHalftone Math_cos Math_sin Math_sqrt Math_PI densityMap w h options
    !! 0 = Some (Fin (1 # 2)).
Proof.
  intros Hcos Hsin HPI Hsqrt Hmode Hp Hpos Ha Hscale Hw Hh Hd.
  unfold applyHalftone.
  assert (forRange h (fun y =>
            forRange w (fun x result =>
              <[ y * w + x :=
                   fround
                     (halftoneAt Math_cos Math_sin Math_sqrt Math_PI
                                 (ofNat x) (ofNat y)
                                 (rd densityMap (y * w + x))
                                 (amOptions options)) ]> result))
            (newFloatArray (w * h)) !! 0 = Some (Fin (1 # 2))) as Ham.
  { destruct (fill2D_shape w h
                (fun x y =>
                   fround
                     (halftoneAt Math_cos Math_sin Math_sqrt Math_PI
                                 (ofNat x) (ofNat y)
                                 (rd densityMap (y * w + x))
                                 (amOptions options)))
                (newFloatArray (w * h)) (newFloatArray_length _))
      as [_ Hc].
    specialize (Hc 0 0 Hw Hh). simpl in Hc. rewrite Hc. f_equal.
    rewrite (rd_lookup _ _ _ Hd).
    transitivity (fround (Fin (1 # 2))); [f_equal | apply fround_half].
    apply (halftoneAt_origin Math_cos Math_sin Math_sqrt Math_PI
             (Qred (p + 1)) a); try done.
    - simpl. by rewrite Hp.
    - rewrite Qred_correct. lra. }
  destruct (mode options) as [[|]|]; [exact Ham | congruence | exact Ham].
Qed.

End ZeroDensityMaps.

(** ** The registration offset and the shifted layer *)

(** With a positive finite misregistration [m] and a draw in [0, 1), the
    offset is a whole number of pixels less than [m + 1/2] away from 0, and
    one draw is made. *)
Theorem registrationOffset_within_magnitude (Math_random : nat -> Q) (m : Q)
    (k : nat) :
  (0 < m)%Q ->
  (0 <= Math_random k < 1)%Q ->
  exists z,
    registrationOffset Math_random (Fin m) k = (ofZ z, S k)
    /\ (- m - (1 # 2) < inject_Z z < m + (1 # 2))%Q.
Proof.
  intros Hm Hr. unfold registrationOffset, JS.gtb, ofZ.
  rewrite (proj2 (ltb_Fin (inject_Z 0) m)) by (qlit; lra).
  exact_lit. rewrite sub_Fin, !mul_Fin. unfold round.
  set (v := Qred (Qred (Qred (Math_random k + - (1 # 2)) * inject_Z 2) * m)).
  exists (Qfloor (v + (1 # 2))). split; [reflexivity|].
  assert (v == (2 * Math_random k - 1) * m)%Q as Hv.
  { unfold v. rewrite !Qred_correct. change (inject_Z 2) with 2%Q. ring. }
  assert (- m <= v < m)%Q as Hrange by (rewrite Hv; split; nra).
  pose proof (Qfloor_le (v + (1 # 2))) as Hle.
  pose proof (Qlt_floor (v + (1 # 2))) as Hlt.
  rewrite inject_Z_plus in Hlt. change (inject_Z 1) with 1%Q in Hlt.
  split; lra.
Qed.

(** A misregistration that is not positive, [NaN] included, gives the offset
    0 and makes no draw. *)
Lemma registrationOffset_none (Math_random : nat -> Q) (m : num) (k : nat) :
  (m >? ofZ 0)%num = false ->
  registrationOffset Math_random m k = (ofZ 0, k).
Proof. intros H. unfold registrationOffset. by rewrite H. Qed.

Lemma shiftedOpacity_cases (halftoneMap : list num) (w h : nat) (zx zy : Z)
    (y x : nat) :
  shiftedOpacity halftoneMap w h (ofZ zx) (ofZ zy) y x
  = if decide ((0 <= Z.of_nat x - zx < Z.of_nat w)%Z
               /\ (0 <= Z.of_nat y - zy < Z.of_nat h)%Z)
    then Some (rd halftoneMap
                  (Z.to_nat ((Z.of_nat y - zy) * Z.of_nat w
                             + (Z.of_nat x - zx))))
    else None.
Proof.
  unfold shiftedOpacity, ofNat, ofZ.
  rewrite !sub_Fin. unfold JS.geb. rewrite !leb_Fin.
  set (sx := Qred (inject_Z (Z.of_nat x) + - inject_Z zx)).
  set (sy := Qred (inject_Z (Z.of_nat y) + - inject_Z zy)).
  assert (sx == inject_Z (Z.of_nat x - zx))%Q as Hsx.
  { unfold sx. rewrite Qred_correct.
    unfold Z.sub. by rewrite inject_Z_plus, inject_Z_opp. }
  assert (sy == inject_Z (Z.of_nat y - zy))%Q as Hsy.
  { unfold sy. rewrite Qred_correct.
    unfold Z.sub. by rewrite inject_Z_plus, inject_Z_opp. }
  assert ((Fin sx <? Fin (inject_Z 0))%num
          = negb (0 <=? Z.of_nat x - zx)%Z) as ->.
  { unfold JS.ltb. f_equal.
    rewrite <- Qle_bool_inject. apply eq_true_iff_eq.
    rewrite !Qle_bool_iff. by rewrite Hsx. }
  assert (Qle_bool (inject_Z (Z.of_nat w)) sx
          = (Z.of_nat w <=? Z.of_nat x - zx)%Z) as ->.
  { rewrite <- Qle_bool_inject. apply eq_true_iff_eq.
    rewrite !Qle_bool_iff. by rewrite Hsx. }
  assert ((Fin sy <? Fin (inject_Z 0))%num
          = negb (0 <=? Z.of_nat y - zy)%Z) as ->.
  { unfold JS.ltb. f_equal.
    rewrite <- Qle_bool_inject. apply eq_true_iff_eq.
    rewrite !Qle_bool_iff. by rewrite Hsy. }
  assert (Qle_bool (inject_Z (Z.of_nat h)) sy
          = (Z.of_nat h <=? Z.of_nat y - zy)%Z) as ->.
  { rewrite <- Qle_bool_inject. apply eq_true_iff_eq.
    rewrite !Qle_bool_iff. by rewrite Hsy. }
  destruct (Z.leb_spec 0 (Z.of_nat x - zx));
    destruct (Z.leb_spec (Z.of_nat w) (Z.of_nat x - zx));
    destruct (Z.leb_spec 0 (Z.of_nat y - zy));
    destruct (Z.leb_spec (Z.of_nat h) (Z.of_nat y - zy));
    simpl; case_decide; try lia; try done.
  f_equal. rewrite mul_Fin, add_Fin. unfold rdAt.
  rewrite (subscript_integer _
             ((Z.of_nat y - zy) * Z.of_nat w + (Z.of_nat x - zx))%Z);
    [done | | nia].
  rewrite !Qred_correct, Hsx, Hsy.
  by rewrite inject_Z_plus, inject_Z_mult.
Qed.

(** A layer shifted by whole pixels does not wrap around: pixel [(x, y)]
    reads the cell of [(x - dx, y - dy)] when that lies inside the bitmap,
    and no cell at all otherwise. *)
Theorem shifted_layer_does_not_wrap (halftoneMap : list num) (w h : nat)
    (zx zy : Z) (y x : nat) :
  shiftedOpacity halftoneMap w h (ofZ zx) (ofZ zy) y x
  = if decide ((0 <= Z.of_nat x - zx < Z.of_nat w)%Z
               /\ (0 <= Z.of_nat y - zy < Z.of_nat h)%Z)
    then Some (rd halftoneMap
                  (Z.to_nat ((Z.of_nat y - zy) * Z.of_nat w
                             + (Z.of_nat x - zx))))
    else None.
Proof. apply shiftedOpacity_cases. Qed.

(** ** More on the density maps *)

Lemma sub_self (z : Z) : (ofZ z - ofZ z)%num = Fin 0.
Proof. unfold ofZ. rewrite sub_Fin. apply Qred_zero. ring. Qed.

Lemma mul_zero_r (c : Q) : (Fin c * Fin 0)%num = Fin 0.
Proof. by rewrite mul_comm, mul_zero_l. Qed.

Lemma pixelTarget_same_colour (data : list Z) (paper : RGB) (p : nat)
    (alpha : num) :
  pixelHasColor data p paper -> isFin alpha ->
  pixelTarget data paper (p * 4) alpha = (Fin 0, Fin 0, Fin 0).
Proof.
  intros (Hr & Hg & Hb) [a ->]. unfold pixelTarget.
  rewrite (rdByte_lookup _ _ _ Hr), (rdByte_lookup _ _ _ Hg),
    (rdByte_lookup _ _ _ Hb), !sub_self.
  change (Fin 0 / ofZ 255)%num with (Fin 0).
  by rewrite !mul_zero_l.
Qed.

Lemma dot3_zero_r (u : vec3) :
  finVec u -> dot3 u (Fin 0, Fin 0, Fin 0) = Fin 0.
Proof.
  destruct u as [[u1 u2] u3]. unfold finVec, dot3. simpl.
  intros ([a ->] & [c ->] & [e ->]). by rewrite !mul_zero_r.
Qed.

Lemma guardedRatio_zero (g : num) :
  isFin g -> guardedRatio (Fin 0) g = Fin 0.
Proof.
  intros [q ->]. unfold guardedRatio, JS.gtb. exact_lit.
  destruct (_ <? _)%num eqn:E; [|done].
  apply ltb_Fin in E.
  rewrite div_zero_l by (intros H0; rewrite H0 in E; lra). done.
Qed.

Lemma solvePixel_zero_target (data : list Z) (paper : RGB)
    (inkDeltas : list vec3) (p : nat) (d : list num) :
  Forall finVec inkDeltas ->
  pixelTarget data paper (p * 4) (rdByte data (p * 4 + 3) / ofZ 255)%num
  = (Fin 0, Fin 0, Fin 0) ->
  length d = length inkDeltas ->
  Forall (fun v => v = Fin 0)
         (solvePixel data paper (length inkDeltas) inkDeltas
                     (dotInkInkTable inkDeltas) p d).
Proof.
  intros Hfin Ht Hd. unfold solvePixel. rewrite Ht.
  set (n := length inkDeltas) in *.
  set (G := dotInkInkTable inkDeltas).
  destruct (dotInkInkTable_shape inkDeltas Hfin) as [Hgl Hgf].
  fold G n in Hgl, Hgf.
  set (T := dotInkTargets n inkDeltas (Fin 0, Fin 0, Fin 0)).
  assert (forall i, i < n -> rd T i = Fin 0) as HT.
  { intros i Hi. apply rd_lookup. unfold T, dotInkTargets.
    rewrite (fill_lookup n
               (fun i => dot3 (rdVec inkDeltas i) (Fin 0, Fin 0, Fin 0)))
      by (rewrite ?newFloatArray_length; lia).
    f_equal. apply dot3_zero_r. by apply rdVec_finVec. }
  assert (forall i j, i < n -> j < n -> isFin (rd G (i * n + j))) as HG.
  { intros i j Hi Hj. apply rd_Forall; [done|]. rewrite Hgl. nia. }
  assert (length (initDensities n G T d) = n
          /\ Forall (fun v => v = Fin 0) (initDensities n G T d))
    as [Hil Hiz].
  { unfold initDensities. split.
    - by rewrite (fill_length n
                    (fun i _ => guardedRatio (rd T i) (rd G (i * n + i)))).
    - apply (fill_overwrites (fun v => v = Fin 0) n
               (fun i _ => guardedRatio (rd T i) (rd G (i * n + i))));
        [done|].
      intros i a' Hi _. rewrite HT by done.
      apply guardedRatio_zero. by apply HG. }
  unfold refine.
  apply (forRange_inv
           (fun _ d' => length d' = n /\ Forall (fun v => v = Fin 0) d'));
    [done|].
  intros _ d0 _ [Hl0 Hz0]. unfold sweep.
  apply (forRange_inv
           (fun _ d' => length d' = n /\ Forall (fun v => v = Fin 0) d'));
    [done|].
  intros i d1 Hi [Hl1 Hz1]. unfold updateDensity. split.
  - by rewrite length_insert.
  - apply Forall_insert; [done|].
    assert (forRange n
              (fun j numerator =>
                 if decide (j <> i)
                 then (numerator - rd d1 j * rd G (i * n + j))%num
                 else numerator) (rd T i) = Fin 0) as ->.
    { rewrite HT by done.
      apply (forRange_inv (fun _ x => x = Fin 0)); [done|].
      intros j x Hj ->. destruct (decide (j <> i)); [|done].
      rewrite (rd_Forall (fun v => v = Fin 0) d1 j Hz1) by lia.
      destruct (HG i j Hi Hj) as [gq ->]. by rewrite mul_zero_l. }
    apply guardedRatio_zero. by apply HG.
Qed.

Lemma densityCell_same_colour (data : list Z) (paper : RGB)
    (inkRgbs : list RGB) (i p : nat) :
  p * 4 + 3 < length data -> i < length inkRgbs ->
  pixelHasColor data p paper ->
  densityCell data paper inkRgbs i p = Fin 0.
Proof.
  intros Hp Hi Hcol. unfold densityCell.
  destruct (alphaLow data p); [done|].
  set (deltas := map (inkDelta paper) inkRgbs).
  assert (length deltas = length inkRgbs) as Hdl
      by (unfold deltas; apply length_map).
  assert (Forall finVec deltas) as Hdf.
  { unfold deltas. apply Forall_map, Forall_forall. intros ? _.
    apply inkDelta_finVec. }
  rewrite <- Hdl.
  transitivity (fround (Fin 0)); [f_equal | reflexivity].
  apply (rd_Forall (fun v => v = Fin 0)).
  - apply solvePixel_zero_target; [done | |apply newFloatArray_length].
    apply pixelTarget_same_colour; [done|].
    apply isFin_div_ofZ; [|lia]. apply rdByte_isFin. lia.
  - destruct (solvePixel_in01 data paper (length deltas) deltas
                (dotInkInkTable deltas) p (newFloatArray (length deltas))
                eq_refl Hdf) as [Hl _];
      try (apply dotInkInkTable_shape; done);
      try apply newFloatArray_length; try lia.
Qed.

(** A pixel that has the colour of the reference white gets the density 0
    for every ink, whatever its alpha. *)
Theorem reference_white_has_no_density (imageData : ImageData)
    (inkRgbs : list RGB) (paper : RGB) (i p : nat) :
  length (data imageData) = width imageData * height imageData * 4 ->
  i < length inkRgbs -> p < width imageData * height imageData ->
  pixelHasColor (data imageData) p paper ->
  exists m,
    decomposeColors imageData inkRgbs paper !! i = Some m
    /\ m !! p = Some (Fin 0).
Proof.
  intros Hdata Hi Hp Hcol.
  destruct (decomposeColors_cell imageData inkRgbs paper Hdata) as [_ Hc].
  destruct (Hc i p Hi Hp) as (m & Hm & _ & Hmp).
  exists m. split; [exact Hm|]. rewrite Hmp. f_equal.
  apply densityCell_same_colour; [lia | done | done].
Qed.

Lemma rdByte_agree (data1 data2 : list Z) (i : nat) :
  data1 !! i = data2 !! i -> rdByte data1 i = rdByte data2 i.
Proof. intros H. unfold rdByte. by rewrite H. Qed.

Lemma densityCell_local (data1 data2 : list Z) (paper : RGB)
    (inkRgbs : list RGB) (i p : nat) :
  (forall c, c < 4 -> data1 !! (p * 4 + c) = data2 !! (p * 4 + c)) ->
  densityCell data1 paper inkRgbs i p = densityCell data2 paper inkRgbs i p.
Proof.
  intros Hsame.
  pose proof (Hsame 0 ltac:(lia)) as H0. rewrite Nat.add_0_r in H0.
  pose proof (Hsame 1 ltac:(lia)) as H1.
  pose proof (Hsame 2 ltac:(lia)) as H2.
  pose proof (Hsame 3 ltac:(lia)) as H3.
  unfold densityCell, alphaLow, solvePixel, pixelTarget.
  by rewrite (rdByte_agree _ _ _ H0), (rdByte_agree _ _ _ H1),
    (rdByte_agree _ _ _ H2), (rdByte_agree _ _ _ H3).
Qed.

(** The density of a pixel depends on the four bytes of that pixel alone:
    two bitmaps of the same size that agree on them get the same density
    there for every ink, whatever their other pixels are. *)
Theorem density_depends_on_own_pixel (image1 image2 : ImageData)
    (inkRgbs : list RGB) (paper : RGB) (i p : nat) :
  width image1 = width image2 -> height image1 = height image2 ->
  length (data image1) = width image1 * height image1 * 4 ->
  length (data image2) = width image2 * height image2 * 4 ->
  i < length inkRgbs -> p < width image1 * height image1 ->
  (forall c, c < 4 ->
     data image1 !! (p * 4 + c) = data image2 !! (p * 4 + c)) ->
  exists m1 m2,
    decomposeColors image1 inkRgbs paper !! i = Some m1
    /\ decomposeColors image2 inkRgbs paper !! i = Some m2
    /\ m1 !! p = m2 !! p.
Proof.
  intros Hw Hh Hd1 Hd2 Hi Hp Hsame.
  destruct (decomposeColors_cell image1 inkRgbs paper Hd1) as [_ Hc1].
  destruct (decomposeColors_cell image2 inkRgbs paper Hd2) as [_ Hc2].
  destruct (Hc1 i p Hi Hp) as (m1 & Hm1 & _ & Hp1).
  destruct (Hc2 i p Hi ltac:(rewrite <- Hw, <- Hh; exact Hp))
    as (m2 & Hm2 & _ & Hp2).
  exists m1, m2. split; [done|]. split; [done|].
  rewrite Hp1, Hp2. f_equal. by apply densityCell_local.
Qed.

(** An absorption vector is made of rationals in lowest terms. *)
Lemma inkDelta_canonical (paper ink : RGB) :
  exists qr qg qb,
    inkDelta paper ink = (Fin (Qred qr), Fin (Qred qg), Fin (Qred qb))
    /\ (qr == inject_Z (r paper - r ink) / 255)%Q
    /\ (qg == inject_Z (g paper - g ink) / 255)%Q
    /\ (qb == inject_Z (b paper - b ink) / 255)%Q.
Proof.
  unfold inkDelta, ofZ. rewrite !sub_Fin, !div_255.
  eexists _, _, _. split; [reflexivity|].
  repeat split; rewrite Qred_correct; unfold Z.sub;
    by rewrite inject_Z_plus, inject_Z_opp.
Qed.

Lemma mul_one_r (q : Q) : (Fin (Qred q) * Fin 1)%num = Fin (Qred q).
Proof.
  rewrite mul_Fin. f_equal.
  rewrite <- (Qcanon.Qred_involutive q) at 2.
  apply Qred_complete. ring.
Qed.

Lemma channel_times_one (x y : Z) :
  ((ofZ x - ofZ y) / ofZ 255 * Fin 1)%num = ((ofZ x - ofZ y) / ofZ 255)%num.
Proof.
  unfold ofZ at 1 2 4 5. rewrite !sub_Fin, !div_255. apply mul_one_r.
Qed.

Lemma square_of_difference (x y : Z) :
  x <> y -> (1 <= inject_Z (x - y) * inject_Z (x - y))%Q.
Proof.
  intros Hne. rewrite <- inject_Z_mult.
  change 1%Q with (inject_Z 1). rewrite <- Zle_Qle. nia.
Qed.

(** With a single ink that differs from the reference white, an opaque
    pixel of the colour of the ink gets the density 1. *)
Theorem own_colour_has_full_density (imageData : ImageData) (ink paper : RGB)
    (p : nat) :
  length (data imageData) = width imageData * height imageData * 4 ->
  p < width imageData * height imageData ->
  ink <> paper ->
  pixelHasColor (data imageData) p ink ->
  data imageData !! (p * 4 + 3) = Some 255%Z ->
  exists m,
    decomposeColors imageData [ink] paper !! 0 = Some m
    /\ m !! p = Some (Fin 1).
Proof.
  intros Hdata Hp Hne (Hr & Hg & Hb) Halpha.
  destruct (decomposeColors_cell imageData [ink] paper Hdata) as [_ Hc].
  destruct (Hc 0 p ltac:(simpl; lia) Hp) as (m & Hm & _ & Hmp).
  exists m. split; [exact Hm|]. rewrite Hmp. f_equal.
  unfold densityCell, alphaLow.
  rewrite (rdByte_lookup _ _ _ Halpha).
  change (ofZ 255 / ofZ 255)%num with (Fin 1).
  change (Fin 1 <? lit (1 # 100))%num with false.
  change (length [ink]) with 1.
  change (map (inkDelta paper) [ink]) with [inkDelta paper ink].
  rewrite solvePixel_single by reflexivity.
  match goal with
  | |- fround (rd [?v] 0) = _ => change (rd [v] 0) with v
  end.
  rewrite (rdByte_lookup _ _ _ Halpha).
  change (ofZ 255 / ofZ 255)%num with (Fin 1).
  assert (pixelTarget (data imageData) paper (p * 4) (Fin 1)
          = inkDelta paper ink) as ->.
  { unfold pixelTarget.
    rewrite (rdByte_lookup _ _ _ Hr), (rdByte_lookup _ _ _ Hg),
      (rdByte_lookup _ _ _ Hb).
    unfold inkDelta. by rewrite !channel_times_one. }
  destruct (inkDelta_canonical paper ink)
    as (qr & qg & qb & -> & Er & Eg & Eb).
  unfold dot3. simpl. rewrite !mul_Fin, !add_Fin.
  set (G := Qred (Qred (Qred (Qred qr * Qred qr) + Qred (Qred qg * Qred qg))
                  + Qred (Qred qb * Qred qb))).
  assert (G == qr * qr + qg * qg + qb * qb)%Q as HG
      by (unfold G; by rewrite !Qred_correct).
  assert ((1 # 65025) <= G)%Q as Hbig.
  { rewrite HG, Er, Eg, Eb.
    assert (forall z, (inject_Z z / 255 * (inject_Z z / 255)
                       == inject_Z z * inject_Z z * (1 # 65025))%Q) as Hsq
        by (intros z; field).
    rewrite !Hsq.
    assert (forall z, (0 <= inject_Z z * inject_Z z)%Q) as Hnn
        by (intros z; nra).
    pose proof (Hnn (r paper - r ink)%Z) as Nr.
    pose proof (Hnn (g paper - g ink)%Z) as Ng.
    pose proof (Hnn (b paper - b ink)%Z) as Nb.
    assert (r paper <> r ink \/ g paper <> g ink \/ b paper <> b ink)
      as [H|[H|H]].
    { destruct (decide (r paper = r ink)) as [E1|]; [|by left].
      destruct (decide (g paper = g ink)) as [E2|]; [|by right; left].
      destruct (decide (b paper = b ink)) as [E3|]; [|by right; right].
      exfalso. apply Hne. destruct ink, paper. simpl in *. congruence. }
    - pose proof (square_of_difference _ _ H). lra.
    - pose proof (square_of_difference _ _ H). lra.
    - pose proof (square_of_difference _ _ H). lra. }
  unfold guardedRatio, JS.gtb. exact_lit.
  rewrite (proj2 (ltb_Fin _ G)) by lra.
  rewrite div_Fin by (intros H0; rewrite H0 in Hbig; lra).
  rewrite (Qred_complete (G / G) 1) by (field; intros H0; rewrite H0 in Hbig; lra).
  reflexivity.
Qed.

(** ** Ink only darkens *)

Lemma notNegative_mul x y :
  notNegative x -> notNegative y -> notNegative (x * y)%num.
Proof.
  assert (forall q, (0 <= q)%Q -> (0 <= Z.sgn (Qnum q))%Z) as Hsgn.
  { intros q Hq. unfold Qle in Hq. simpl in Hq. lia. }
  destruct x as [a| | |], y as [c| | |]; simpl; try done.
  - intros Ha Hc. rewrite Qred_correct. nra.
  - intros Ha _. unfold JS.mul. simpl. specialize (Hsgn a Ha).
    destruct (Z.sgn (Qnum a)); simpl; try done; lia.
  - intros _ Hc. unfold JS.mul. simpl. specialize (Hsgn c Hc).
    destruct (Z.sgn (Qnum c)); simpl; try done; lia.
Qed.

Lemma one_minus_atMost u : notNegative u -> atMost 1 (ofZ 1 - u)%num.
Proof.
  destruct u as [q| | |]; simpl; try done.
  intros Hq. unfold ofZ; try rewrite sub_Fin; simpl; rewrite Qred_correct.
  change (inject_Z 1) with 1%Q. lra.
Qed.

Lemma byte_mul_atMost (prev : Z) (t : num) :
  isByte prev -> atMost 1 t -> atMost (inject_Z prev) (ofZ prev * t)%num.
Proof.
  intros [Hp _] Ht.
  assert (0 <= inject_Z prev)%Q as HP.
  { change 0%Q with (inject_Z 0). by rewrite <- Zle_Qle. }
  destruct t as [q| | |]; simpl in *; try done.
  - rewrite Qred_correct. nra.
  - unfold JS.mul, ofZ. simpl.
    destruct prev; simpl; try done; lia.
Qed.

Lemma stored_atMost (prev : Z) (x : num) :
  isByte prev -> atMost (inject_Z prev) x ->
  (toUint8Clamped (round x) <= prev)%Z.
Proof.
  intros [Hp0 Hp1] Hx.
  destruct x as [q| | |]; cbn [atMost] in Hx;
    [| done | cbn [round toUint8Clamped]; lia ..].
  change (round (Fin q)) with (ofZ (Qfloor (q + (1 # 2)))).
  set (z := Qfloor (q + (1 # 2))).
  assert (z <= prev)%Z as Hz.
  { assert (Qfloor (inject_Z prev + (1 # 2)) = prev) as <-.
    { apply Z.le_antisymm.
      - assert (Qfloor (inject_Z prev + (1 # 2)) < prev + 1)%Z; [|lia].
        rewrite Zlt_Qlt, inject_Z_plus.
        eapply Qle_lt_trans; [apply Qfloor_le|].
        change (inject_Z 1) with 1%Q. lra.
      - rewrite <- (Qfloor_Z prev) at 1. apply Qfloor_resp_le. lra. }
    apply Qfloor_resp_le. lra. }
  unfold toUint8Clamped, ofZ.
  change 0%Q with (inject_Z 0). change 255%Q with (inject_Z 255).
  rewrite !Qle_bool_inject.
  destruct (Z.leb_spec z 0); [lia|].
  destruct (Z.leb_spec 255 z); [lia|].
  rewrite roundHalfEven_Z. lia.
Qed.

Lemma blendChannel_atMost (prev ink : Z) (f : Q) (o : num) :
  isByte prev -> isByte ink -> (0 <= f)%Q -> notNegative o ->
  (blendChannel (ofZ prev) (transmittance o (Fin f) ink) <= prev)%Z.
Proof.
  intros Hprev [Hi0 Hi1] Hf Ho. unfold blendChannel.
  apply stored_atMost; [done|]. apply byte_mul_atMost; [done|].
  unfold transmittance. apply one_minus_atMost.
  repeat apply notNegative_mul; try done.
  unfold ofZ. rewrite div_255, sub_Fin. simpl. rewrite !Qred_correct.
  change (inject_Z 1) with 1%Q.
  assert (inject_Z ink <= 255)%Q.
  { change 255%Q with (inject_Z 255). by rewrite <- Zle_Qle. }
  assert (inject_Z ink / 255 <= 1)%Q by (apply Qle_shift_div_r; lra).
  lra.
Qed.

Lemma opacity_notNegative (o : num) :
  (o <? lit (4 # 1000))%num = false -> notNegative o.
Proof.
  exact_lit. destruct o as [q| | |]; simpl; try done.
  intros H. apply ltb_Fin_false in H. lra.
Qed.

Lemma noBrighter_refl (out : list Z) : noBrighter out out.
Proof. split; [done|]. intros i v u Hv Hu. rewrite Hv in Hu. by inversion Hu. Qed.

Lemma noBrighter_insert (base cur : list Z) (j : nat) (x : Z) :
  noBrighter base cur ->
  (forall c, cur !! j = Some c -> (x <= c)%Z) ->
  noBrighter base (<[ j := x ]> cur).
Proof.
  intros [Hlen Hle] Hx. split; [by rewrite length_insert|].
  intros i v u Hv Hu. destruct (decide (i = j)) as [->|Hne].
  - destruct (cur !! j) as [c|] eqn:Ec.
    + rewrite list_lookup_insert_eq in Hv by (by apply lookup_lt_Some in Ec).
      inversion Hv; subst v. specialize (Hx c eq_refl).
      specialize (Hle j c u Ec Hu). lia.
    + rewrite list_insert_ge in Hv by (by apply lookup_ge_None).
      congruence.
  - rewrite list_lookup_insert_ne in Hv by done. by eapply Hle.
Qed.

Lemma depositInk_noBrighter (base cur : list Z) (rgb : RGB) (f : Q)
    (o : num) (q : nat) :
  validRGB rgb -> (0 <= f)%Q -> notNegative o ->
  Forall isByte cur -> noBrighter base cur ->
  noBrighter base (depositInk rgb (Fin f) o (q * 4) cur).
Proof.
  intros (Vr & Vg & Vb) Hf Ho Hbytes Hbase. unfold depositInk.
  assert (forall j c ink, isByte ink -> cur !! j = Some c ->
            (blendChannel (rdByte cur j) (transmittance o (Fin f) ink)
             <= c)%Z) as Hblend.
  { intros j c ink Hink Hc. rewrite (rdByte_lookup _ _ _ Hc).
    apply blendChannel_atMost; try done.
    eapply Forall_lookup_1; eauto. }
  repeat apply noBrighter_insert; try done.
  - intros c Hc. by apply Hblend.
  - intros c Hc. rewrite list_lookup_insert_ne in Hc by lia.
    by apply Hblend.
  - intros c Hc. rewrite !list_lookup_insert_ne in Hc by lia.
    by apply Hblend.
Qed.

Lemma paperBuffer_bytes (paper : RGB) (w h : nat) :
  Forall isByte (paperBuffer paper w h).
Proof.
  unfold paperBuffer.
  apply (forRange_inv (fun _ out => Forall isByte out)).
  - apply Forall_replicate. unfold isByte. lia.
  - intros i out _ Hout.
    repeat apply Forall_insert; try done; apply toUint8Clamped_isByte.
Qed.

Section Darkening.

Variables Math_cos Math_sin Math_sqrt : num -> num.
Variable Math_PI : num.
Variable Math_random : nat -> Q.

Lemma compositeLayer_darkened (base : list Z) (rgb : RGB) (f : Q)
    (grain : num) (hm : list num) (w h : nat) (ox oy : num)
    (st : list Z * nat) :
  validRGB rgb -> (0 <= f)%Q ->
  darkened base st.1 ->
  darkened base
    (compositeLayer Math_random rgb (Fin f) grain hm w h ox oy st).1.
Proof.
  intros Hrgb Hf Hst. unfold compositeLayer.
  apply (forRange_inv (fun _ st => darkened base st.1)); [done|].
  intros y st' _ Hst'.
  apply (forRange_inv (fun _ st => darkened base st.1)); [done|].
  intros x [cur k] _ [Hbytes Hbase]. unfold compositePixel.
  destruct (shiftedOpacity hm w h ox oy y x) as [o|]; [|done].
  destruct (applyGrain Math_random grain o k) as [o' k'].
  destruct (o' <? lit (4 # 1000))%num eqn:Elow; [done|]. simpl. split.
  - by apply keptByDeposit_bytes.
  - apply depositInk_noBrighter; try done. by apply opacity_notNegative.
Qed.

Lemma inkOpacity_default (inkOpacity : option num) :
  absentOrNotNegative inkOpacity ->
  exists f, default (lit (85 # 100)) inkOpacity = Fin f /\ (0 <= f)%Q.
Proof.
  destruct inkOpacity as [x|]; simpl; [done|].
  intros _. exists (17 # 20). split; [reflexivity | lra].
Qed.

Lemma processRisograph_darkened (sourceData : ImageData)
    (options : RisographOptions) :
  0 < width sourceData -> 0 < height sourceData ->
  absentOrNotNegative (inkOpacity options) ->
  Forall validRGB (map color (colors options)) ->
  exists out,
    processRisograph Math_cos Math_sin Math_sqrt Math_PI Math_random
                     sourceData options
    = Normal (mkImageData out (width sourceData) (height sourceData))
    /\ darkened (paperBuffer (default DEFAULT_PAPER (paperColor options))
                             (width sourceData) (height sourceData)) out.
Proof.
  intros Hw Hh Hf Hinks. rewrite processRisograph_layers by done.
  set (base := paperBuffer _ _ _).
  set (layers := forRange _ _ _).
  assert (darkened base layers.1) as Hd.
  { unfold layers.
    apply (forRange_inv (fun _ st => darkened base st.1)).
    - split; [apply paperBuffer_bytes | apply noBrighter_refl].
    - intros ci [cur k] _ Hcur. unfold inkLayer.
      destruct (registrationOffset _ _ k) as [ox k1].
      destruct (registrationOffset _ _ k1) as [oy k2].
      destruct (inkOpacity_default _ Hf) as (f & -> & Hf0).
      apply compositeLayer_darkened; try done.
      destruct (map color (colors options) !! ci) as [c|] eqn:Ec; simpl.
      + eapply Forall_lookup_1; eauto.
      + unfold validRGB, isByte. simpl. lia. }
  by exists layers.1.
Qed.

(** Ink only darkens: on a bitmap that has an area, with an ink opacity that
    is left out or not negative and inks whose channels are bytes, the
    render completes with a buffer of bytes as long as the paper buffer, and
    no byte of it is above the byte that the plain paper has there. *)
Theorem ink_never_brightens (sourceData : ImageData)
    (options : RisographOptions) :
  0 < width sourceData -> 0 < height sourceData ->
  absentOrNotNegative (inkOpacity options) ->
  Forall validRGB (map color (colors options)) ->
  exists out,
    processRisograph Math_cos Math_sin Math_sqrt Math_PI Math_random
                     sourceData options
    = Normal (mkImageData out (width sourceData) (height sourceData))
    /\ darkened (paperBuffer (default DEFAULT_PAPER (paperColor options))
                             (width sourceData) (height sourceData)) out.
Proof. apply processRisograph_darkened. Qed.

End Darkening.

(** ** A blank image *)

Lemma densityCell_blank (data : list Z) (inkRgbs : list RGB) (i p : nat) :
  p * 4 + 3 < length data -> i < length inkRgbs ->
  blankPixel data p ->
  densityCell data (mkRGB 255 255 255) inkRgbs i p = Fin 0.
Proof.
  intros Hp Hi [Hlow|Hcol].
  - unfold densityCell. by rewrite Hlow.
  - by apply densityCell_same_colour.
Qed.

Lemma decomposeColors_blank (imageData : ImageData) (inkRgbs : list RGB)
    (i : nat) :
  length (data imageData) = width imageData * height imageData * 4 ->
  (forall p, p < width imageData * height imageData ->
             blankPixel (data imageData) p) ->
  i < length inkRgbs ->
  exists m,
    decomposeColors imageData inkRgbs (mkRGB 255 255 255) !! i = Some m
    /\ length m = width imageData * height imageData
    /\ Forall (fun v => v = Fin 0) m.
Proof.
  intros Hdata Hblank Hi.
  destruct (decomposeColors_cell imageData inkRgbs (mkRGB 255 255 255) Hdata)
    as [_ Hc].
  destruct (width imageData * height imageData) as [|pc] eqn:Epc.
  - exists []. unfold decomposeColors. rewrite Epc.
    split; [|split; [done | constructor]].
    change (forRange 0 ?f ?s) with s. cbn [fst].
    destruct (lookup_lt_is_Some_2 inkRgbs i Hi) as [c Hc'].
    change (map ?f ?l) with (f <$> l).
    by rewrite list_lookup_fmap, Hc'.
  - destruct (Hc i 0 Hi ltac:(lia)) as (m & Hm & Hlen & _).
    exists m. split; [done|]. split; [done|].
    apply Forall_lookup_2. intros p v Hv.
    assert (p < S pc) as Hp by (rewrite <- Hlen; by eapply lookup_lt_Some).
    destruct (Hc i p Hi Hp) as (m' & Hm' & _ & Hmp).
    rewrite Hm in Hm'. inversion Hm'; subst m'.
    rewrite Hv in Hmp. inversion Hmp.
    apply densityCell_blank; [lia | done |].
    apply Hblank. lia.
Qed.

Lemma applyScuff_zero (noise dotSize : num) (ci w h n : nat) :
  applyScuff noise dotSize ci w h (replicate n (Fin 0)) = replicate n (Fin 0).
Proof.
  destruct (applyScuff_cells noise dotSize ci w h (replicate n (Fin 0)))
    as (_ & _ & Hcells).
  apply list_eq. intros i.
  destruct (Hcells i) as [H|(H & _ & v & Hv & _)]; [done|].
  rewrite H. apply lookup_replicate in Hv as [-> _].
  symmetry. apply lookup_replicate.
  split; [done|]. apply lookup_lt_Some in H.
  destruct (applyScuff_cells noise dotSize ci w h (replicate n (Fin 0)))
    as (Hlen & _). by rewrite Hlen, length_replicate in H.
Qed.

Lemma registrationOffset_integer (Math_random : nat -> Q) (m : Q) (k : nat) :
  exists z k', registrationOffset Math_random (Fin m) k = (ofZ z, k').
Proof.
  unfold registrationOffset.
  destruct (Fin m >? ofZ 0)%num; [|by exists 0%Z, k].
  exact_lit. unfold ofZ. rewrite sub_Fin, !mul_Fin.
  by eexists _, _.
Qed.

Section BlankImage.

Variables Math_cos Math_sin Math_sqrt : num -> num.
Variable Math_PI : num.
Variable Math_random : nat -> Q.

Lemma compositeLayer_zero (rgb : RGB) (f grain : num) (w h : nat)
    (zx zy : Z) (out : list Z) (k : nat) :
  (grain >? ofZ 0)%num = false ->
  compositeLayer Math_random rgb f grain (replicate (w * h) (Fin 0)) w h
                 (ofZ zx) (ofZ zy) (out, k)
  = (out, k).
Proof.
  intros Hgrain. unfold compositeLayer.
  apply (forRange_inv (fun _ st => st = (out, k))); [done|].
  intros y st Hy ->.
  apply (forRange_inv (fun _ st => st = (out, k))); [done|].
  intros x st Hx ->. unfold compositePixel.
  rewrite shiftedOpacity_cases. case_decide as Hin; [|done].
  unfold applyGrain. rewrite Hgrain.
  assert (rd (replicate (w * h) (Fin 0))
             (Z.to_nat ((Z.of_nat y - zy) * Z.of_nat w + (Z.of_nat x - zx)))
          = Fin 0) as ->.
  { unfold rd. rewrite (proj2 (lookup_replicate (w * h) (Fin 0) (Fin 0) _));
      [done|].
    split; [done|]. nia. }
  done.
Qed.

Lemma inkLayer_blank (sourceData : ImageData) (options : RisographOptions)
    (ci : nat) (m : Q) (out : list Z) (k : nat) :
  length (data sourceData) = width sourceData * height sourceData * 4 ->
  (forall p, p < width sourceData * height sourceData ->
             blankPixel (data sourceData) p) ->
  halftoneMode options = Some FM ->
  absentOrNotNegative (ro_density options) ->
  misregistration options = Fin m ->
  (grain options >? ofZ 0)%num = false ->
  ci < length (colors options) ->
  exists k',
    inkLayer Math_cos Math_sin Math_sqrt Math_PI Math_random options
             (map color (colors options))
             (decomposeColors sourceData (map color (colors options))
                              (mkRGB 255 255 255))
             (width sourceData) (height sourceData) ci (out, k)
    = (out, k').
Proof.
  intros Hdata Hblank Hmode Hscale Hmis Hgrain Hci. unfold inkLayer.
  destruct (decomposeColors_blank sourceData (map color (colors options)) ci
              Hdata Hblank) as (dm & -> & Hlen & Hzero);
    [by rewrite length_map|].
  cbn [default].
  unfold applyHalftone. cbn [mode]. rewrite Hmode.
  rewrite applyFMHalftone_zero by done.
  unfold newFloatArray. rewrite applyScuff_zero, Hmis.
  destruct (registrationOffset_integer Math_random m k) as (zx & k1 & ->).
  destruct (registrationOffset_integer Math_random m k1) as (zy & k2 & ->).
  exists k2. by apply compositeLayer_zero.
Qed.

Lemma processRisograph_blank (sourceData : ImageData)
    (options : RisographOptions) (m : Q) :
  0 < width sourceData -> 0 < height sourceData ->
  length (data sourceData) = width sourceData * height sourceData * 4 ->
  (forall p, p < width sourceData * height sourceData ->
             blankPixel (data sourceData) p) ->
  halftoneMode options = Some FM ->
  absentOrNotNegative (ro_density options) ->
  misregistration options = Fin m ->
  (grain options >? ofZ 0)%num = false ->
  processRisograph Math_cos Math_sin Math_sqrt Math_PI Math_random
                   sourceData options
  = Normal (mkImageData
              (paperBuffer (default DEFAULT_PAPER (paperColor options))
                           (width sourceData) (height sourceData))
              (width sourceData) (height sourceData)).
Proof.
  intros Hw Hh Hdata Hblank Hmode Hscale Hmis Hgrain.
  rewrite processRisograph_layers by done.
  set (base := paperBuffer _ _ _).
  set (layers := forRange _ _ _).
  assert (layers.1 = base) as Hl.
  { unfold layers.
    apply (forRange_inv (fun _ st => st.1 = base)); [done|].
    intros ci [cur k] Hci Hcur. simpl in Hcur. subst cur.
    by destruct (inkLayer_blank sourceData options ci m base k)
      as (k' & ->). }
  by rewrite Hl.
Qed.

(** A blank image prints nothing in FM mode: on a bitmap that has an area,
    when every pixel is transparent or white, the density scale is left out
    or not negative, the misregistration is finite and the grain is not
    positive, the render is the plain paper, whatever the inks, the pitch,
    the angles, the noise and the draws. *)
Theorem blank_image_prints_plain_paper (sourceData : ImageData)
    (options : RisographOptions) (m : Q) :
  0 < width sourceData -> 0 < height sourceData ->
  length (data sourceData) = width sourceData * height sourceData * 4 ->
  (forall p, p < width sourceData * height sourceData ->
             blankPixel (data sourceData) p) ->
  halftoneMode options = Some FM ->
  absentOrNotNegative (ro_density options) ->
  misregistration options = Fin m ->
  (grain options >? ofZ 0)%num = false ->
  processRisograph Math_cos Math_sin Math_sqrt Math_PI Math_random
                   sourceData options
  = Normal (mkImageData
              (paperBuffer (default DEFAULT_PAPER (paperColor options))
                           (width sourceData) (height sourceData))
              (width sourceData) (height sourceData)).
Proof. apply processRisograph_blank. Qed.

End BlankImage.

(** ** The further properties on sample inputs *)

Lemma smoothNoise_in_unit_interval_witness :
  inUnit (smoothNoise (Fin 3) (Fin 5) (Fin 6) (ofZ 31)).
Proof.
  apply (smoothNoise_in_unit_interval 3 5 6 (ofZ 31)).
  intros H. vm_compute in H. discriminate H.
Defined.

Lemma fm_zero_density_has_no_dot_witness :
  applyHalftone Approx.cos Approx.sin Approx.sqrt Approx.PI
                [Fin 0; Fin 0] 2 1
                (mkHalftoneOptions (ofZ 4) (ofZ 15) None (Some FM))
  = replicate (2 * 1) (Fin 0).
Proof.
  apply (fm_zero_density_has_no_dot Approx.cos Approx.sin Approx.sqrt
           Approx.PI [Fin 0; Fin 0] 2 1
           (mkHalftoneOptions (ofZ 4) (ofZ 15) None (Some FM))).
  - reflexivity.
  - exact I.
  - reflexivity.
  - repeat constructor.
Defined.

Lemma am_zero_density_covers_origin_witness :
  applyHalftone Approx.cos Approx.sin Approx.sqrt Approx.PI [Fin 0] 1 1
                (mkHalftoneOptions (ofZ 4) (ofZ 15) None None) !! 0
  = Some (Fin (1 # 2)).
Proof.
  apply (am_zero_density_covers_origin Approx.cos Approx.sin Approx.sqrt
           Approx.PI [Fin 0] 1 1 4 15
           (mkHalftoneOptions (ofZ 4) (ofZ 15) None None)).
  - intros q. by eexists.
  - intros q. by eexists.
  - by eexists.
  - vm_compute. reflexivity.
  - discriminate.
  - reflexivity.
  - lra.
  - reflexivity.
  - exact I.
  - lia.
  - lia.
  - reflexivity.
Defined.

Lemma registrationOffset_within_magnitude_witness :
  exists z,
    registrationOffset (Approx.constant (3 # 4)) (Fin 3) 0 = (ofZ z, 1)
    /\ (- 3 - (1 # 2) < inject_Z z < 3 + (1 # 2))%Q.
Proof.
  apply (registrationOffset_within_magnitude (Approx.constant (3 # 4)) 3 0).
  - lra.
  - unfold Approx.constant. lra.
Defined.

Lemma reference_white_has_no_density_witness :
  exists m,
    decomposeColors Sample.fourPixels [Sample.black] Sample.white !! 0
    = Some m
    /\ m !! 1 = Some (Fin 0).
Proof.
  apply (reference_white_has_no_density Sample.fourPixels [Sample.black]
           Sample.white 0 1).
  - reflexivity.
  - simpl. lia.
  - simpl. lia.
  - repeat split.
Defined.

Lemma density_depends_on_own_pixel_witness :
  exists m1 m2,
    decomposeColors Sample.fourPixels [Sample.black] Sample.white !! 0
    = Some m1
    /\ decomposeColors
         (mkImageData [9; 9; 9; 9; 1; 2; 3; 4;
                       0; 255; 255; 128; 0; 0; 0; 255]%Z 2 2)
         [Sample.black] Sample.white !! 0 = Some m2
    /\ m1 !! 2 = m2 !! 2.
Proof.
  apply (density_depends_on_own_pixel Sample.fourPixels
           (mkImageData [9; 9; 9; 9; 1; 2; 3; 4;
                         0; 255; 255; 128; 0; 0; 0; 255]%Z 2 2)
           [Sample.black] Sample.white 0 2).
  - reflexivity.
  - reflexivity.
  - reflexivity.
  - reflexivity.
  - simpl. lia.
  - simpl. lia.
  - intros c Hc. destruct c as [|[|[|[|c]]]]; try reflexivity. lia.
Defined.

Lemma own_colour_has_full_density_witness :
  exists m,
    decomposeColors Sample.blackPixel [Sample.black] Sample.white !! 0
    = Some m
    /\ m !! 0 = Some (Fin 1).
Proof.
  apply (own_colour_has_full_density Sample.blackPixel Sample.black
           Sample.white 0).
  - reflexivity.
  - simpl. lia.
  - discriminate.
  - repeat split.
  - reflexivity.
Defined.

Lemma ink_never_brightens_witness :
  exists out,
    processRisograph Approx.cos Approx.sin Approx.sqrt Approx.PI
                     (Approx.constant 0) Sample.fourPixels
                     (Sample.plainOptions [Sample.inkAt0 Sample.cyan]
                                          (ofZ 4) None)
    = Normal (mkImageData out 2 2)
    /\ darkened (paperBuffer DEFAULT_PAPER 2 2) out.
Proof.
  apply (ink_never_brightens Approx.cos Approx.sin Approx.sqrt Approx.PI
           (Approx.constant 0) Sample.fourPixels
           (Sample.plainOptions [Sample.inkAt0 Sample.cyan] (ofZ 4) None)).
  - simpl. lia.
  - simpl. lia.
  - exact I.
  - repeat constructor; simpl; lia.
Defined.

Lemma blank_image_prints_plain_paper_witness :
  processRisograph Approx.cos Approx.sin Approx.sqrt Approx.PI
                   (Approx.constant 0)
                   (mkImageData [255; 255; 255; 255; 10; 20; 30; 0]%Z 2 1)
                   (Sample.plainOptions [Sample.inkAt0 Sample.black]
                                        (ofZ 4) (Some FM))
  = Normal (mkImageData (paperBuffer DEFAULT_PAPER 2 1) 2 1).
Proof.
  apply (blank_image_prints_plain_paper Approx.cos Approx.sin Approx.sqrt
           Approx.PI (Approx.constant 0)
           (mkImageData [255; 255; 255; 255; 10; 20; 30; 0]%Z 2 1)
           (Sample.plainOptions [Sample.inkAt0 Sample.black] (ofZ 4)
                                (Some FM)) 0).
  - simpl. lia.
  - simpl. lia.
  - reflexivity.
  - intros p Hp. destruct p as [|[|p]].
    + right. repeat split.
    + left. vm_compute. reflexivity.
    + simpl in Hp. lia.
  - reflexivity.
  - exact I.
  - reflexivity.
  - vm_compute. reflexivity.
Defined.
